(** * parso/parser.py: the table-driven parse engine with soft-keyword lookahead

    A shallow embedding of [parso.parser]: the token generator proxy
    ([_TokenGeneratorProxy]), the transition resolver ([get_possible_plan]
    with its nested [superior_plan]), the engine ([BaseParser._add_token],
    [_pop], [parse]), the tree builder ([convert_node], [convert_leaf]) and
    the list of what the stack takes next
    ([Stack._allowed_transition_names_and_token_types]).

    Conventions of the embedding.
    - Python objects that are shared and cyclic (DFA states reached through
      [next_dfa] and [dfa_pushes]) are referred to by an index into the
      grammar's table [dfa_states].
    - The parse stack is a list whose HEAD is the top of the stack:
      [stack[-1]] is the head, [stack.append] is a cons, [stack.pop()]
      removes the head.  Children lists keep Python's order ([append] adds at
      the end).
    - A Python generator is the list of the tokens it has still to yield;
      [next] on the empty list raises [StopIteration].
    - Loops whose length depends on the token source take a [fuel] argument;
      running out of it yields [OutOfFuel], which is no Python behaviour.
    - [c.parent = node], the weak back reference set by [convert_node], is
      not represented: no statement below observes it. *)

From Stdlib Require Import String List Arith Bool Lia PeanoNat.
Import ListNotations.
Local Open Scope string_scope.
Local Open Scope list_scope.
Local Open Scope nat_scope.

Set Implicit Arguments.

(* ===================================================================== *)
(** * Data model *)
(* ===================================================================== *)

(** Modelled from the spec: the token type objects ([type_.name],
    [type_.contains_syntax]) are declared in parso's tokenizer, which the
    parser only reads. *)
Record TokenType := mkTokenType {
  name : string;
  contains_syntax : bool
}.

(** Modelled from the spec: [parso.pgen2.generator.ReservedString], a
    reserved word with its text and, in this code base, the [soft] flag. *)
Record ReservedString := mkReservedString {
  value : string;
  soft : bool
}.

Definition Position := (nat * nat)%type.

(** A token is the 4-tuple [(type, string, start_pos, prefix)]. *)
Record Token := mkToken {
  tok_type : TokenType;
  tok_string : string;
  tok_start_pos : Position;
  tok_prefix : string
}.

(** A key of a DFA state's transition table: a [ReservedString] object or a
    token type. *)
Inductive Transition :=
| TReserved (r : ReservedString)
| TType (t : TokenType).

(** Modelled from the spec: [parso.pgen2.generator.DFAPlan].  [plan_id]
    stands for the identity of the Python object: plans are used as
    dictionary keys and set members and compare by identity, so two plans
    of a grammar table that are different objects carry different ids. *)
Record DFAPlan := mkDFAPlan {
  plan_id : nat;
  next_dfa : nat;
  dfa_pushes : list nat
}.

(** Modelled from the spec: [parso.pgen2.generator.DFAState]; [transitions]
    lists the items of the (insertion ordered) dictionary. *)
Record DFAState := mkDFAState {
  from_rule : string;
  is_final : bool;
  transitions : list (Transition * DFAPlan)
}.

(** Modelled from the spec: the grammar object handed to the parser. *)
Record Grammar := mkGrammar {
  nonterminal_to_dfas : list (string * list nat);
  dfa_states : nat -> DFAState;
  reserved_syntax_strings : list (string * ReservedString)
}.

(** Modelled from the spec: [parso.tree]: [tree.Leaf(value, start_pos,
    prefix)], [tree.ErrorLeaf(token_type, value, start_pos, prefix)] and
    [tree.Node(type, children)]. *)
#[warnings="-register-all"]
Inductive NodeOrLeaf :=
| Leaf (leaf_value : string) (leaf_start_pos : Position) (leaf_prefix : string)
| ErrorLeaf (token_type : TokenType) (leaf_value : string)
            (leaf_start_pos : Position) (leaf_prefix : string)
| Node (node_type : string) (children : list NodeOrLeaf).

(** ** Decidable equalities (dictionary keys, set membership) *)

Definition TokenType_eq_dec (a b : TokenType) : {a = b} + {a <> b}.
Proof. decide equality; [apply bool_dec | apply string_dec]. Defined.

Definition ReservedString_eq_dec (a b : ReservedString) : {a = b} + {a <> b}.
Proof. decide equality; [apply bool_dec | apply string_dec]. Defined.

Definition Transition_eq_dec (a b : Transition) : {a = b} + {a <> b}.
Proof.
  decide equality; [apply ReservedString_eq_dec | apply TokenType_eq_dec].
Defined.

Definition DFAPlan_eq_dec (a b : DFAPlan) : {a = b} + {a <> b}.
Proof.
  decide equality;
    [apply (list_eq_dec Nat.eq_dec) | apply Nat.eq_dec | apply Nat.eq_dec].
Defined.

(** ** Exceptions and outcomes *)

(** What [InternalParseError.__init__] leaves in [self.type]. *)
Inductive TypeAttribute :=
| BuiltinType                       (* the builtin class [type] *)
| TokenTypeObject (t : TokenType).  (* a token type *)

(** An [InternalParseError] instance: the values formatted into the
    exception message, [(msg, type_.name, value, start_pos)], and the four
    attributes assigned by [__init__]. *)
Record InternalParseErrorObject := mkInternalParseErrorObject {
  message_args : string * string * string * Position;
  ipe_msg : string;
  ipe_type : TypeAttribute;
  ipe_value : string;
  ipe_start_pos : Position
}.

Inductive exn :=
| ParserSyntaxError (message : string) (error_leaf : NodeOrLeaf)
| InternalParseError (e : InternalParseErrorObject)
| NotImplementedError (message : string)
| KeyError
| IndexError
| AssertionError
| StopIteration
| ValueError
| UnboundLocalError.

Inductive outcome (A : Type) :=
| Ret (a : A)
| Raise (e : exn)
| OutOfFuel.
Arguments Raise {A} e.
Arguments OutOfFuel {A}.

(** [InternalParseError.__init__(self, msg, type_, value, start_pos)]:
<<
        Exception.__init__(self, "%s: type=%r, value=%r, start_pos=%r" %
                           (msg, type_.name, value, start_pos))
        self.msg = msg
        self.type = type
        self.value = value
        self.start_pos = start_pos
>>
    The third assignment reads the builtin [type], not the parameter
    [type_]. *)
Definition new_InternalParseError (msg : string) (type_ : TokenType)
    (value_ : string) (start_pos : Position) : exn :=
  InternalParseError
    {| message_args := (msg, name type_, value_, start_pos);
       ipe_msg := msg;
       ipe_type := BuiltinType;
       ipe_value := value_;
       ipe_start_pos := start_pos |}.

(* ===================================================================== *)
(** * The token generator proxy *)
(* ===================================================================== *)

(** One element [[start, end, tokens]] of [_release_ranges]. *)
Record ReleaseRange := mkRange {
  rr_start : nat;
  rr_end : option nat;
  rr_tokens : list Token
}.

Record TokenGeneratorProxy := mkProxy {
  _tokens : list Token;            (* the generator: tokens still to come *)
  _counter : nat;
  _release_ranges : list ReleaseRange
}.

(** [_TokenGeneratorProxy(generator)] *)
Definition new_proxy (generator : list Token) : TokenGeneratorProxy :=
  {| _tokens := generator; _counter := 0; _release_ranges := [] |}.

(** [l[-1]] *)
Definition last_opt {A} (l : list A) : option A :=
  match rev l with
  | [] => None
  | x :: _ => Some x
  end.

(** [l[-1] = f(l[-1])] on a non-empty list. *)
Definition update_last {A} (f : A -> A) (l : list A) : list A :=
  match rev l with
  | [] => []
  | x :: r => rev r ++ [f x]
  end.

(** Entering [with self._tokens.release()]:
    [self._release_ranges.append([self._counter, None, []])]. *)
Definition release_enter (px : TokenGeneratorProxy) : TokenGeneratorProxy :=
  {| _tokens := _tokens px;
     _counter := _counter px;
     _release_ranges :=
       _release_ranges px ++ [mkRange (_counter px) None []] |}.

(** Leaving it (the [finally] clause):
<<
            total_eaten = len(self._release_ranges[-1][2])
            self._release_ranges[-1][1] = self._counter + total_eaten
>> *)
Definition release_exit (px : TokenGeneratorProxy) : TokenGeneratorProxy :=
  {| _tokens := _tokens px;
     _counter := _counter px;
     _release_ranges :=
       update_last
         (fun r => mkRange (rr_start r)
                           (Some (_counter px + length (rr_tokens r)))
                           (rr_tokens r))
         (_release_ranges px) |}.

(** The [while point >= len(eaten_tokens)] loop of [eat]: pull from the
    generator and append, until the list is longer than [point]; the tokens
    appended before a [StopIteration] stay in the list. *)
Fixpoint eat_pull (point : nat) (eaten src : list Token)
  : outcome Token * list Token * list Token :=
  match src with
  | [] => (Raise StopIteration, eaten, [])
  | token :: src' =>
      let eaten' := eaten ++ [token] in
      if length eaten' <=? point then eat_pull point eaten' src'
      else (Ret token, eaten', src')
  end.

(** [eat(self, point)] *)
Definition eat (point : nat) (px : TokenGeneratorProxy)
  : outcome Token * TokenGeneratorProxy :=
  match last_opt (_release_ranges px) with
  | None => (Raise IndexError, px)
  | Some r =>
      let eaten_tokens := rr_tokens r in
      if point <? length eaten_tokens then
        match nth_error eaten_tokens point with
        | Some token => (Ret token, px)
        | None => (Raise IndexError, px)
        end
      else
        let '(res, eaten', src') := eat_pull point eaten_tokens (_tokens px) in
        (res,
         {| _tokens := src';
            _counter := _counter px;
            _release_ranges :=
              update_last (fun r => mkRange (rr_start r) (rr_end r) eaten')
                          (_release_ranges px) |})
  end.

(** The [for start, end, tokens in self._release_ranges] loop of
    [__next__]: [Ret (Some token)] on [break], [Ret None] when the [else]
    clause of the loop is reached. *)
Fixpoint scan_ranges (ranges : list ReleaseRange) (counter : nat)
  : outcome (option Token) :=
  match ranges with
  | [] => Ret None
  | r :: ranges' =>
      match rr_end r with
      | None => Raise AssertionError
      | Some end_ =>
          if (rr_start r <=? counter) && (counter <? end_) then
            match nth_error (rr_tokens r) (counter - rr_start r) with
            | Some token => Ret (Some token)
            | None => Raise IndexError
            end
          else scan_ranges ranges' counter
      end
  end.

(** [__next__(self)] *)
Definition next (px : TokenGeneratorProxy)
  : outcome Token * TokenGeneratorProxy :=
  match scan_ranges (_release_ranges px) (_counter px) with
  | Ret (Some token) =>
      (Ret token,
       {| _tokens := _tokens px;
          _counter := _counter px + 1;
          _release_ranges := _release_ranges px |})
  | Ret None =>
      match _tokens px with
      | [] => (Raise StopIteration, px)
      | token :: src' =>
          (Ret token,
           {| _tokens := src';
              _counter := _counter px + 1;
              _release_ranges := _release_ranges px |})
      end
  | Raise e => (Raise e, px)
  | OutOfFuel => (OutOfFuel, px)
  end.

(** [can_advance(self, to)] *)
Definition can_advance (to : nat) (px : TokenGeneratorProxy)
  : outcome bool * TokenGeneratorProxy :=
  match eat to px with
  | (Ret _, px') => (Ret true, px')
  | (Raise StopIteration, px') => (Ret false, px')
  | (Raise e, px') => (Raise e, px')
  | (OutOfFuel, px') => (OutOfFuel, px')
  end.

(* ===================================================================== *)
(** * The transition resolver *)
(* ===================================================================== *)

(** [d.get(k)] / [k in d] / [d[k]] on the items of a dictionary. *)
Fixpoint dict_get {K V : Type} (eq_dec : forall a b : K, {a = b} + {a <> b})
    (k : K) (d : list (K * V)) : option V :=
  match d with
  | [] => None
  | (k', v) :: d' => if eq_dec k k' then Some v else dict_get eq_dec k d'
  end.

(** [d[k] = v]: an existing key keeps its place, a new key goes last. *)
Fixpoint dict_set {K V : Type} (eq_dec : forall a b : K, {a = b} + {a <> b})
    (k : K) (v : V) (d : list (K * V)) : list (K * V) :=
  match d with
  | [] => [(k, v)]
  | (k', v') :: d' =>
      if eq_dec k k' then (k', v) :: d' else (k', v') :: dict_set eq_dec k v d'
  end.

(** [_token_to_transition(grammar, type_, value)]; the result tuple is a
    list of one or two keys. *)
Definition _token_to_transition (grammar : Grammar) (type_ : TokenType)
    (value_ : string) : list Transition :=
  if contains_syntax type_ then
    match dict_get string_dec value_ (reserved_syntax_strings grammar) with
    | Some reserved_string =>
        if soft reserved_string
        then [TReserved reserved_string; TType type_]
        else [TReserved reserved_string]
    | None => [TType type_]
    end
  else [TType type_].

Definition TransitionTable := list (Transition * DFAPlan).

(** The first loop of [get_possible_plan]:
<<
            possible_plans = []
            for transition in possible_transitions:
                possible_plan = transition_table.get(transition)
                if possible_plan is not None:
                    possible_plans.append(possible_plan)
>> *)
Fixpoint collect_plans (possible_transitions : list Transition)
    (transition_table : TransitionTable) : list DFAPlan :=
  match possible_transitions with
  | [] => []
  | transition :: rest =>
      match dict_get Transition_eq_dec transition transition_table with
      | Some possible_plan =>
          possible_plan :: collect_plans rest transition_table
      | None => collect_plans rest transition_table
      end
  end.

(** [possible_plan_table]: origin plan |-> the branch of plans matched so
    far, in insertion order. *)
Definition PlanTable := list (DFAPlan * list DFAPlan).

(** [{possible_plan: [possible_plan] for possible_plan in possible_plans}] *)
Definition new_plan_table (possible_plans : list DFAPlan) : PlanTable :=
  fold_left (fun d p => dict_set DFAPlan_eq_dec p [p] d) possible_plans [].

(** Python's [max(items, key=lambda kv: kv[1])]: the first item whose key
    is maximal. *)
Fixpoint py_max_by_length (best : DFAPlan * nat) (items : list (DFAPlan * nat))
  : DFAPlan * nat :=
  match items with
  | [] => best
  | kv :: items' =>
      if snd best <? snd kv then py_max_by_length kv items'
      else py_max_by_length best items'
  end.

(** [superior_plan(table, winner=False)]:
<<
                    possibilities = {}
                    for origin, branch in table.items():
                        possibilities[origin] = len(branch)
                    all_branch_lengths = tuple(possibilities.values())
                    superior_origin, superior_branch_length = max(
                        possibilities.items(), key=lambda kv: kv[1]
                    )
                    if (
                        all_branch_lengths.count(superior_branch_length) == 1
                        or winner
                    ):
                        return superior_origin
                    else:
                        return None
>>
    [max] of an empty sequence raises [ValueError]. *)
Definition superior_plan (table : PlanTable) (winner : bool)
  : outcome (option DFAPlan) :=
  let possibilities := map (fun ob => (fst ob, length (snd ob))) table in
  let all_branch_lengths := map snd possibilities in
  match possibilities with
  | [] => Raise ValueError
  | first :: rest =>
      let '(superior_origin, superior_branch_length) :=
        py_max_by_length first rest in
      if (count_occ Nat.eq_dec all_branch_lengths superior_branch_length =? 1)
         || winner
      then Ret (Some superior_origin)
      else Ret None
  end.

Section Lookahead.

Variable grammar : Grammar.

(** The recursive call [get_possible_plan(next_transitions,
    dfa_push.transitions)]. *)
Variable rec : list Transition -> TransitionTable -> TokenGeneratorProxy ->
               outcome (option DFAPlan) * TokenGeneratorProxy.

(**
<<
                          for dfa_push in reversed(current_plan.dfa_pushes):
                              next_possible_plan = get_possible_plan(next_transitions, dfa_push.transitions)
                              if next_possible_plan is not None:
                                  break
                          else:
                              ...
>>
    [Ret (Some plan)] on [break], [Ret None] when the [else] clause is
    reached. *)
Fixpoint try_pushes (next_transitions : list Transition)
    (reversed_pushes : list nat) (px : TokenGeneratorProxy)
  : outcome (option DFAPlan) * TokenGeneratorProxy :=
  match reversed_pushes with
  | [] => (Ret None, px)
  | dfa_push :: rest =>
      match rec next_transitions
                (transitions (dfa_states grammar dfa_push)) px with
      | (Ret (Some next_possible_plan), px') =>
          (Ret (Some next_possible_plan), px')
      | (Ret None, px') => try_pushes next_transitions rest px'
      | (Raise e, px') => (Raise e, px')
      | (OutOfFuel, px') => (OutOfFuel, px')
      end
  end.

(** [dead_plans.add(origin)] *)
Definition set_add (origin : DFAPlan) (dead_plans : list DFAPlan)
  : list DFAPlan :=
  if in_dec DFAPlan_eq_dec origin dead_plans then dead_plans
  else origin :: dead_plans.

(** One pass of
<<
                      for origin, possible_plans in possible_plan_table.items():
                          current_plan = possible_plans[-1]
                          if origin in dead_plans:
                              continue
                          for dfa_push in reversed(current_plan.dfa_pushes):
                              ...
                          else:
                              dead_plans.add(origin)
                              continue
                          possible_plans.append(next_possible_plan)
>>
    over the items still to visit; returns the visited items with their
    branches as the loop leaves them, and the set of dead plans. *)
Fixpoint advance_plans (next_transitions : list Transition)
    (items : PlanTable) (dead_plans : list DFAPlan)
    (px : TokenGeneratorProxy)
  : outcome (PlanTable * list DFAPlan) * TokenGeneratorProxy :=
  match items with
  | [] => (Ret ([], dead_plans), px)
  | (origin, possible_plans) :: items' =>
      match last_opt possible_plans with
      | None => (Raise IndexError, px)
      | Some current_plan =>
          if in_dec DFAPlan_eq_dec origin dead_plans then
            match advance_plans next_transitions items' dead_plans px with
            | (Ret (done, dead'), px') =>
                (Ret ((origin, possible_plans) :: done, dead'), px')
            | other => other
            end
          else
            match try_pushes next_transitions
                             (rev (dfa_pushes current_plan)) px with
            | (Ret (Some next_possible_plan), px1) =>
                match advance_plans next_transitions items' dead_plans px1 with
                | (Ret (done, dead'), px') =>
                    (Ret ((origin, possible_plans ++ [next_possible_plan])
                            :: done, dead'), px')
                | other => other
                end
            | (Ret None, px1) =>
                match advance_plans next_transitions items'
                                    (set_add origin dead_plans) px1 with
                | (Ret (done, dead'), px') =>
                    (Ret ((origin, possible_plans) :: done, dead'), px')
                | other => other
                end
            | (Raise e, px1) => (Raise e, px1)
            | (OutOfFuel, px1) => (OutOfFuel, px1)
            end
      end
  end.

(**
<<
                  counter = 0
                  while superior_plan(possible_plan_table) is None:
                      if not token_proxy.can_advance(counter):
                          break # nothing to do, get the best plan we have
                      token = token_proxy.eat(counter)
                      next_transitions = _token_to_transition(grammar, *token[:2])
                      for origin, possible_plans in possible_plan_table.items():
                          ...
                      counter += 1
>>
    returns the table as the loop leaves it. *)
Fixpoint lookahead_loop (fuel : nat) (counter : nat)
    (possible_plan_table : PlanTable) (dead_plans : list DFAPlan)
    (px : TokenGeneratorProxy)
  : outcome PlanTable * TokenGeneratorProxy :=
  match superior_plan possible_plan_table false with
  | Raise e => (Raise e, px)
  | OutOfFuel => (OutOfFuel, px)
  | Ret (Some _) => (Ret possible_plan_table, px)
  | Ret None =>
      match fuel with
      | 0 => (OutOfFuel, px)
      | S fuel' =>
          match can_advance counter px with
          | (Ret false, px1) => (Ret possible_plan_table, px1)
          | (Ret true, px1) =>
              match eat counter px1 with
              | (Ret token, px2) =>
                  let next_transitions :=
                    _token_to_transition grammar (tok_type token)
                                         (tok_string token) in
                  match advance_plans next_transitions possible_plan_table
                                      dead_plans px2 with
                  | (Ret (table', dead'), px3) =>
                      lookahead_loop fuel' (counter + 1) table' dead' px3
                  | (Raise e, px3) => (Raise e, px3)
                  | (OutOfFuel, px3) => (OutOfFuel, px3)
                  end
              | (Raise e, px2) => (Raise e, px2)
              | (OutOfFuel, px2) => (OutOfFuel, px2)
              end
          | (Raise e, px1) => (Raise e, px1)
          | (OutOfFuel, px1) => (OutOfFuel, px1)
          end
      end
  end.

End Lookahead.

(** [get_possible_plan(possible_transitions, transition_table)], the
    closure defined in [_add_token]:
<<
            if len(possible_plans) == 0:
                return None
            elif len(possible_plans) == 1:
                return possible_plans[0]
            else:
                dead_plans = set()
                possible_plan_table = {possible_plan: [possible_plan] for possible_plan in possible_plans}
                with self._tokens.release() as token_proxy:
                    counter = 0
                    while superior_plan(possible_plan_table) is None:
                        ...
                    return superior_plan(possible_plan_table, winner = True)
>>
    [release_exit] is the [finally] clause of the context manager: it runs
    however the block is left. *)
Fixpoint get_possible_plan (fuel : nat) (grammar : Grammar)
    (possible_transitions : list Transition)
    (transition_table : TransitionTable) (px : TokenGeneratorProxy)
  : outcome (option DFAPlan) * TokenGeneratorProxy :=
  match collect_plans possible_transitions transition_table with
  | [] => (Ret None, px)
  | [possible_plan] => (Ret (Some possible_plan), px)
  | possible_plans =>
      match fuel with
      | 0 => (OutOfFuel, px)
      | S fuel' =>
          let possible_plan_table := new_plan_table possible_plans in
          match lookahead_loop grammar (get_possible_plan fuel' grammar)
                               fuel' 0 possible_plan_table []
                               (release_enter px) with
          | (Ret table, px') => (superior_plan table true, release_exit px')
          | (Raise e, px') => (Raise e, release_exit px')
          | (OutOfFuel, px') => (OutOfFuel, release_exit px')
          end
      end
  end.

(* ===================================================================== *)
(** * The parse engine and the tree builder *)
(* ===================================================================== *)

(** [StackNode]: the cursor [dfa] (an index into [dfa_states]) and the
    children built so far. *)
Record StackNode := mkStackNode {
  dfa : nat;
  nodes : list NodeOrLeaf
}.

(** The attributes fixed by [BaseParser.__init__]. *)
Record BaseParser := mkBaseParser {
  _pgen_grammar : Grammar;
  _start_nonterminal : string;
  _error_recovery : bool
}.

(** The attributes set by [parse]: [self.stack] (top at the head) and
    [self._tokens]. *)
Record ParserState := mkState {
  stack : list StackNode;
  tokens_proxy : TokenGeneratorProxy
}.

Section Engine.

Variable self : BaseParser.

Let grammar := _pgen_grammar self.

(** [StackNode.nonterminal]: [self.dfa.from_rule] *)
Definition nonterminal (sn : StackNode) : string :=
  from_rule (dfa_states grammar (dfa sn)).

(** [convert_node(nonterminal, children)]: [node_map] is empty, so the
    lookup raises [KeyError] and [default_node] builds the node. *)
Definition convert_node (nonterminal_ : string) (children : list NodeOrLeaf)
  : NodeOrLeaf :=
  Node nonterminal_ children.

(** [convert_leaf(type_, value, prefix, start_pos)]: [leaf_map] is empty,
    so [default_leaf(value, start_pos, prefix)] builds the leaf. *)
Definition convert_leaf (type_ : TokenType) (value_ : string)
    (prefix : string) (start_pos : Position) : NodeOrLeaf :=
  Leaf value_ start_pos prefix.

(** [error_recovery(self, token)] *)
Definition error_recovery (token : Token) : outcome unit :=
  if _error_recovery self then
    Raise (NotImplementedError "Error Recovery is not implemented")
  else
    let '(mkToken type_ value_ start_pos prefix) := token in
    let error_leaf := ErrorLeaf type_ value_ start_pos prefix in
    Raise (ParserSyntaxError "SyntaxError: invalid syntax" error_leaf).

(** [_pop(self)]:
<<
      tos = self.stack.pop()
      if len(tos.nodes) == 1:
          new_node = tos.nodes[0]
      else:
          new_node = self.convert_node(tos.dfa.from_rule, tos.nodes)
      self.stack[-1].nodes.append(new_node)
>>
    The frame is already popped when [self.stack[-1]] raises. *)
Definition _pop (stack_ : list StackNode) : outcome unit * list StackNode :=
  match stack_ with
  | [] => (Raise IndexError, [])
  | tos :: below =>
      let new_node :=
        match nodes tos with
        | [only_child] => only_child
        | _ => convert_node (from_rule (dfa_states grammar (dfa tos)))
                            (nodes tos)
        end in
      match below with
      | [] => (Raise IndexError, [])
      | parent :: rest =>
          (Ret tt, mkStackNode (dfa parent) (nodes parent ++ [new_node])
                     :: rest)
      end
  end.

(** The [while True] loop of [_add_token]:
<<
      while True:
          try:
              plan = get_possible_plan(possible_transitions, stack[-1].dfa.transitions)
              if plan is None:
                  raise KeyError
              break
          except KeyError:
              if stack[-1].dfa.is_final:
                  self._pop()
              else:
                  self.error_recovery(token)
                  return
          except IndexError:
              raise InternalParseError("too much input", type_, value, start_pos)
>>
    [Ret (Some plan)] on [break], [Ret None] on [return].  An exception
    raised inside the [except KeyError] block is not seen by the
    [except IndexError] clause of the same [try].  Every round but the
    last pops a frame, so [n] rounds with [n] above the stack's length
    are enough. *)
Fixpoint find_plan (n : nat) (fuel : nat) (token : Token) (st : ParserState)
  : outcome (option DFAPlan) * ParserState :=
  let '(mkToken type_ value_ start_pos prefix) := token in
  let possible_transitions := _token_to_transition grammar type_ value_ in
  let too_much_input :=
    new_InternalParseError "too much input" type_ value_ start_pos in
  match n with
  | 0 => (OutOfFuel, st)
  | S n' =>
      match stack st with
      | [] => (Raise too_much_input, st)
      | tos :: _ =>
          let handle_KeyError (px' : TokenGeneratorProxy) :=
            if is_final (dfa_states grammar (dfa tos)) then
              match _pop (stack st) with
              | (Ret tt, stack') => find_plan n' fuel token (mkState stack' px')
              | (Raise e, stack') => (Raise e, mkState stack' px')
              | (OutOfFuel, stack') => (OutOfFuel, mkState stack' px')
              end
            else
              match error_recovery token with
              | Ret tt => (Ret None, mkState (stack st) px')
              | Raise e => (Raise e, mkState (stack st) px')
              | OutOfFuel => (OutOfFuel, mkState (stack st) px')
              end in
          match get_possible_plan fuel grammar possible_transitions
                  (transitions (dfa_states grammar (dfa tos)))
                  (tokens_proxy st) with
          | (Ret (Some plan), px') => (Ret (Some plan), mkState (stack st) px')
          | (Ret None, px') => handle_KeyError px'
          | (Raise KeyError, px') => handle_KeyError px'
          | (Raise IndexError, px') =>
              (Raise too_much_input, mkState (stack st) px')
          | (Raise e, px') => (Raise e, mkState (stack st) px')
          | (OutOfFuel, px') => (OutOfFuel, mkState (stack st) px')
          end
      end
  end.

(** [for push in plan.dfa_pushes: stack.append(StackNode(push))] *)
Definition push_all (pushes : list nat) (stack_ : list StackNode)
  : list StackNode :=
  fold_left (fun s push => mkStackNode push [] :: s) pushes stack_.

(** [_add_token(self, token)]; after the loop:
<<
      stack[-1].dfa = plan.next_dfa
      for push in plan.dfa_pushes:
          stack.append(StackNode(push))
      leaf = self.convert_leaf(type_, value, prefix, start_pos)
      stack[-1].nodes.append(leaf)
>> *)
Definition _add_token (fuel : nat) (token : Token) (st : ParserState)
  : outcome unit * ParserState :=
  match find_plan (S (length (stack st))) fuel token st with
  | (Ret (Some plan), st') =>
      match stack st' with
      | [] => (Raise IndexError, st')
      | tos :: below =>
          let stack1 := mkStackNode (next_dfa plan) (nodes tos) :: below in
          let stack2 := push_all (dfa_pushes plan) stack1 in
          let leaf := convert_leaf (tok_type token) (tok_string token)
                                   (tok_prefix token) (tok_start_pos token) in
          match stack2 with
          | [] => (Raise IndexError, mkState stack2 (tokens_proxy st'))
          | top :: below2 =>
              (Ret tt,
               mkState (mkStackNode (dfa top) (nodes top ++ [leaf]) :: below2)
                       (tokens_proxy st'))
          end
      end
  | (Ret None, st') => (Ret tt, st')
  | (Raise e, st') => (Raise e, st')
  | (OutOfFuel, st') => (OutOfFuel, st')
  end.

(** The [for token in self._tokens: self._add_token(token)] loop of
    [parse]; returns the loop variable [token] as the loop leaves it
    ([None]: never bound). *)
Fixpoint feed_tokens (fuel : nat) (last_token : option Token)
    (st : ParserState) : outcome (option Token) * ParserState :=
  match fuel with
  | 0 => (OutOfFuel, st)
  | S fuel' =>
      match next (tokens_proxy st) with
      | (Ret token, px') =>
          match _add_token fuel token (mkState (stack st) px') with
          | (Ret tt, st') => feed_tokens fuel' (Some token) st'
          | (Raise e, st') => (Raise e, st')
          | (OutOfFuel, st') => (OutOfFuel, st')
          end
      | (Raise StopIteration, px') =>
          (Ret last_token, mkState (stack st) px')
      | (Raise e, px') => (Raise e, mkState (stack st) px')
      | (OutOfFuel, px') => (OutOfFuel, mkState (stack st) px')
      end
  end.

(** The closing loop of [parse]:
<<
      while True:
          tos = self.stack[-1]
          if not tos.dfa.is_final:
              raise InternalParseError(
                  "incomplete input", token.type, token.string, token.start_pos
              )
          if len(self.stack) > 1:
              self._pop()
          else:
              return self.convert_node(tos.nonterminal, tos.nodes)
>>
    [token] is unbound when the [for] loop never ran. *)
Fixpoint reduce_all (n : nat) (token : option Token)
    (stack_ : list StackNode) : outcome NodeOrLeaf * list StackNode :=
  match n with
  | 0 => (OutOfFuel, stack_)
  | S n' =>
      match stack_ with
      | [] => (Raise IndexError, stack_)
      | tos :: _ =>
          if negb (is_final (dfa_states grammar (dfa tos))) then
            match token with
            | None => (Raise UnboundLocalError, stack_)
            | Some token =>
                (Raise (new_InternalParseError "incomplete input"
                          (tok_type token) (tok_string token)
                          (tok_start_pos token)), stack_)
            end
          else if 1 <? length stack_ then
            match _pop stack_ with
            | (Ret tt, stack') => reduce_all n' token stack'
            | (Raise e, stack') => (Raise e, stack')
            | (OutOfFuel, stack') => (OutOfFuel, stack')
            end
          else (Ret (convert_node (nonterminal tos) (nodes tos)), stack_)
      end
  end.

(** [parse(self, tokens)] *)
Definition parse (fuel : nat) (tokens : list Token) : outcome NodeOrLeaf :=
  match dict_get string_dec (_start_nonterminal self)
                 (nonterminal_to_dfas grammar) with
  | None => Raise KeyError
  | Some [] => Raise IndexError
  | Some (first_dfa :: _) =>
      let st := mkState [mkStackNode first_dfa []] (new_proxy tokens) in
      match feed_tokens fuel None st with
      | (Ret token, st') =>
          fst (reduce_all (S (length (stack st'))) token (stack st'))
      | (Raise e, _) => Raise e
      | (OutOfFuel, _) => OutOfFuel
      end
  end.

End Engine.

(* ===================================================================== *)
(** * The stack as Jedi reads it *)
(* ===================================================================== *)

(** What [Stack._allowed_transition_names_and_token_types] lists: the text
    of a reserved string, or a token type. *)
Inductive NameOrTokenType :=
| ReservedValue (value_ : string)
| TokenTypeItem (t : TokenType).

(** [Stack._allowed_transition_names_and_token_types(self)]:
<<
        def iterate():
            # An API just for Jedi.
            for stack_node in reversed(self):
                for transition in stack_node.dfa.transitions:
                    if isinstance(transition, ReservedString):
                        yield transition.value
                    else:
                        yield transition  # A token type

                if not stack_node.dfa.is_final:
                    break

        return list(iterate())
>>
    [reversed(self)] starts at the top of the stack, which is the head of
    the list here; iterating a dictionary yields its keys in the order of
    its items. *)
Fixpoint _allowed_transition_names_and_token_types (grammar : Grammar)
    (self : list StackNode) : list NameOrTokenType :=
  match self with
  | [] => []
  | stack_node :: below =>
      map (fun item =>
             match fst item with
             | TReserved transition => ReservedValue (value transition)
             | TType transition => TokenTypeItem transition
             end)
          (transitions (dfa_states grammar (dfa stack_node)))
      ++ (if is_final (dfa_states grammar (dfa stack_node))
          then _allowed_transition_names_and_token_types grammar below
          else [])
  end.

Unset Implicit Arguments.

(* ===================================================================== *)
(** * Notions used by the statements *)
(* ===================================================================== *)

(** ** The tree and the text it stands for *)

(** The leaves of a tree, left to right. *)
Fixpoint leaves (t : NodeOrLeaf) : list NodeOrLeaf :=
  match t with
  | Node _ children => flat_map leaves children
  | leaf => [leaf]
  end.

Definition frame_leaves (sn : StackNode) : list NodeOrLeaf :=
  flat_map leaves (nodes sn).

(** The leaves held by the stack, bottom frame first. *)
Definition stack_leaves (stack_ : list StackNode) : list NodeOrLeaf :=
  flat_map frame_leaves (rev stack_).

(** The leaf that [convert_leaf] builds for a token. *)
Definition leaf_of (token : Token) : NodeOrLeaf :=
  Leaf (tok_string token) (tok_start_pos token) (tok_prefix token).

(** A leaf's prefix followed by its text. *)
Definition leaf_code (t : NodeOrLeaf) : string :=
  match t with
  | Leaf value_ _ prefix => (prefix ++ value_)%string
  | ErrorLeaf _ value_ _ prefix => (prefix ++ value_)%string
  | Node _ _ => EmptyString
  end.

Definition get_code (t : NodeOrLeaf) : string :=
  String.concat EmptyString (map leaf_code (leaves t)).

(** The input text: every token's prefix followed by its text. *)
Definition source_code (tokens : list Token) : string :=
  String.concat EmptyString
    (map (fun token => (tok_prefix token ++ tok_string token)%string) tokens).

(** ** Shapes of the proxy's state *)

(** [rs] keeps the ranges [base] as they are and has at least one more. *)
Definition extends (base rs : list ReleaseRange) : Prop :=
  exists changed, changed <> [] /\ rs = base ++ changed.

(** An operation that only rewrites the last range or appends ranges. *)
Definition touches_last (px px' : TokenGeneratorProxy) : Prop :=
  _counter px' = _counter px /\
  forall base, extends base (_release_ranges px) ->
               extends base (_release_ranges px').

(** An operation that leaves every existing range as it is. *)
Definition appends (px px' : TokenGeneratorProxy) : Prop :=
  _counter px' = _counter px /\
  exists extra, _release_ranges px' = _release_ranges px ++ extra.

(** A range that was opened and never closed: [__next__] trips over it. *)
Definition poisoned (px : TokenGeneratorProxy) : Prop :=
  exists r, In r (_release_ranges px) /\ rr_end r = None.

(** The resolver has left the range of its own scope open, because a scope
    was opened inside it. *)
Definition left_open (px px' : TokenGeneratorProxy) : Prop :=
  _counter px' = _counter px /\
  exists tk ch,
    _release_ranges px' =
      _release_ranges px ++ mkRange (_counter px) None tk :: ch.

(** Some range is open; the ranges before it replay [cached]. *)
Definition stuck (px : TokenGeneratorProxy) (cached : list Token) : Prop :=
  exists old open more,
    _release_ranges px = old ++ open :: more /\
    rr_end open = None /\
    forall k, scan_ranges old (_counter px + k) = Ret (nth_error cached k).

(** The number of tokens held in the ranges. *)
Definition held (rs : list ReleaseRange) : nat :=
  list_sum (map (fun r => length (rr_tokens r)) rs).

(** Tokens move from the generator into the ranges and nowhere else. *)
Definition conserves (px px' : TokenGeneratorProxy) : Prop :=
  length (_tokens px') + held (_release_ranges px')
  = length (_tokens px) + held (_release_ranges px) /\
  length (_tokens px') <= length (_tokens px).

(** [cached] are the tokens that the next calls of [__next__] replay from
    the ranges, after which it turns to the generator. *)
Definition synced (px : TokenGeneratorProxy) (cached : list Token) : Prop :=
  forall k, scan_ranges (_release_ranges px) (_counter px + k)
            = Ret (nth_error cached k).

(** Open a speculative scope, peek up to offset [n], close the scope. *)
Definition speculate (n : nat) (px : TokenGeneratorProxy)
  : TokenGeneratorProxy :=
  release_exit (snd (can_advance n (release_enter px))).

(** The outcomes of [n] successive calls of [__next__]. *)
Fixpoint next_tokens (n : nat) (px : TokenGeneratorProxy)
  : list (outcome Token) :=
  match n with
  | 0 => []
  | S n' => let '(r, px') := next px in r :: next_tokens n' px'
  end.

(** ** Lookups that need no speculation *)

(** A lookup that finds at most one plan answers at once. *)
Definition sole_plan (nt : list Transition) (tb : TransitionTable)
    (r : option DFAPlan) : Prop :=
  (collect_plans nt tb = [] /\ r = None) \/
  (exists p, collect_plans nt tb = [p] /\ r = Some p).

Section Continuations.

Variable grammar : Grammar.

Definition table_of (d : nat) : TransitionTable :=
  transitions (dfa_states grammar d).

Definition keys_of (token : Token) : list Transition :=
  _token_to_transition grammar (tok_type token) (tok_string token).

(** What the loop over [reversed(current_plan.dfa_pushes)] finds when no
    lookup is ambiguous. *)
Definition found_in (nt : list Transition) (ds : list nat)
    (r : option DFAPlan) : Prop :=
  match r with
  | None => Forall (fun d => collect_plans nt (table_of d) = []) ds
  | Some p =>
      exists pre d post,
        ds = pre ++ d :: post /\
        Forall (fun d' => collect_plans nt (table_of d') = []) pre /\
        collect_plans nt (table_of d) = [p]
  end.

(** One unambiguous step of a simulated continuation. *)
Definition step (p : DFAPlan) (token : Token) (p' : DFAPlan) : Prop :=
  found_in (keys_of token) (rev (dfa_pushes p)) (Some p').

(** A continuation that handles each of the tokens by one such step. *)
Inductive chain : DFAPlan -> list Token -> DFAPlan -> Prop :=
| chain_nil p : chain p [] p
| chain_cons p token p1 tokens p' :
    step p token p1 -> chain p1 tokens p' -> chain p (token :: tokens) p'.

(** How one pass of the loop over the table's items leaves an entry,
    [dead'] being the set of dead plans after the pass. *)
Definition entry_step (nt : list Transition) (dead' : list DFAPlan)
    (ob ob' : DFAPlan * list DFAPlan) : Prop :=
  fst ob' = fst ob /\
  ((In (fst ob) dead' /\ snd ob' = snd ob) \/
   (~ In (fst ob) dead' /\
    exists pc p', last_opt (snd ob) = Some pc /\
                  found_in nt (rev (dfa_pushes pc)) (Some p') /\
                  snd ob' = snd ob ++ [p'])).

(** The table after the tokens [toks] have been peeked. *)
Definition table_inv (toks : list Token) (table : PlanTable)
    (dead : list DFAPlan) : Prop :=
  NoDup (map fst table) /\
  (forall o b, In (o, b) table -> ~ In o dead ->
     length b = S (length toks) /\
     exists p, last_opt b = Some p /\ chain o toks p) /\
  (forall o b, In (o, b) table -> In o dead -> length b <= length toks) /\
  ((exists o b, In (o, b) table /\ ~ In o dead) \/
   superior_plan table false = Ret None).

(** The token finds no plan in the state [d]. *)
Definition no_match (token : Token) (d : nat) : Prop :=
  collect_plans (keys_of token) (table_of d) = [].

(** The tokens [cached] will each be handled by one unambiguous lookup,
    as the lookahead simulation has already found. *)
Definition promised (dfas : list nat) (cached : list Token) : Prop :=
  cached = [] \/
  exists p pend below,
    dfas = rev (dfa_pushes p) ++ below /\ chain p cached pend.

(** The state of the engine between two tokens, [rest] being the tokens
    that [__next__] has still to return. *)
Definition good (st : ParserState) (rest : list Token) : Prop :=
  exists cached,
    rest = cached ++ _tokens (tokens_proxy st) /\
    synced (tokens_proxy st) cached /\
    (_tokens (tokens_proxy st) = [] \/ promised (map dfa (stack st)) cached).

(** The rule of the bottom frame's cursor. *)
Definition root_rule (stack_ : list StackNode) : option string :=
  option_map (fun sn => from_rule (dfa_states grammar (dfa sn)))
             (last_opt stack_).

End Continuations.

(** ** The tie-break as the specification words it *)

(** The plan of the candidate key that comes first in the state's
    transition table. *)
Fixpoint spec_first_registered (candidates : list Transition)
    (table : TransitionTable) : option DFAPlan :=
  match table with
  | [] => None
  | (key, plan) :: table' =>
      if in_dec Transition_eq_dec key candidates then Some plan
      else spec_first_registered candidates table'
  end.

(** ** The tokens a proxy holds *)

(** The tokens kept in the ranges, range after range, followed by the
    tokens that the generator has still to yield. *)
Definition stored (px : TokenGeneratorProxy) : list Token :=
  flat_map rr_tokens (_release_ranges px) ++ _tokens px.

(** Every range is closed and lies behind the counter: no cached token is
    waiting to be replayed. *)
Definition drained (px : TokenGeneratorProxy) : bool :=
  forallb (fun r => match rr_end r with
                    | Some end_ => end_ <=? _counter px
                    | None => false
                    end)
          (_release_ranges px).

(** What [n] calls of [next] give on a source [l] that nothing has peeked
    into: its tokens, then [StopIteration] again and again. *)
Definition plain_stream (n : nat) (l : list Token) : list (outcome Token) :=
  map (fun t => Ret t) (firstn n l) ++
  repeat (Raise StopIteration) (n - length l).

(** No reserved string of the grammar is a soft keyword. *)
Definition no_soft_keywords (grammar : Grammar) : Prop :=
  forall v r,
    dict_get string_dec v (reserved_syntax_strings grammar) = Some r ->
    soft r = false.

(** The state [d] is final and has no plan for the token: a frame in this
    state is popped when the token comes. *)
Definition complete_without (grammar : Grammar) (token : Token) (d : nat)
  : Prop :=
  is_final (dfa_states grammar d) = true /\ no_match grammar token d.

(** What [error_recovery] raises for a token. *)
Definition recovery_error (self : BaseParser) (token : Token) : exn :=
  if _error_recovery self
  then NotImplementedError "Error Recovery is not implemented"
  else ParserSyntaxError "SyntaxError: invalid syntax"
         (ErrorLeaf (tok_type token) (tok_string token)
                    (tok_start_pos token) (tok_prefix token)).

(** ** Trees without single children *)

(** No node of the tree has exactly one child. *)
Fixpoint no_single_child (t : NodeOrLeaf) : bool :=
  match t with
  | Node _ children =>
      negb (length children =? 1) && forallb no_single_child children
  | _ => true
  end.

(** The children collected in the frames of the stack are such trees. *)
Definition frames_without_single_child (stack_ : list StackNode) : Prop :=
  Forall (fun sn => forallb no_single_child (nodes sn) = true) stack_.

(* ===================================================================== *)
(** * Sample grammars and inputs *)
(* ===================================================================== *)

Definition NAME : TokenType := mkTokenType "NAME" true.
Definition OP : TokenType := mkTokenType "OP" true.
Definition ENDMARKER : TokenType := mkTokenType "ENDMARKER" false.

Definition name_token (s : string) (column : nat) : Token :=
  mkToken NAME s (1, column) " ".
Definition op_token (s : string) (column : nat) : Token :=
  mkToken OP s (1, column) " ".
Definition endmarker_token (column : nat) : Token :=
  mkToken ENDMARKER EmptyString (1, column) EmptyString.

Definition unused_state : DFAState := mkDFAState EmptyString false [].

(** The soft keyword [k] and the operator [=]. *)
Definition soft_k : ReservedString := mkReservedString "k" true.
Definition hard_eq : ReservedString := mkReservedString "=" false.

(** [S: NAME] *)
Definition single_name_grammar : Grammar :=
  mkGrammar [("S", [0])]
    (fun i => match i with
      | 0 => mkDFAState "S" false [(TType NAME, mkDFAPlan 0 1 [])]
      | 1 => mkDFAState "S" true []
      | _ => unused_state
      end) [].
Definition single_name_parser : BaseParser :=
  mkBaseParser single_name_grammar "S" false.

(** [S: NAME NAME] *)
Definition two_names_grammar : Grammar :=
  mkGrammar [("S", [0])]
    (fun i => match i with
      | 0 => mkDFAState "S" false [(TType NAME, mkDFAPlan 0 1 [])]
      | 1 => mkDFAState "S" false [(TType NAME, mkDFAPlan 1 2 [])]
      | 2 => mkDFAState "S" true []
      | _ => unused_state
      end) [].
Definition two_names_parser : BaseParser :=
  mkBaseParser two_names_grammar "S" false.

(** [file_input: expr_stmt ENDMARKER] and [expr_stmt: NAME ['=' NAME]];
    state 4 is [expr_stmt] after its first [NAME]. *)
Definition statement_grammar : Grammar :=
  mkGrammar [("file_input", [0]); ("expr_stmt", [3])]
    (fun i => match i with
      | 0 => mkDFAState "file_input" false [(TType NAME, mkDFAPlan 0 1 [4])]
      | 1 => mkDFAState "file_input" false
               [(TType ENDMARKER, mkDFAPlan 1 2 [])]
      | 2 => mkDFAState "file_input" true []
      | 3 => mkDFAState "expr_stmt" false [(TType NAME, mkDFAPlan 2 4 [])]
      | 4 => mkDFAState "expr_stmt" true
               [(TReserved hard_eq, mkDFAPlan 3 5 [])]
      | 5 => mkDFAState "expr_stmt" false [(TType NAME, mkDFAPlan 4 6 [])]
      | 6 => mkDFAState "expr_stmt" true []
      | _ => unused_state
      end) [("=", hard_eq)].
Definition statement_parser : BaseParser :=
  mkBaseParser statement_grammar "file_input" false.

(** [S: ('k' | NAME) NAME*]: neither plan of the initial state pushes a
    state. *)
Definition plan_keyword : DFAPlan := mkDFAPlan 1 1 [].
Definition plan_name : DFAPlan := mkDFAPlan 2 1 [].
Definition tie_grammar : Grammar :=
  mkGrammar [("S", [0])]
    (fun i => match i with
      | 0 => mkDFAState "S" false
               [(TType NAME, plan_name); (TReserved soft_k, plan_keyword)]
      | 1 => mkDFAState "S" true [(TType NAME, mkDFAPlan 3 1 [])]
      | _ => unused_state
      end) [("k", soft_k)].
Definition tie_parser : BaseParser := mkBaseParser tie_grammar "S" false.

(** [S: kstmt | names], [kstmt: 'k' NAME], [names: NAME NAME]: the input
    [k x] has both readings.  The table of the initial state registers the
    key [NAME] before the key ['k']. *)
Definition keyword_reading : DFAPlan := mkDFAPlan 1 1 [2].
Definition name_reading : DFAPlan := mkDFAPlan 2 1 [3].
Definition two_readings_grammar : Grammar :=
  mkGrammar [("S", [0])]
    (fun i => match i with
      | 0 => mkDFAState "S" false
               [(TType NAME, name_reading);
                (TReserved soft_k, keyword_reading)]
      | 1 => mkDFAState "S" true []
      | 2 => mkDFAState "kstmt" false [(TType NAME, mkDFAPlan 3 4 [])]
      | 3 => mkDFAState "names" false [(TType NAME, mkDFAPlan 4 5 [])]
      | 4 => mkDFAState "kstmt" true []
      | 5 => mkDFAState "names" true []
      | _ => unused_state
      end) [("k", soft_k)].
Definition two_readings_parser : BaseParser :=
  mkBaseParser two_readings_grammar "S" false.

(** [S: (A | B) NAME*], [A: 'k' ('k' | NAME) NAME*], [B: NAME NAME NAME*]:
    the token after a leading [k] is looked up in state 2, which knows both
    keys of a second [k]. *)
Definition nested_grammar : Grammar :=
  mkGrammar [("S", [0])]
    (fun i => match i with
      | 0 => mkDFAState "S" false
               [(TReserved soft_k, mkDFAPlan 1 1 [2]);
                (TType NAME, mkDFAPlan 2 1 [3])]
      | 1 => mkDFAState "S" true [(TType NAME, mkDFAPlan 3 1 [])]
      | 2 => mkDFAState "A" false
               [(TReserved soft_k, mkDFAPlan 4 4 []);
                (TType NAME, mkDFAPlan 5 4 [])]
      | 3 => mkDFAState "B" false [(TType NAME, mkDFAPlan 6 4 [])]
      | 4 => mkDFAState "A" true [(TType NAME, mkDFAPlan 7 4 [])]
      | _ => unused_state
      end) [("k", soft_k)].
Definition nested_parser : BaseParser := mkBaseParser nested_grammar "S" false.

(** [S: kstmt | assign], [kstmt: 'k' NAME], [assign: NAME '=' NAME]. *)
Definition keyword_grammar : Grammar :=
  mkGrammar [("S", [0])]
    (fun i => match i with
      | 0 => mkDFAState "S" false
               [(TType NAME, mkDFAPlan 0 1 [4]);
                (TReserved soft_k, mkDFAPlan 1 1 [2])]
      | 1 => mkDFAState "S" true []
      | 2 => mkDFAState "kstmt" false [(TType NAME, mkDFAPlan 2 3 [])]
      | 3 => mkDFAState "kstmt" true []
      | 4 => mkDFAState "assign" false [(TReserved hard_eq, mkDFAPlan 3 5 [])]
      | 5 => mkDFAState "assign" false [(TType NAME, mkDFAPlan 4 6 [])]
      | 6 => mkDFAState "assign" true []
      | _ => unused_state
      end) [("k", soft_k); ("=", hard_eq)].
Definition keyword_parser : BaseParser :=
  mkBaseParser keyword_grammar "S" false.

Definition four_tokens : list Token :=
  [name_token "t0" 0; name_token "t1" 3; name_token "t2" 6; name_token "t3" 9].

(** A proxy that has peeked two tokens ahead and consumed the first. *)
Definition pending_state : TokenGeneratorProxy :=
  snd (next (speculate 1 (new_proxy four_tokens))).

(** One token consumed, then a scope opened and one token peeked in it. *)
Definition outer_scope : TokenGeneratorProxy :=
  snd (eat 0 (release_enter (snd (next (new_proxy four_tokens))))).

(** A second scope opened inside the first. *)
Definition inner_scope : TokenGeneratorProxy := release_enter outer_scope.

(** One token peeked in the inner scope, then both scopes left. *)
Definition both_closed : TokenGeneratorProxy :=
  release_exit (release_exit (snd (eat 0 inner_scope))).

(** [single_name_grammar] with error recovery requested. *)
Definition recovering_parser : BaseParser :=
  mkBaseParser single_name_grammar "S" true.

(** A scope in which one token has been peeked. *)
Definition one_peeked : TokenGeneratorProxy :=
  snd (eat 0 (release_enter (new_proxy four_tokens))).

(* ===================================================================== *)
(** * Properties *)
(* ===================================================================== *)

(** ** The plan returned by the resolver is a plan of the table *)

Lemma dict_get_In {K V : Type} (eq_dec : forall a b : K, {a = b} + {a <> b})
    (k : K) (d : list (K * V)) (v : V) :
  dict_get eq_dec k d = Some v -> In (k, v) d.
Proof.
  induction d as [|[k' v'] d IH]; simpl; [discriminate|].
  destruct (eq_dec k k') as [->|_]; intros H.
  - injection H as ->. now left.
  - right. now apply IH.
Qed.

Lemma collect_plans_In (pts : list Transition) (table : TransitionTable) (p : DFAPlan) :
  In p (collect_plans pts table) -> exists tr, In tr pts /\ In (tr, p) table.
Proof.
  induction pts as [|tr pts IH]; simpl; [tauto|].
  destruct (dict_get Transition_eq_dec tr table) as [q|] eqn:E.
  - intros [->|H].
    + exists tr. split; [now left | now apply dict_get_In in E].
    + destruct (IH H) as (tr' & ? & ?). exists tr'. tauto.
  - intros H. destruct (IH H) as (tr' & ? & ?). exists tr'. tauto.
Qed.

Lemma dict_set_keys {V : Type} (k : DFAPlan) (v : V) (d : list (DFAPlan * V)) (o : DFAPlan) :
  In o (map fst (dict_set DFAPlan_eq_dec k v d)) -> o = k \/ In o (map fst d).
Proof.
  induction d as [|[k' v'] d IH]; simpl.
  - intros [<-|[]]. now left.
  - destruct (DFAPlan_eq_dec k k'); simpl; intros [<-|H]; auto.
    destruct (IH H); auto.
Qed.

Lemma new_plan_table_keys (plans : list DFAPlan) (o : DFAPlan) :
  In o (map fst (new_plan_table plans)) -> In o plans.
Proof.
  unfold new_plan_table.
  assert (G : forall acc, In o (map fst (fold_left (fun d p => dict_set DFAPlan_eq_dec p [p] d) plans acc)) ->
                          In o plans \/ In o (map fst acc)).
  { induction plans as [|p plans IH]; simpl; intros acc H; [now right|].
    destruct (IH _ H) as [H1|H1]; [now left; right|].
    apply dict_set_keys in H1. destruct H1 as [->|H1]; auto. }
  intros H. destruct (G [] H) as [H1|[]]. exact H1.
Qed.

Section LoopKeys.
Variable grammar : Grammar.
Variable rec : list Transition -> TransitionTable -> TokenGeneratorProxy ->
               outcome (option DFAPlan) * TokenGeneratorProxy.

Lemma advance_plans_keys nt items : forall dead px done dead' px',
  advance_plans grammar rec nt items dead px = (Ret (done, dead'), px') ->
  map fst done = map fst items.
Proof.
  induction items as [|[origin branch] items IH]; simpl; intros dead px done dead' px' H.
  - now inversion H.
  - destruct (last_opt branch); [|discriminate].
    destruct (in_dec DFAPlan_eq_dec origin dead).
    + destruct (advance_plans grammar rec nt items dead px) as [[[d1 dd1]| |] p1] eqn:E;
        inversion H; subst; simpl; f_equal; eauto.
    + destruct (try_pushes grammar rec nt (rev (dfa_pushes d)) px) as [[[q|]| |] p0]; try discriminate.
      * destruct (advance_plans grammar rec nt items dead p0) as [[[d1 dd1]| |] p1] eqn:E;
          inversion H; subst; simpl; f_equal; eauto.
      * destruct (advance_plans grammar rec nt items (set_add origin dead) p0) as [[[d1 dd1]| |] p1] eqn:E;
          inversion H; subst; simpl; f_equal; eauto.
Qed.

Lemma lookahead_loop_keys fuel : forall counter table dead px table' px',
  lookahead_loop grammar rec fuel counter table dead px = (Ret table', px') ->
  map fst table' = map fst table.
Proof.
  induction fuel as [|fuel IH]; intros counter table dead px table' px' H; simpl in H.
  - destruct (superior_plan table false) as [[o|]| |]; inversion H; reflexivity.
  - destruct (superior_plan table false) as [[o|]| |]; try (inversion H; reflexivity).
    destruct (can_advance counter px) as [[[|]| |] px1]; try discriminate.
    + destruct (eat counter px1) as [[token| |] px2]; try discriminate.
      destruct (advance_plans grammar rec _ table dead px2) as [[[t1 d1]| |] px3] eqn:E; try discriminate.
      apply IH in H. rewrite H. eapply advance_plans_keys; eauto.
    + inversion H; reflexivity.
Qed.
End LoopKeys.

Lemma py_max_by_length_In items : forall best,
  In (py_max_by_length best items) (best :: items).
Proof.
  induction items as [|kv items IH]; intros best; simpl; [now left|].
  destruct (snd best <? snd kv).
  - right. apply IH.
  - destruct (IH best) as [H|H]; [now left | now right; right].
Qed.

Lemma superior_plan_In table winner o :
  superior_plan table winner = Ret (Some o) -> In o (map fst table).
Proof.
  unfold superior_plan.
  destruct table as [|[o1 b1] table]; simpl; [discriminate|].
  pose proof (py_max_by_length_In (map (fun ob => (fst ob, length (snd ob))) table) (o1, length b1)) as Hin.
  destruct (py_max_by_length _ _) as [so sl].
  destruct (_ || _); [|discriminate].
  intros H; injection H as <-.
  destruct Hin as [Hin|Hin].
  - injection Hin as -> _. now left.
  - right. apply in_map_iff in Hin. destruct Hin as ([o2 b2] & Heq & Hin).
    injection Heq as -> _. apply in_map_iff. exists (so, b2). auto.
Qed.

(** The plan that the resolver returns is the plan of one of the candidate
    keys in the table. *)
Lemma get_possible_plan_in_table fuel grammar pts table px p px' :
  get_possible_plan fuel grammar pts table px = (Ret (Some p), px') ->
  exists tr, In tr pts /\ In (tr, p) table.
Proof.
  destruct fuel as [|fuel]; simpl;
  destruct (collect_plans pts table) as [|p1 [|p2 plans]] eqn:E; try discriminate;
    try (intros H; injection H as -> _; apply collect_plans_In; rewrite E; now left).
  destruct (lookahead_loop _ _ _ _ _ _ _) as [[t| |] px1] eqn:EL; try discriminate.
  intros H. injection H as H _.
  apply superior_plan_In in H.
  apply lookahead_loop_keys in EL. rewrite EL in H.
  apply new_plan_table_keys in H.
  apply collect_plans_In. now rewrite E.
Qed.

(** ** The engine at a token without transition; the root of the result *)

(** Lookups that find no plan, or one plan, do not use the proxy. *)
Lemma get_possible_plan_no_match fuel grammar pts table px :
  collect_plans pts table = [] ->
  get_possible_plan fuel grammar pts table px = (Ret None, px).
Proof. intros H. destruct fuel; simpl; now rewrite H. Qed.

Lemma get_possible_plan_one_match fuel grammar pts table px p :
  collect_plans pts table = [p] ->
  get_possible_plan fuel grammar pts table px = (Ret (Some p), px).
Proof. intros H. destruct fuel; simpl; now rewrite H. Qed.

(** No plan for the token in a top frame that is not final: the default
    [error_recovery] raises. *)
Lemma add_token_no_transition_nonfinal :
  forall (self : BaseParser) (fuel : nat) (token : Token)
         (tos : StackNode) (below : list StackNode) (px : TokenGeneratorProxy),
    _error_recovery self = false ->
    collect_plans
      (_token_to_transition (_pgen_grammar self) (tok_type token) (tok_string token))
      (transitions (dfa_states (_pgen_grammar self) (dfa tos))) = [] ->
    is_final (dfa_states (_pgen_grammar self) (dfa tos)) = false ->
    _add_token self fuel token (mkState (tos :: below) px) =
      (Raise (ParserSyntaxError "SyntaxError: invalid syntax"
                (ErrorLeaf (tok_type token) (tok_string token)
                           (tok_start_pos token) (tok_prefix token))),
       mkState (tos :: below) px).
Proof.
  intros self fuel [type_ value_ start_pos prefix] tos below px Her Hnone Hnf.
  simpl in Hnone.
  unfold _add_token. cbn [stack length find_plan tokens_proxy].
  rewrite (get_possible_plan_no_match fuel _ _ _ px Hnone).
  rewrite Hnf. unfold error_recovery. rewrite Her. reflexivity.
Qed.

Section RootRule.
Variable self : BaseParser.
Local Abbreviation grammar := (_pgen_grammar self).


Lemma last_opt_cons {A} (x y : A) (l : list A) :
  last_opt (x :: y :: l) = last_opt (y :: l).
Proof.
  unfold last_opt. simpl. destruct (rev l); reflexivity.
Qed.

Lemma root_rule_cons x y l : root_rule grammar (x :: y :: l) = root_rule grammar (y :: l).
Proof. unfold root_rule. now rewrite last_opt_cons. Qed.

Lemma root_rule_same_dfa x y l :
  dfa x = dfa y -> root_rule grammar (x :: l) = root_rule grammar (y :: l).
Proof.
  intros H. destruct l as [|z l].
  - unfold root_rule, last_opt; simpl. now rewrite H.
  - now rewrite !root_rule_cons.
Qed.

Lemma pop_root_rule stack_ stack' :
  _pop self stack_ = (Ret tt, stack') -> root_rule grammar stack' = root_rule grammar stack_.
Proof.
  unfold _pop. destruct stack_ as [|tos [|parent rest]]; try discriminate.
  intros H. injection H as <-. rewrite root_rule_cons.
  now apply root_rule_same_dfa.
Qed.

Lemma find_plan_root_rule n fuel token : forall st r st',
  find_plan self n fuel token st = (Ret r, st') ->
  root_rule grammar (stack st') = root_rule grammar (stack st).
Proof.
  induction n as [|n IH]; intros st r st' H; destruct token as [type_ value_ start_pos prefix];
    cbn [find_plan] in H; [discriminate|].
  destruct (stack st) as [|tos below] eqn:Es; [discriminate|].
  destruct (get_possible_plan _ _ _ _ _) as [[[plan|]|e|] px'].
  - inversion H; subst; reflexivity.
  - destruct (is_final _).
    + destruct (_pop self (tos :: below)) as [[[]| |] stack'] eqn:Ep; try discriminate.
      apply IH in H. simpl in H. rewrite H. now apply pop_root_rule.
    + destruct (error_recovery self _) as [[]| |]; inversion H; subst; reflexivity.
  - destruct e; try discriminate.
    destruct (is_final _).
    + destruct (_pop self (tos :: below)) as [[[]| |] stack'] eqn:Ep; try discriminate.
      apply IH in H. simpl in H. rewrite H. now apply pop_root_rule.
    + destruct (error_recovery self _) as [[]| |]; inversion H; subst; reflexivity.
  - discriminate.
Qed.

Lemma find_plan_in_table n fuel token : forall st plan st',
  find_plan self n fuel token st = (Ret (Some plan), st') ->
  exists tos below tr,
    stack st' = tos :: below /\
    In (tr, plan) (transitions (dfa_states grammar (dfa tos))).
Proof.
  induction n as [|n IH]; intros st plan st' H; destruct token as [type_ value_ start_pos prefix];
    cbn [find_plan] in H; [discriminate|].
  destruct (stack st) as [|tos below] eqn:Es; [discriminate|].
  destruct (get_possible_plan _ _ _ _ _) as [[[plan'|]|e|] px'] eqn:Eg.
  - inversion H; subst; simpl. apply get_possible_plan_in_table in Eg.
    destruct Eg as (tr & _ & Hin). eauto.
  - destruct (is_final _).
    + destruct (_pop self (tos :: below)) as [[[]| |] stack'] eqn:Ep; try discriminate.
      now apply IH in H.
    + destruct (error_recovery self _) as [[]| |]; inversion H.
  - destruct e; try discriminate.
    destruct (is_final _).
    + destruct (_pop self (tos :: below)) as [[[]| |] stack'] eqn:Ep; try discriminate.
      now apply IH in H.
    + destruct (error_recovery self _) as [[]| |]; inversion H.
  - discriminate.
Qed.

Hypothesis cursor_stays_in_rule :
  forall d tr plan,
    In (tr, plan) (transitions (dfa_states grammar d)) ->
    from_rule (dfa_states grammar (next_dfa plan)) =
    from_rule (dfa_states grammar d).

Lemma push_all_root_rule pushes : forall x l,
  root_rule grammar (push_all pushes (x :: l)) = root_rule grammar (x :: l).
Proof.
  unfold push_all.
  induction pushes as [|p pushes IH]; intros x l; simpl; [reflexivity|].
  rewrite IH. apply root_rule_cons.
Qed.

Lemma add_token_root_rule fuel token st st' :
  _add_token self fuel token st = (Ret tt, st') ->
  root_rule grammar (stack st') = root_rule grammar (stack st).
Proof.
  unfold _add_token.
  destruct (find_plan self _ fuel token st) as [[[plan|]| |] st1] eqn:Ef; try discriminate.
  - pose proof (find_plan_root_rule _ _ _ _ _ _ Ef) as Hr.
    destruct (find_plan_in_table _ _ _ _ _ _ Ef) as (tos & below & tr & Es & Hin).
    rewrite Es. rewrite Es in Hr.
    destruct (push_all _ _) as [|top below2] eqn:Epush; [discriminate|].
    intros H. injection H as <-. simpl.
    rewrite <- Hr.
    rewrite (root_rule_same_dfa (mkStackNode (dfa top) (nodes top ++ _)) top) by reflexivity.
    rewrite <- Epush, push_all_root_rule.
    destruct below as [|b below].
    + unfold root_rule, last_opt. simpl. f_equal. now apply cursor_stays_in_rule with tr.
    + now rewrite !root_rule_cons.
  - intros H. injection H as <-. eapply find_plan_root_rule; eauto.
Qed.

Lemma feed_tokens_root_rule fuel : forall last_token st r st',
  feed_tokens self fuel last_token st = (Ret r, st') ->
  root_rule grammar (stack st') = root_rule grammar (stack st).
Proof.
  induction fuel as [|fuel IH]; intros last_token st r st' H; simpl in H; [discriminate|].
  destruct (next (tokens_proxy st)) as [[token|e|] px'].
  - destruct (_add_token self (S fuel) token _) as [[[]| |] st1] eqn:Ea; try discriminate.
    apply IH in H. rewrite H. apply add_token_root_rule in Ea. exact Ea.
  - destruct e; inversion H; reflexivity.
  - discriminate.
Qed.

Lemma reduce_all_root n : forall token stack_ result stack',
  reduce_all self n token stack_ = (Ret result, stack') ->
  exists r children, root_rule grammar stack_ = Some r /\ result = Node r children.
Proof.
  induction n as [|n IH]; intros token stack_ result stack' H; simpl in H; [discriminate|].
  destruct stack_ as [|tos below]; [discriminate|].
  destruct (negb _).
  - destruct token; discriminate.
  - destruct (1 <? length (tos :: below)) eqn:El.
    + destruct (_pop self (tos :: below)) as [[[]| |] s1] eqn:Ep; try discriminate.
      apply IH in H. destruct H as (r & ch & Hr & ->).
      exists r, ch. split; [|reflexivity]. rewrite <- Hr. symmetry. now apply pop_root_rule.
    + injection H as <- _. destruct below; [|simpl in El; discriminate].
      exists (nonterminal self tos), (nodes tos). split; reflexivity.
Qed.

(** The tree that [parse] returns is a node named after the start rule. *)
Theorem parse_success_is_root_node fuel tokens result :
  parse self fuel tokens = Ret result ->
  exists first_dfa others children,
    dict_get string_dec (_start_nonterminal self) (nonterminal_to_dfas grammar)
      = Some (first_dfa :: others) /\
    result = Node (from_rule (dfa_states grammar first_dfa)) children.
Proof.
  unfold parse.
  destruct (dict_get _ _ _) as [[|first_dfa others]|]; try discriminate.
  destruct (feed_tokens _ _ _ _) as [[token| |] st'] eqn:Ef; try discriminate.
  apply feed_tokens_root_rule in Ef. simpl in Ef.
  destruct (reduce_all _ _ _ _) as [res s1] eqn:Er. simpl. intros ->.
  apply reduce_all_root in Er. destruct Er as (r & ch & Hr & ->).
  rewrite Ef in Hr. unfold root_rule, last_opt in Hr. simpl in Hr. injection Hr as <-.
  eauto.
Qed.
End RootRule.

(** ** Frame properties of the proxy operations *)

Lemma last_opt_app {A} (l : list A) (x : A) : last_opt (l ++ [x]) = Some x.
Proof. unfold last_opt. now rewrite rev_unit. Qed.

Lemma update_last_app {A} (f : A -> A) (l : list A) (x : A) :
  update_last f (l ++ [x]) = l ++ [f x].
Proof. unfold update_last. now rewrite rev_unit, rev_involutive. Qed.

Lemma last_opt_nil {A} : @last_opt A [] = None.
Proof. reflexivity. Qed.

Lemma update_last_nil {A} (f : A -> A) : update_last f [] = [].
Proof. reflexivity. Qed.


Lemma extends_update_last base rs f :
  extends base rs -> extends base (update_last f rs).
Proof.
  intros (ch & Hne & ->).
  destruct (exists_last Hne) as (ch' & x & ->).
  exists (ch' ++ [f x]). split.
  - destruct ch'; discriminate.
  - now rewrite app_assoc, update_last_app, <- app_assoc.
Qed.

Lemma extends_app base rs extra : extends base rs -> extends base (rs ++ extra).
Proof.
  intros (ch & Hne & ->). exists (ch ++ extra). split.
  - destruct ch; [congruence | discriminate].
  - now rewrite app_assoc.
Qed.


Lemma touches_last_refl px : touches_last px px.
Proof. split; auto. Qed.

Lemma touches_last_trans p1 p2 p3 :
  touches_last p1 p2 -> touches_last p2 p3 -> touches_last p1 p3.
Proof. intros [A1 B1] [A2 B2]. split; [congruence | auto]. Qed.

Lemma appends_refl px : appends px px.
Proof. split; [reflexivity | exists []; now rewrite app_nil_r]. Qed.

Lemma appends_trans p1 p2 p3 : appends p1 p2 -> appends p2 p3 -> appends p1 p3.
Proof.
  intros [A1 (e1 & B1)] [A2 (e2 & B2)]. split; [congruence|].
  exists (e1 ++ e2). now rewrite B2, B1, app_assoc.
Qed.

Lemma appends_touches_last p1 p2 : appends p1 p2 -> touches_last p1 p2.
Proof.
  intros [A (e & B)]. split; [exact A|]. intros base H. rewrite B.
  now apply extends_app.
Qed.

Lemma eat_touches_last point px r px' :
  eat point px = (r, px') -> touches_last px px'.
Proof.
  unfold eat. destruct (last_opt (_release_ranges px)) as [rg|].
  - destruct (point <? length (rr_tokens rg)).
    + destruct (nth_error _ _); intros H; inversion H; subst; apply touches_last_refl.
    + destruct (eat_pull _ _ _) as [[res eaten'] src']. intros H; inversion H; subst.
      split; [reflexivity|]. simpl. intros base Hb. now apply extends_update_last.
  - intros H; inversion H; subst; apply touches_last_refl.
Qed.

Lemma can_advance_touches_last to px r px' :
  can_advance to px = (r, px') -> touches_last px px'.
Proof.
  unfold can_advance. destruct (eat to px) as [[t|e|] p1] eqn:E; intros H.
  - inversion H; subst. eapply eat_touches_last; eauto.
  - destruct e; inversion H; subst; eapply eat_touches_last; eauto.
  - inversion H; subst. eapply eat_touches_last; eauto.
Qed.

Lemma release_exit_touches_last px : touches_last px (release_exit px).
Proof.
  split; [reflexivity|]. simpl. intros base H. now apply extends_update_last.
Qed.

Lemma release_enter_extends px :
  extends (_release_ranges px) (_release_ranges (release_enter px)).
Proof. simpl. eexists. split; [|reflexivity]. discriminate. Qed.

Section LoopFrame.
Variable grammar : Grammar.
Variable rec : list Transition -> TransitionTable -> TokenGeneratorProxy ->
               outcome (option DFAPlan) * TokenGeneratorProxy.
Hypothesis rec_appends :
  forall nt tb px r px', rec nt tb px = (r, px') -> appends px px'.

Lemma try_pushes_appends nt ds : forall px r px',
  try_pushes grammar rec nt ds px = (r, px') -> appends px px'.
Proof.
  induction ds as [|d ds IH]; simpl; intros px r px' H.
  - inversion H; subst; apply appends_refl.
  - destruct (rec nt _ px) as [[[p|]|e|] p1] eqn:E; apply rec_appends in E.
    + now inversion H; subst.
    + eapply appends_trans; eauto.
    + now inversion H; subst.
    + now inversion H; subst.
Qed.

Lemma advance_plans_appends nt items : forall dead px r px',
  advance_plans grammar rec nt items dead px = (r, px') -> appends px px'.
Proof.
  induction items as [|[origin branch] items IH]; simpl; intros dead px r px' H.
  - inversion H; subst; apply appends_refl.
  - destruct (last_opt branch) as [current_plan|]; [|inversion H; subst; apply appends_refl].
    destruct (in_dec DFAPlan_eq_dec origin dead).
    + destruct (advance_plans grammar rec nt items dead px) as [[[d1 dd1]| |] p1] eqn:E;
        apply IH in E; now inversion H; subst.
    + destruct (try_pushes grammar rec nt _ px) as [[[q|]| |] p0] eqn:Et;
        apply try_pushes_appends in Et.
      * destruct (advance_plans grammar rec nt items dead p0) as [[[d1 dd1]| |] p1] eqn:E;
          apply IH in E; inversion H; subst; eapply appends_trans; eauto.
      * destruct (advance_plans grammar rec nt items _ p0) as [[[d1 dd1]| |] p1] eqn:E;
          apply IH in E; inversion H; subst; eapply appends_trans; eauto.
      * now inversion H; subst.
      * now inversion H; subst.
Qed.

Lemma lookahead_loop_touches_last fuel : forall counter table dead px r px',
  lookahead_loop grammar rec fuel counter table dead px = (r, px') ->
  touches_last px px'.
Proof.
  induction fuel as [|fuel IH]; intros counter table dead px r px' H; simpl in H.
  - destruct (superior_plan table false) as [[o|]| |]; inversion H; subst; apply touches_last_refl.
  - destruct (superior_plan table false) as [[o|]| |];
      try (inversion H; subst; apply touches_last_refl).
    destruct (can_advance counter px) as [[[|]| |] px1] eqn:Ec;
      apply can_advance_touches_last in Ec; try (now inversion H; subst).
    destruct (eat counter px1) as [[token| |] px2] eqn:Ee;
      apply eat_touches_last in Ee;
      try (inversion H; subst; eapply touches_last_trans; eauto).
    destruct (advance_plans grammar rec _ table dead px2) as [[[t1 d1]| |] px3] eqn:Ea;
      apply advance_plans_appends, appends_touches_last in Ea.
    + apply IH in H. eauto using touches_last_trans.
    + inversion H; subst. eauto using touches_last_trans.
    + inversion H; subst. eauto using touches_last_trans.
Qed.
End LoopFrame.

(** A resolver call, the scopes opened inside it included, leaves the
    counter and the ranges that exist as they are: it only appends ranges. *)
Lemma get_possible_plan_appends grammar fuel : forall pts table px r px',
  get_possible_plan fuel grammar pts table px = (r, px') -> appends px px'.
Proof.
  induction fuel as [|fuel IH]; intros pts table px r px' H; simpl in H;
    destruct (collect_plans pts table) as [|p1 [|p2 plans]];
    try (inversion H; subst; apply appends_refl).
  destruct (lookahead_loop _ _ _ _ _ _ _) as [res px1] eqn:El.
  apply lookahead_loop_touches_last in El; [|exact IH].
  assert (Hx : touches_last (release_enter px) px').
  { destruct res; inversion H; subst;
      eapply touches_last_trans; eauto using release_exit_touches_last. }
  destruct Hx as [Hc Hx].
  destruct (Hx _ (release_enter_extends px)) as (ch & _ & Hch).
  split; [exact Hc | eauto].
Qed.

(** ** Lookups with and without speculation *)


(** A resolver call either answers a lookup of at most one plan and leaves
    the proxy alone, or finds two plans, opens a scope and leaves at least
    one more range behind. *)
Lemma get_possible_plan_dichotomy grammar fuel pts table px r px' :
  get_possible_plan fuel grammar pts table px = (Ret r, px') ->
  (px' = px /\ sole_plan pts table r) \/
  (2 <= length (collect_plans pts table) /\
   extends (_release_ranges px) (_release_ranges px')).
Proof.
  intros H. destruct fuel as [|fuel]; simpl in H;
    destruct (collect_plans pts table) as [|p1 [|p2 plans]] eqn:E;
    try discriminate;
    try (injection H as <- <-; left; split; [reflexivity|]; unfold sole_plan; rewrite E; eauto; fail).
  right. split; [simpl; lia|].
  destruct (lookahead_loop _ _ _ _ _ _ _) as [res px1] eqn:El.
  apply lookahead_loop_touches_last in El;
    [|intros; eapply get_possible_plan_appends; eauto].
  assert (Hx : touches_last (release_enter px) px').
  { destruct res; inversion H; subst;
      eapply touches_last_trans; eauto using release_exit_touches_last. }
  apply Hx, release_enter_extends.
Qed.

Section GoodMode.
Variable grammar : Grammar.


Lemma chain_snoc p tokens p1 token p2 :
  chain grammar p tokens p1 -> step grammar p1 token p2 -> chain grammar p (tokens ++ [token]) p2.
Proof.
  induction 1 as [q|q t q1 ts q' Hs Hc IH]; intros Hst; simpl.
  - econstructor; [eassumption | constructor].
  - econstructor; [eassumption | auto].
Qed.

Variable rec : list Transition -> TransitionTable -> TokenGeneratorProxy ->
               outcome (option DFAPlan) * TokenGeneratorProxy.
Hypothesis rec_appends :
  forall nt tb px r px', rec nt tb px = (r, px') -> appends px px'.
Hypothesis rec_dichotomy :
  forall nt tb px r px', rec nt tb px = (Ret r, px') ->
    (px' = px /\ sole_plan nt tb r) \/
    extends (_release_ranges px) (_release_ranges px').

Lemma appends_extends px px' base :
  appends px px' -> extends base (_release_ranges px) ->
  extends base (_release_ranges px').
Proof. intros Ha. destruct (appends_touches_last _ _ Ha) as [_ H]. apply H. Qed.

Lemma try_pushes_good nt ds : forall px r px',
  try_pushes grammar rec nt ds px = (Ret r, px') ->
  (px' = px /\ found_in grammar nt ds r) \/
  extends (_release_ranges px) (_release_ranges px').
Proof.
  induction ds as [|d ds IH]; simpl; intros px r px' H.
  - injection H as <- <-. left. split; [reflexivity | constructor].
  - destruct (rec nt _ px) as [[[p|]|e|] p1] eqn:E; try discriminate.
    + injection H as <- <-.
      destruct (rec_dichotomy _ _ _ _ _ E) as [[-> Hs]|Hx]; [left|now right].
      split; [reflexivity|]. destruct Hs as [[_ Hs]|(q & Hq & Hs)]; [discriminate|].
      injection Hs as <-. exists [], d, ds. repeat split; auto.
    + destruct (rec_dichotomy _ _ _ _ _ E) as [[-> Hs]|Hx].
      * destruct (IH _ _ _ H) as [[-> Hf]|Hx]; [left|now right].
        split; [reflexivity|].
        destruct Hs as [[Hs _]|(q & _ & Hs)]; [|discriminate].
        destruct r as [p|]; simpl in *.
        -- destruct Hf as (pre & d0 & post & -> & Hpre & Hd).
           exists (d :: pre), d0, post. repeat split; auto.
        -- constructor; auto.
      * right. eapply appends_extends; [|exact Hx].
        eapply try_pushes_appends; eauto.
Qed.


Lemma set_add_In o dead x : In x (set_add o dead) <-> x = o \/ In x dead.
Proof.
  unfold set_add. destruct (in_dec DFAPlan_eq_dec o dead) as [Hi|Hn]; simpl.
  - split; [auto | intros [->|]; auto].
  - split; intros [H|H]; auto.
Qed.

Lemma advance_plans_good nt items : forall dead px done dead' px',
  NoDup (map fst items) ->
  advance_plans grammar rec nt items dead px = (Ret (done, dead'), px') ->
  (px' = px /\ incl dead dead' /\
   (forall o, In o dead' -> In o dead \/ In o (map fst items)) /\
   Forall2 (entry_step grammar nt dead') items done) \/
  extends (_release_ranges px) (_release_ranges px').
Proof.
  induction items as [|[origin branch] items IH]; simpl;
    intros dead px done dead' px' Hnd H.
  - injection H as <- <- <-. left. repeat split; auto using incl_refl.
  - inversion Hnd as [|? ? Hnotin Hnd']; subst.
    destruct (last_opt branch) as [pc|] eqn:Elast; [|discriminate].
    destruct (in_dec DFAPlan_eq_dec origin dead) as [Hdead|Halive].
    + destruct (advance_plans grammar rec nt items dead px) as [[[d1 dd1]| |] p1] eqn:E;
        try discriminate.
      injection H as <- <- <-.
      destruct (IH _ _ _ _ _ Hnd' E) as [(-> & Hinc & Hsub & HF)|Hx]; [left|now right].
      repeat split; auto.
      * intros o Ho. destruct (Hsub o Ho); auto.
      * constructor; [|exact HF]. split; [reflexivity|]. left. split; auto.
    + destruct (try_pushes grammar rec nt _ px) as [[[q|]| |] p0] eqn:Et; try discriminate.
      * destruct (advance_plans grammar rec nt items dead p0) as [[[d1 dd1]| |] p1] eqn:E;
          try discriminate.
        injection H as <- <- <-.
        destruct (try_pushes_good _ _ _ _ _ Et) as [[-> Hf]|Hx].
        -- destruct (IH _ _ _ _ _ Hnd' E) as [(-> & Hinc & Hsub & HF)|Hx]; [left|now right].
           repeat split; auto.
           ++ intros o Ho. destruct (Hsub o Ho); auto.
           ++ constructor; [|exact HF]. split; [reflexivity|]. right. split.
              ** intros Hin. destruct (Hsub _ Hin); auto.
              ** exists pc, q. auto.
        -- right. eapply appends_extends; [|exact Hx].
           eapply advance_plans_appends; eauto.
      * destruct (advance_plans grammar rec nt items _ p0) as [[[d1 dd1]| |] p1] eqn:E;
          try discriminate.
        injection H as <- <- <-.
        destruct (try_pushes_good _ _ _ _ _ Et) as [[-> Hf]|Hx].
        -- destruct (IH _ _ _ _ _ Hnd' E) as [(-> & Hinc & Hsub & HF)|Hx]; [left|now right].
           repeat split; auto.
           ++ intros o Ho. apply Hinc, set_add_In. auto.
           ++ intros o Ho. destruct (Hsub o Ho) as [Hs|Hs]; auto.
              apply set_add_In in Hs. destruct Hs as [->|]; auto.
           ++ constructor; [|exact HF]. split; [reflexivity|]. left. split; auto.
              apply Hinc, set_add_In. auto.
        -- right. eapply appends_extends; [|exact Hx].
           eapply advance_plans_appends; eauto.
Qed.
End GoodMode.

(** ** [superior_plan] picks the first entry of maximal length *)

Lemma py_max_by_length_ge items : forall best,
  snd best <= snd (py_max_by_length best items) /\
  forall kv, In kv items -> snd kv <= snd (py_max_by_length best items).
Proof.
  induction items as [|kv items IH]; intros best; simpl.
  - split; [lia | tauto].
  - destruct (snd best <? snd kv) eqn:E.
    + apply Nat.ltb_lt in E. destruct (IH kv) as [H1 H2].
      split; [lia|]. intros kv' [<-|Hin]; auto.
    + apply Nat.ltb_ge in E. destruct (IH best) as [H1 H2].
      split; [lia|]. intros kv' [<-|Hin]; auto. lia.
Qed.

Lemma superior_plan_max table winner w :
  superior_plan table winner = Ret (Some w) ->
  exists b, In (w, b) table /\
            forall o' b', In (o', b') table -> length b' <= length b.
Proof.
  unfold superior_plan.
  destruct table as [|[o1 b1] table]; simpl; [discriminate|].
  set (items := map (fun ob => (fst ob, length (snd ob))) table).
  pose proof (py_max_by_length_In items (o1, length b1)) as Hin.
  pose proof (py_max_by_length_ge items (o1, length b1)) as [Hge1 Hge2].
  destruct (py_max_by_length (o1, length b1) items) as [so sl].
  destruct (_ || _); [|discriminate].
  intros H; injection H as <-. simpl in *.
  assert (Hall : forall o' b', (o1, b1) = (o', b') \/ In (o', b') table -> length b' <= sl).
  { intros o' b' [Heq|Hi].
    - injection Heq as <- <-. exact Hge1.
    - apply (Hge2 (o', length b')). unfold items. apply in_map_iff.
      exists (o', b'). auto. }
  destruct Hin as [Hin|Hin].
  - injection Hin as -> <-. exists b1. split; auto.
  - unfold items in Hin. apply in_map_iff in Hin.
    destruct Hin as ([o2 b2] & Heq & Hin). simpl in Heq. injection Heq as -> <-.
    exists b2. split; auto.
Qed.

Lemma superior_plan_winner table w :
  superior_plan table false = Ret (Some w) ->
  superior_plan table true = Ret (Some w).
Proof.
  unfold superior_plan. destruct (map _ table) as [|first rest]; [discriminate|].
  destruct (py_max_by_length first rest) as [so sl].
  rewrite orb_false_r, orb_true_r.
  destruct (_ =? 1); [auto | discriminate].
Qed.

(** ** The lookahead loop when no nested scope is opened *)

Lemma eat_at_end raw c base s e toks :
  eat (length toks) (mkProxy raw c (base ++ [mkRange s e toks])) =
  match raw with
  | [] => (Raise StopIteration, mkProxy [] c (base ++ [mkRange s e toks]))
  | t :: raw' => (Ret t, mkProxy raw' c (base ++ [mkRange s e (toks ++ [t])]))
  end.
Proof.
  unfold eat. cbn [_release_ranges _tokens _counter].
  rewrite last_opt_app. cbn [rr_tokens rr_start rr_end].
  rewrite Nat.ltb_irrefl.
  destruct raw as [|t raw']; cbn [eat_pull].
  - now rewrite update_last_app.
  - rewrite length_app, Nat.add_1_r.
    replace (S (length toks) <=? length toks) with false
      by (symmetry; apply Nat.leb_gt; lia).
    now rewrite update_last_app.
Qed.

Lemma eat_cached raw c base s e toks t :
  eat (length toks) (mkProxy raw c (base ++ [mkRange s e (toks ++ [t])])) =
  (Ret t, mkProxy raw c (base ++ [mkRange s e (toks ++ [t])])).
Proof.
  unfold eat. cbn [_release_ranges _tokens _counter].
  rewrite last_opt_app. cbn [rr_tokens].
  replace (length toks <? length (toks ++ [t])) with true
    by (symmetry; apply Nat.ltb_lt; rewrite length_app; simpl; lia).
  now rewrite nth_error_app2, Nat.sub_diag by lia.
Qed.

Section GoodLoop.
Variable grammar : Grammar.
Variable rec : list Transition -> TransitionTable -> TokenGeneratorProxy ->
               outcome (option DFAPlan) * TokenGeneratorProxy.
Hypothesis rec_appends :
  forall nt tb px r px', rec nt tb px = (r, px') -> appends px px'.
Hypothesis rec_dichotomy :
  forall nt tb px r px', rec nt tb px = (Ret r, px') ->
    (px' = px /\ sole_plan nt tb r) \/
    extends (_release_ranges px) (_release_ranges px').


Lemma Forall2_fst_eq nt dead' l l' :
  Forall2 (entry_step grammar nt dead') l l' -> map fst l' = map fst l.
Proof. induction 1 as [|x y l l' [H _] _ IH]; simpl; congruence. Qed.

Lemma Forall2_In_r {A B} (R : A -> B -> Prop) l l' y :
  Forall2 R l l' -> In y l' -> exists x, In x l /\ R x y.
Proof.
  induction 1 as [|x y' l l' HR _ IH]; simpl; [tauto|].
  intros [<-|Hin]; [eauto|]. destruct (IH Hin) as (x' & ? & ?); eauto.
Qed.

Lemma entry_step_alive_or_same nt dead' l l' :
  Forall2 (entry_step grammar nt dead') l l' ->
  (exists ob', In ob' l' /\ ~ In (fst ob') dead') \/ l' = l.
Proof.
  induction 1 as [|[o b] [o' b'] l l' [Hk Hs] _ IH]; [now right|].
  simpl in Hk, Hs. subst o'.
  destruct Hs as [ [_ Hs] | [Hn _] ]; [rewrite Hs|].
  - destruct IH as [(ob' & Hin & Hn)| ->]; [left|now right].
    exists ob'. split; [now right | exact Hn].
  - left. exists (o, b'). split; [now left | exact Hn].
Qed.

Lemma table_inv_advance toks t table dead table' dead' :
  table_inv grammar toks table dead ->
  superior_plan table false = Ret None ->
  incl dead dead' ->
  Forall2 (entry_step grammar (keys_of grammar t) dead') table table' ->
  table_inv grammar (toks ++ [t]) table' dead'.
Proof.
  intros (Hnd & Halive & Hdead & _) Hsup Hinc HF.
  unfold table_inv. rewrite length_app, Nat.add_1_r.
  split; [|split; [|split]].
  - now rewrite (Forall2_fst_eq _ _ _ _ HF).
  - intros o b' Hin Hn.
    destruct (Forall2_In_r _ _ _ _ HF Hin) as ([o0 b] & Hin0 & Hk & Hs).
    simpl in Hk, Hs. subst o0.
    destruct Hs as [[Hd _]|(_ & pc & p' & Hl & Hf & ->)]; [contradiction|].
    destruct (Halive o b Hin0) as (Hlen & p & Hlp & Hch); [auto|].
    rewrite Hl in Hlp. injection Hlp as <-.
    split; [rewrite length_app; simpl; lia|].
    exists p'. split; [apply last_opt_app|].
    eapply chain_snoc; eauto.
  - intros o b' Hin Hd.
    destruct (Forall2_In_r _ _ _ _ HF Hin) as ([o0 b] & Hin0 & Hk & Hs).
    simpl in Hk, Hs. subst o0.
    destruct Hs as [ [_ Hs] | [Hn _] ]; [rewrite Hs|contradiction].
    destruct (in_dec DFAPlan_eq_dec o dead) as [Hi|Hi].
    + specialize (Hdead o b Hin0 Hi). lia.
    + destruct (Halive o b Hin0 Hi) as [Hlen _]. lia.
  - destruct (entry_step_alive_or_same _ _ _ _ HF) as [([o b] & Hin & Hn)| ->].
    + left. exists o, b. auto.
    + now right.
Qed.

(** From a scope just opened, the loop either has a scope opened inside
    it, and then leaves its own range open, or has pulled the tokens
    [more] into its own range and stops at the end of the source or with
    one plan ahead of the others. *)
Lemma lookahead_loop_good fuel :
  forall toks table dead raw c base tableF pxF,
    table_inv grammar toks table dead ->
    lookahead_loop grammar rec fuel (length toks) table dead
      (mkProxy raw c (base ++ [mkRange c None toks])) = (Ret tableF, pxF) ->
    (exists tk, extends (base ++ [mkRange c None tk]) (_release_ranges pxF)) \/
    (exists more rawF deadF,
        pxF = mkProxy rawF c (base ++ [mkRange c None (toks ++ more)]) /\
        raw = more ++ rawF /\
        table_inv grammar (toks ++ more) tableF deadF /\
        (rawF = [] \/ exists w, superior_plan tableF false = Ret (Some w))).
Proof.
  induction fuel as [|fuel IH];
    intros toks table dead raw c base tableF pxF Hinv H; simpl in H.
  - destruct (superior_plan table false) as [[w|]| |] eqn:Es; try discriminate.
    injection H as <- <-. right. exists [], raw, dead.
    rewrite app_nil_r. split; [|split; [|split]]; eauto.
  - destruct (superior_plan table false) as [[w|]| |] eqn:Es; try discriminate.
    { injection H as <- <-. right. exists [], raw, dead.
      rewrite app_nil_r. split; [|split; [|split]]; eauto. }
    unfold can_advance in H. rewrite eat_at_end in H.
    destruct raw as [|t raw'].
    { injection H as <- <-. right. exists [], [], dead.
      rewrite app_nil_r. split; [|split; [|split]]; auto. }
    rewrite eat_cached in H.
    destruct (advance_plans grammar rec _ table dead _) as [[[t1 d1]| |] px3] eqn:Ea;
      try discriminate.
    destruct Hinv as (Hnd & Hrest).
    destruct (advance_plans_good grammar rec rec_appends rec_dichotomy _ _ _ _ _ _ _ Hnd Ea)
      as [(-> & Hinc & _ & HF)|Hx].
    + assert (Hinv' : table_inv grammar (toks ++ [t]) t1 d1).
      { eapply table_inv_advance; eauto. split; auto. }
      replace (length toks + 1) with (length (toks ++ [t])) in H
        by (rewrite length_app; reflexivity).
      destruct (IH _ _ _ _ _ _ _ _ Hinv' H)
        as [Hbad|(more & rawF & deadF & -> & -> & HinvF & Hend)]; [now left|].
      right. exists (t :: more), rawF, deadF.
      rewrite <- app_assoc in *. simpl in *. split; [|split; [|split]]; auto.
    + left. exists (toks ++ [t]).
      apply lookahead_loop_touches_last in H; [|exact rec_appends].
      destruct H as [_ H]. apply H. exact Hx.
Qed.
End GoodLoop.

(** ** The effect of one resolver call *)


Lemma appends_poisoned px px' : appends px px' -> poisoned px -> poisoned px'.
Proof.
  intros [_ (extra & He)] (r & Hin & Hr). exists r. split; [|exact Hr].
  rewrite He. apply in_or_app. now left.
Qed.

Lemma dict_set_NoDup {V : Type} (k : DFAPlan) (v : V) (d : list (DFAPlan * V)) :
  NoDup (map fst d) -> NoDup (map fst (dict_set DFAPlan_eq_dec k v d)).
Proof.
  induction d as [|[k' v'] d IH]; simpl; intros Hnd.
  - constructor; [tauto | constructor].
  - inversion Hnd as [|? ? Hnotin Hnd']; subst.
    destruct (DFAPlan_eq_dec k k') as [->|Hne]; simpl.
    + now constructor.
    + constructor; [|auto]. intros Hin. apply dict_set_keys in Hin.
      destruct Hin as [->|Hin]; auto.
Qed.

Lemma dict_set_entries (k : DFAPlan) (d : PlanTable) o b :
  In (o, b) (dict_set DFAPlan_eq_dec k [k] d) -> (o, b) = (k, [k]) \/ In (o, b) d.
Proof.
  induction d as [|[k' v'] d IH]; simpl.
  - intros [H|[]]. left. now symmetry.
  - destruct (DFAPlan_eq_dec k k') as [->|Hne]; simpl; intros [H|H]; auto.
    destruct (IH H); auto.
Qed.

Lemma dict_set_nonempty {V : Type} (k : DFAPlan) (v : V) (d : list (DFAPlan * V)) :
  dict_set DFAPlan_eq_dec k v d <> [].
Proof. destruct d as [|[k' v'] d]; simpl; [|destruct (DFAPlan_eq_dec k k')]; discriminate. Qed.

Lemma new_plan_table_spec plans :
  NoDup (map fst (new_plan_table plans)) /\
  (forall o b, In (o, b) (new_plan_table plans) -> b = [o]) /\
  (plans <> [] -> new_plan_table plans <> []).
Proof.
  unfold new_plan_table.
  assert (G : forall acc,
    NoDup (map fst acc) -> (forall o b, In (o, b) acc -> b = [o]) ->
    let t := fold_left (fun d p => dict_set DFAPlan_eq_dec p [p] d) plans acc in
    NoDup (map fst t) /\ (forall o b, In (o, b) t -> b = [o]) /\
    (acc <> [] \/ plans <> [] -> t <> [])).
  { induction plans as [|p plans IH]; simpl; intros acc Hnd Hent.
    - repeat split; auto. intros [H|H]; congruence.
    - destruct (IH (dict_set DFAPlan_eq_dec p [p] acc)) as (A & B & C).
      + now apply dict_set_NoDup.
      + intros o b Hin. apply dict_set_entries in Hin.
        destruct Hin as [Heq|Hin]; [now injection Heq as -> ->| eauto].
      + repeat split; auto. intros _. apply C. left. apply dict_set_nonempty. }
  destruct (G [] (NoDup_nil _)) as (A & B & C); [simpl; tauto|].
  repeat split; auto.
Qed.

Lemma superior_plan_true_some table r :
  superior_plan table true = Ret r -> exists w, r = Some w.
Proof.
  unfold superior_plan. destruct (map _ table) as [|first rest]; [discriminate|].
  destruct (py_max_by_length first rest) as [so sl].
  rewrite orb_true_r. intros H; injection H as <-. eauto.
Qed.


Lemma left_open_poisoned px px' : left_open px px' -> poisoned px'.
Proof.
  intros (_ & tk & ch & H). exists (mkRange (_counter px) None tk).
  split; [|reflexivity]. rewrite H. apply in_or_app. right. now left.
Qed.

(** The effect of one resolver call on the proxy. *)
Theorem get_possible_plan_effect grammar fuel pts table px r px' :
  get_possible_plan fuel grammar pts table px = (Ret r, px') ->
  (px' = px /\ sole_plan pts table r) \/
  left_open px px' \/
  (exists w toks,
     r = Some w /\
     _counter px' = _counter px /\
     _release_ranges px' =
       _release_ranges px ++
         [mkRange (_counter px) (Some (_counter px + length toks)) toks] /\
     _tokens px = toks ++ _tokens px' /\
     (_tokens px' = [] \/ toks = [] \/ exists pend, chain grammar w toks pend)).
Proof.
  intros H.
  destruct fuel as [|fuel]; simpl in H;
    destruct (collect_plans pts table) as [|p1 [|p2 plans]] eqn:E;
    try discriminate;
    try (injection H as <- <-; left; split; [reflexivity|]; unfold sole_plan; rewrite E; eauto; fail).
  right.
  destruct px as [raw c base]. unfold release_enter in H. cbn [_tokens _counter _release_ranges] in *.
  destruct (lookahead_loop _ _ _ _ _ _ _) as [[tableF| |] px2] eqn:El; try discriminate.
  injection H as Hs <-.
  destruct (new_plan_table_spec (p1 :: p2 :: plans)) as (Hnd & Hent & Hne).
  assert (Hinv : table_inv grammar [] (new_plan_table (p1 :: p2 :: plans)) []).
  { split; [exact Hnd|]. split; [|split].
    - intros o b Hin _. rewrite (Hent _ _ Hin). split; [reflexivity|].
      exists o. split; [reflexivity | constructor].
    - intros o b _ [].
    - left. destruct (new_plan_table (p1 :: p2 :: plans)) as [|[o b] t] eqn:Et.
      + exfalso. apply Hne; [discriminate | reflexivity].
      + exists o, b. split; [now left | tauto]. }
  change 0 with (length (@nil Token)) in El.
  assert (Hcnt : _counter px2 = c).
  { apply lookahead_loop_touches_last in El;
      [apply El | intros; eapply get_possible_plan_appends; eauto]. }
  apply lookahead_loop_good in El;
    [ | intros; eapply get_possible_plan_appends; eauto
      | intros ? ? ? ? ? Hr; apply get_possible_plan_dichotomy in Hr; tauto
      | exact Hinv].
  destruct El as [(tk & Hbad)|(more & rawF & deadF & -> & -> & HinvF & Hend)].
  - left.
    destruct (release_exit_touches_last px2) as [_ Hx].
    destruct (Hx _ Hbad) as (ch & _ & Hch).
    split; [exact Hcnt|]. exists tk, ch. cbn [_release_ranges _counter].
    rewrite Hch, <- app_assoc. reflexivity.
  - right. simpl in *.
    destruct (superior_plan_true_some _ _ Hs) as (w & ->).
    exists w, more. unfold release_exit. cbn [_tokens _counter _release_ranges].
    rewrite update_last_app. cbn [rr_start rr_tokens].
    repeat split; auto.
    destruct Hend as [->|(w0 & Hw0)]; [now left|].
    right.
    rewrite (superior_plan_winner _ _ Hw0) in Hs. injection Hs as ->.
    destruct HinvF as (_ & Halive & Hdead & [(o1 & b1 & Hin1 & Hn1)|Htie]);
      [|congruence].
    destruct (superior_plan_max _ _ _ Hw0) as (bw & Hinw & Hmax).
    destruct (Halive _ _ Hin1 Hn1) as [Hlen1 _].
    specialize (Hmax _ _ Hin1).
    destruct (in_dec DFAPlan_eq_dec w deadF) as [Hd|Hd].
    + specialize (Hdead _ _ Hinw Hd). lia.
    + destruct (Halive _ _ Hinw Hd) as (_ & p & _ & Hch). right. eauto.
Qed.

(** ** The resolver never raises [KeyError] *)

Lemma eat_raises point px e px' :
  eat point px = (Raise e, px') -> e = IndexError \/ e = StopIteration.
Proof.
  unfold eat. destruct (last_opt _) as [rg|]; [|intros H; injection H as <- _; auto].
  destruct (point <? _).
  - destruct (nth_error _ _); intros H; [discriminate | injection H as <- _; auto].
  - generalize (rr_tokens rg). generalize (_tokens px) as src.
    induction src as [|t src IH]; intros eaten; simpl.
    + intros H; injection H as <- _; auto.
    + destruct (_ <=? point); [apply IH | discriminate].
Qed.

Lemma can_advance_raises to px e px' :
  can_advance to px = (Raise e, px') -> e = IndexError.
Proof.
  unfold can_advance. destruct (eat to px) as [[t|e0|] p1] eqn:E; try discriminate.
  apply eat_raises in E. destruct E as [-> | ->]; [|discriminate].
  intros H; now injection H as <- _.
Qed.

Section NoKeyError.
Variable grammar : Grammar.
Variable rec : list Transition -> TransitionTable -> TokenGeneratorProxy ->
               outcome (option DFAPlan) * TokenGeneratorProxy.
Hypothesis rec_no_KeyError :
  forall nt tb px px', rec nt tb px <> (Raise KeyError, px').

Lemma try_pushes_no_KeyError nt ds : forall px px',
  try_pushes grammar rec nt ds px <> (Raise KeyError, px').
Proof.
  induction ds as [|d ds IH]; simpl; intros px px'; [discriminate|].
  destruct (rec nt _ px) as [[[p|]|e|] p1] eqn:E; try discriminate; [apply IH|].
  intros H. injection H as -> ->. now apply rec_no_KeyError in E.
Qed.

Lemma advance_plans_no_KeyError nt items : forall dead px px',
  advance_plans grammar rec nt items dead px <> (Raise KeyError, px').
Proof.
  induction items as [|[origin branch] items IH]; simpl; intros dead px px';
    [discriminate|].
  destruct (last_opt branch); [|discriminate].
  destruct (in_dec DFAPlan_eq_dec origin dead).
  - destruct (advance_plans grammar rec nt items dead px) as [[[d1 dd1]|e|] p1] eqn:E;
      try discriminate.
    intros H. injection H as -> ->. now apply IH in E.
  - destruct (try_pushes grammar rec nt _ px) as [[[q|]|e|] p0] eqn:Et; try discriminate.
    + destruct (advance_plans grammar rec nt items dead p0) as [[[d1 dd1]|e|] p1] eqn:E;
        try discriminate.
      intros H. injection H as -> ->. now apply IH in E.
    + destruct (advance_plans grammar rec nt items _ p0) as [[[d1 dd1]|e|] p1] eqn:E;
        try discriminate.
      intros H. injection H as -> ->. now apply IH in E.
    + intros H. injection H as -> ->. now apply try_pushes_no_KeyError in Et.
Qed.

Lemma superior_plan_no_KeyError table winner :
  superior_plan table winner <> Raise KeyError.
Proof.
  unfold superior_plan. destruct (map _ table) as [|first rest]; [discriminate|].
  destruct (py_max_by_length first rest). destruct (_ || _); discriminate.
Qed.

Lemma lookahead_loop_no_KeyError fuel : forall counter table dead px px',
  lookahead_loop grammar rec fuel counter table dead px <> (Raise KeyError, px').
Proof.
  induction fuel as [|fuel IH]; intros counter table dead px px'; simpl;
    pose proof (superior_plan_no_KeyError table false) as Hs;
    destruct (superior_plan table false) as [[w|]|e|]; try discriminate;
    try (intros H; injection H as -> _; congruence).
  destruct (can_advance counter px) as [[[|]|e|] px1] eqn:Ec; try discriminate.
  - destruct (eat counter px1) as [[token|e|] px2] eqn:Ee; try discriminate.
    + destruct (advance_plans grammar rec _ table dead px2) as [[[t1 d1]|e|] px3] eqn:Ea;
        try discriminate; [apply IH|].
      intros H. injection H as -> ->. now apply advance_plans_no_KeyError in Ea.
    + apply eat_raises in Ee. intros H. injection H as -> _.
      destruct Ee; discriminate.
  - apply can_advance_raises in Ec. intros H. injection H as -> _. discriminate.
Qed.
End NoKeyError.

Lemma get_possible_plan_no_KeyError grammar fuel : forall pts table px px',
  get_possible_plan fuel grammar pts table px <> (Raise KeyError, px').
Proof.
  induction fuel as [|fuel IH]; intros pts table px px'; simpl;
    destruct (collect_plans pts table) as [|p1 [|p2 plans]]; try discriminate.
  destruct (lookahead_loop _ _ _ _ _ _ _) as [[tableF|e|] px2] eqn:El; try discriminate.
  - intros H. injection H as H _. now apply superior_plan_no_KeyError in H.
  - intros H. injection H as -> _. now apply lookahead_loop_no_KeyError in El.
Qed.

Lemma get_possible_plan_None grammar fuel pts table px px' :
  get_possible_plan fuel grammar pts table px = (Ret None, px') ->
  px' = px /\ collect_plans pts table = [].
Proof.
  intros H. destruct fuel as [|fuel]; simpl in H;
    destruct (collect_plans pts table) as [|p1 [|p2 plans]]; try discriminate;
    try (injection H as <-; auto; fail).
  destruct (lookahead_loop _ _ _ _ _ _ _) as [[tableF|e|] px2]; try discriminate.
  injection H as H _. apply superior_plan_true_some in H. destruct H; discriminate.
Qed.

(** ** Leaves of the tree under construction *)


Lemma stack_leaves_cons sn stack_ :
  stack_leaves (sn :: stack_) = stack_leaves stack_ ++ frame_leaves sn.
Proof.
  unfold stack_leaves. simpl. rewrite flat_map_app. simpl. now rewrite app_nil_r.
Qed.

Section EngineEffect.
Variable self : BaseParser.
Local Abbreviation grammar := (_pgen_grammar self).

Lemma error_recovery_raises token : error_recovery self token <> Ret tt.
Proof.
  unfold error_recovery. destruct (_error_recovery self); [discriminate|].
  destruct token; discriminate.
Qed.

Lemma pop_effect stack_ stack' :
  _pop self stack_ = (Ret tt, stack') ->
  stack_leaves stack' = stack_leaves stack_ /\
  map dfa stack' = tl (map dfa stack_).
Proof.
  unfold _pop. destruct stack_ as [|tos [|parent rest]]; try discriminate.
  intros H. injection H as <-. split; [|reflexivity].
  rewrite !stack_leaves_cons. unfold frame_leaves at 1. cbn [nodes].
  rewrite flat_map_app, <- app_assoc. f_equal. f_equal.
  simpl. rewrite app_nil_r.
  unfold frame_leaves.
  destruct (nodes tos) as [|c [|c2 cs]]; simpl; try reflexivity.
  now rewrite app_nil_r.
Qed.


(** The loop of [_add_token] pops the frames in which the token finds no
    plan, keeps the leaves, and ends with one call of the resolver that
    finds a plan. *)
Lemma find_plan_effect n fuel token : forall st plan st',
  find_plan self n fuel token st = (Ret (Some plan), st') ->
  exists popped tos below,
    map dfa (stack st) = popped ++ map dfa (stack st') /\
    stack st' = tos :: below /\
    stack_leaves (stack st') = stack_leaves (stack st) /\
    Forall (no_match grammar token) popped /\
    get_possible_plan fuel grammar (keys_of grammar token)
      (table_of grammar (dfa tos)) (tokens_proxy st)
    = (Ret (Some plan), tokens_proxy st').
Proof.
  induction n as [|n IH]; intros st plan st' H;
    destruct token as [type_ value_ start_pos prefix];
    cbn [find_plan] in H; [discriminate|].
  destruct st as [stack0 px]. cbn [stack tokens_proxy] in *.
  destruct stack0 as [|tos below]; [discriminate|].
  destruct (get_possible_plan _ _ _ _ _) as [[[plan'|]|e|] px'] eqn:Eg.
  - injection H as <- <-. exists [], tos, below. cbn [stack tokens_proxy].
    repeat split; auto.
  - apply get_possible_plan_None in Eg. destruct Eg as [-> Hnone].
    destruct (is_final _).
    + destruct (_pop self (tos :: below)) as [[[]| |] stack'] eqn:Ep; try discriminate.
      apply pop_effect in Ep. destruct Ep as [Hl Hd].
      apply IH in H. cbn [stack tokens_proxy] in H.
      destruct H as (popped & tos' & below' & Hdf & Hs & Hlv & Hnm & Hg).
      exists (dfa tos :: popped), tos', below'.
      repeat split; auto.
      * simpl. rewrite <- Hdf, Hd. reflexivity.
      * congruence.
    + destruct (error_recovery self _) as [[]| |]; discriminate.
  - destruct e; try discriminate.
    now apply get_possible_plan_no_KeyError in Eg.
  - discriminate.
Qed.

Lemma find_plan_not_None n fuel token : forall st st',
  find_plan self n fuel token st <> (Ret None, st').
Proof.
  induction n as [|n IH]; intros st st';
    destruct token as [type_ value_ start_pos prefix];
    cbn [find_plan]; [discriminate|].
  destruct (stack st) as [|tos below]; [discriminate|].
  pose proof (error_recovery_raises (mkToken type_ value_ start_pos prefix)) as Hr.
  destruct (get_possible_plan _ _ _ _ _) as [[[plan'|]|e|] px'] eqn:Eg; try discriminate.
  - destruct (is_final _).
    + destruct (_pop self (tos :: below)) as [[[]| |] stack'] eqn:Ep; try discriminate.
      apply IH.
    + destruct (error_recovery self _) as [[]| |]; try discriminate. congruence.
  - destruct e; try discriminate.
    destruct (is_final _).
    + destruct (_pop self (tos :: below)) as [[[]| |] stack'] eqn:Ep; try discriminate.
      apply IH.
    + destruct (error_recovery self _) as [[]| |]; try discriminate. congruence.
Qed.

Lemma push_all_spec pushes : forall stack_,
  push_all pushes stack_ =
  map (fun p => mkStackNode p []) (rev pushes) ++ stack_.
Proof.
  unfold push_all. induction pushes as [|p pushes IH]; intros stack_; simpl;
    [reflexivity|].
  rewrite IH, map_app, <- app_assoc. reflexivity.
Qed.

Lemma stack_leaves_pushed ds stack_ :
  stack_leaves (map (fun p => mkStackNode p []) ds ++ stack_) = stack_leaves stack_.
Proof.
  induction ds as [|d ds IH]; simpl; [reflexivity|].
  rewrite stack_leaves_cons, IH. unfold frame_leaves. simpl. apply app_nil_r.
Qed.

(** [_add_token] appends one leaf, the leaf of its token. *)
Lemma add_token_effect fuel token st st' :
  _add_token self fuel token st = (Ret tt, st') ->
  exists plan popped tos below,
    map dfa (stack st) = popped ++ dfa tos :: map dfa below /\
    Forall (no_match grammar token) popped /\
    get_possible_plan fuel grammar (keys_of grammar token)
      (table_of grammar (dfa tos)) (tokens_proxy st)
    = (Ret (Some plan), tokens_proxy st') /\
    map dfa (stack st') =
      rev (dfa_pushes plan) ++ next_dfa plan :: map dfa below /\
    stack_leaves (stack st') = stack_leaves (stack st) ++ [leaf_of token].
Proof.
  unfold _add_token.
  destruct (find_plan self _ fuel token st) as [[[plan|]| |] st1] eqn:Ef;
    try discriminate; [|now apply find_plan_not_None in Ef].
  apply find_plan_effect in Ef.
  destruct Ef as (popped & tos & below & Hdf & Hs & Hlv & Hnm & Hg).
  rewrite Hs. rewrite Hs in Hdf, Hlv.
  rewrite push_all_spec.
  destruct (map _ (rev (dfa_pushes plan)) ++ _) as [|top below2] eqn:Ep;
    [discriminate|].
  intros H. injection H as <-. cbn [stack tokens_proxy].
  exists plan, popped, tos, below. repeat split; auto.
  - transitivity (map dfa (top :: below2)); [reflexivity|].
    rewrite <- Ep, map_app, map_map. simpl. now rewrite map_id.
  - assert (Hx : stack_leaves (top :: below2) = stack_leaves (stack st)).
    { rewrite <- Ep, stack_leaves_pushed, <- Hlv, !stack_leaves_cons.
      reflexivity. }
    rewrite <- Hx, !stack_leaves_cons. unfold frame_leaves. cbn [nodes].
    rewrite flat_map_app, app_assoc. reflexivity.
Qed.

Lemma reduce_all_leaves n : forall token stack_ result stack',
  reduce_all self n token stack_ = (Ret result, stack') ->
  leaves result = stack_leaves stack_.
Proof.
  induction n as [|n IH]; intros token stack_ result stack' H; simpl in H;
    [discriminate|].
  destruct stack_ as [|tos below]; [discriminate|].
  destruct (negb _).
  - destruct token; discriminate.
  - destruct (1 <? length (tos :: below)) eqn:El.
    + destruct (_pop self (tos :: below)) as [[[]| |] s1] eqn:Ep; try discriminate.
      apply IH in H. rewrite H. now apply pop_effect in Ep.
    + injection H as <- _. destruct below; [|simpl in El; discriminate].
      unfold stack_leaves, frame_leaves, convert_node. simpl. now rewrite app_nil_r.
Qed.
End EngineEffect.

(** ** Sequential consumption *)

Lemma scan_ranges_app rs rs' c :
  scan_ranges (rs ++ rs') c =
  match scan_ranges rs c with
  | Ret None => scan_ranges rs' c
  | other => other
  end.
Proof.
  induction rs as [|r rs IH]; simpl; [reflexivity|].
  destruct (rr_end r) as [e|]; [|reflexivity].
  destruct (_ && _); [|exact IH].
  destruct (nth_error _ _); reflexivity.
Qed.


Lemma next_synced px cached :
  synced px cached ->
  next px =
  match cached with
  | t :: _ =>
      (Ret t, mkProxy (_tokens px) (_counter px + 1) (_release_ranges px))
  | [] =>
      match _tokens px with
      | [] => (Raise StopIteration, px)
      | t :: raw' =>
          (Ret t, mkProxy raw' (_counter px + 1) (_release_ranges px))
      end
  end.
Proof.
  intros H. specialize (H 0). rewrite Nat.add_0_r in H.
  unfold next. rewrite H. destruct cached; reflexivity.
Qed.

Lemma synced_advance raw raw' c rs t cached :
  synced (mkProxy raw c rs) (t :: cached) ->
  synced (mkProxy raw' (c + 1) rs) cached.
Proof.
  intros H k. specialize (H (S k)). simpl in *.
  now replace (c + 1 + k) with (c + S k) by lia.
Qed.

Lemma synced_advance_nil raw raw' c rs :
  synced (mkProxy raw c rs) [] -> synced (mkProxy raw' (c + 1) rs) [].
Proof.
  intros H k. specialize (H (S k)). simpl in *.
  replace (c + 1 + k) with (c + S k) by lia. rewrite H. now destruct k.
Qed.

Lemma synced_new_range px px' toks :
  synced px [] ->
  _counter px' = _counter px ->
  _release_ranges px' =
    _release_ranges px ++
      [mkRange (_counter px) (Some (_counter px + length toks)) toks] ->
  synced px' toks.
Proof.
  intros H Hc Hr k. rewrite Hr, Hc, scan_ranges_app, H.
  replace (nth_error [] k) with (@None Token) by now destruct k.
  simpl.
  replace (_counter px <=? _counter px + k) with true
    by (symmetry; apply Nat.leb_le; lia).
  simpl. destruct (_counter px + k <? _counter px + length toks) eqn:E.
  - apply Nat.ltb_lt in E.
    replace (_counter px + k - _counter px) with k by lia.
    destruct (nth_error toks k) eqn:En; [reflexivity|].
    apply nth_error_None in En. lia.
  - apply Nat.ltb_ge in E.
    symmetry. f_equal. apply nth_error_None. lia.
Qed.

Lemma synced_empty_range px px' cached :
  synced px cached ->
  _counter px' = _counter px ->
  _release_ranges px' =
    _release_ranges px ++
      [mkRange (_counter px) (Some (_counter px + 0)) []] ->
  synced px' cached.
Proof.
  intros H Hc Hr k. rewrite Hr, Hc, scan_ranges_app, H.
  destruct (nth_error cached k); [reflexivity|]. simpl.
  replace (_counter px + k <? _counter px + 0) with false
    by (symmetry; apply Nat.ltb_ge; lia).
  now rewrite andb_false_r.
Qed.

(** ** A range left open stops the parse *)

Lemma scan_ranges_closed rs c :
  scan_ranges rs c = Ret None -> forall r, In r rs -> rr_end r <> None.
Proof.
  induction rs as [|r rs IH]; simpl; [tauto|].
  destruct (rr_end r) as [e|] eqn:Ee; [|discriminate].
  destruct (_ && _).
  - destruct (nth_error _ _); discriminate.
  - intros H r' [<-|Hin]; [congruence | auto].
Qed.

Lemma scan_ranges_raises rs c e :
  scan_ranges rs c = Raise e -> e <> StopIteration.
Proof.
  induction rs as [|r rs IH]; simpl; [discriminate|].
  destruct (rr_end r) as [e'|]; [|intros H; injection H as <-; discriminate].
  destruct (_ && _); [|exact IH].
  destruct (nth_error _ _); intros H; [discriminate|].
  injection H as <-; discriminate.
Qed.

Lemma next_poisoned px r px' :
  poisoned px -> next px = (r, px') ->
  r <> Raise StopIteration /\ poisoned px'.
Proof.
  intros Hp. unfold next.
  destruct (scan_ranges _ _) as [[t|]|e|] eqn:Es.
  - intros H; injection H as <- <-. split; [discriminate | exact Hp].
  - exfalso. destruct Hp as (rg & Hin & Hnone).
    now apply (scan_ranges_closed _ _ Es rg Hin).
  - apply scan_ranges_raises in Es.
    intros H; injection H as <- <-. split; [congruence | exact Hp].
  - intros H; injection H as <- <-. split; [discriminate | exact Hp].
Qed.


Lemma stuck_poisoned px cached : stuck px cached -> poisoned px.
Proof.
  intros (old & open & more & H & Hn & _). exists open. split; [|exact Hn].
  rewrite H. apply in_or_app. right. now left.
Qed.

Lemma left_open_stuck px px' cached :
  synced px cached -> left_open px px' -> stuck px' cached.
Proof.
  intros Hs (Hc & tk & ch & H).
  exists (_release_ranges px), (mkRange (_counter px) None tk), ch.
  split; [exact H|]. split; [reflexivity|]. intros k. rewrite Hc. apply Hs.
Qed.

Section RoundTrip.
Variable self : BaseParser.
Local Abbreviation grammar := (_pgen_grammar self).

Lemma find_plan_appends n fuel token : forall st r st',
  find_plan self n fuel token st = (r, st') ->
  appends (tokens_proxy st) (tokens_proxy st').
Proof.
  induction n as [|n IH]; intros st r st' H;
    destruct token as [type_ value_ start_pos prefix];
    cbn [find_plan] in H; [injection H as _ <-; apply appends_refl|].
  destruct (stack st) as [|tos below]; [injection H as _ <-; apply appends_refl|].
  destruct (get_possible_plan _ _ _ _ _) as [res px'] eqn:Eg.
  apply get_possible_plan_appends in Eg.
  assert (Hk : forall r st',
    (if is_final (dfa_states grammar (dfa tos))
     then match _pop self (tos :: below) with
          | (Ret tt, stack') =>
              find_plan self n fuel (mkToken type_ value_ start_pos prefix)
                        (mkState stack' px')
          | (Raise e, stack') => (Raise e, mkState stack' px')
          | (OutOfFuel, stack') => (OutOfFuel, mkState stack' px')
          end
     else match error_recovery self (mkToken type_ value_ start_pos prefix) with
          | Ret tt => (Ret None, mkState (tos :: below) px')
          | Raise e => (Raise e, mkState (tos :: below) px')
          | OutOfFuel => (OutOfFuel, mkState (tos :: below) px')
          end) = (r, st') ->
    appends (tokens_proxy st) (tokens_proxy st')).
  { intros r0 st0 H0. destruct (is_final _).
    - destruct (_pop self (tos :: below)) as [[[]| |] stack'].
      + apply IH in H0. eapply appends_trans; eauto.
      + now injection H0 as _ <-.
      + now injection H0 as _ <-.
    - destruct (error_recovery self _) as [[]| |]; now injection H0 as _ <-. }
  destruct res as [[plan|]|e|].
  - now injection H as _ <-.
  - eauto.
  - destruct e; try (now injection H as _ <-). eauto.
  - now injection H as _ <-.
Qed.

Lemma add_token_appends fuel token st r st' :
  _add_token self fuel token st = (r, st') ->
  appends (tokens_proxy st) (tokens_proxy st').
Proof.
  unfold _add_token.
  destruct (find_plan self _ fuel token st) as [[[plan|]| |] st1] eqn:Ef;
    apply find_plan_appends in Ef; try (intros H; now injection H as _ <-).
  destruct (stack st1) as [|tos below]; [intros H; now injection H as _ <-|].
  destruct (push_all _ _); intros H; now injection H as _ <-.
Qed.

(** With a range left open, the loop of [parse] does not end normally. *)
Lemma feed_tokens_poisoned fuel : forall last_token st r st',
  poisoned (tokens_proxy st) ->
  feed_tokens self fuel last_token st <> (Ret r, st').
Proof.
  induction fuel as [|fuel IH]; intros last_token st r st' Hp; simpl;
    [discriminate|].
  destruct (next (tokens_proxy st)) as [res px'] eqn:En.
  destruct (next_poisoned _ _ _ Hp En) as [Hne Hp'].
  destruct res as [token|e|]; try discriminate.
  - destruct (_add_token self (S fuel) token _) as [[[]| |] st1] eqn:Ea;
      try discriminate.
    apply IH. apply add_token_appends in Ea.
    eapply appends_poisoned; eauto.
  - destruct e; try discriminate. congruence.
Qed.


Lemma first_match_unique (Z : nat -> Prop) pre : forall d post popped d' rest,
  pre ++ d :: post = popped ++ d' :: rest ->
  Forall Z pre -> ~ Z d -> Forall Z popped -> ~ Z d' ->
  pre = popped /\ d = d' /\ post = rest.
Proof.
  induction pre as [|x pre IH]; intros d post popped d' rest Heq Hpre Hd Hpop Hd';
    destruct popped as [|y popped]; simpl in Heq.
  - now injection Heq as -> ->.
  - injection Heq as -> _. inversion Hpop; subst. contradiction.
  - injection Heq as -> _. inversion Hpre; subst. contradiction.
  - injection Heq as -> Heq. inversion Hpre; inversion Hpop; subst.
    destruct (IH _ _ _ _ _ Heq) as (-> & -> & ->); auto.
Qed.

(** One token handled: either a scope was opened inside a scope, or the
    engine is again in a state where the lookahead has cleared the way
    for the cached tokens. *)
Lemma add_token_good fuel token stack_ px cached st' :
  synced px cached ->
  _tokens px = [] \/ cached = [] \/
    (exists p pend below,
        map dfa stack_ = rev (dfa_pushes p) ++ below /\
        chain grammar p (token :: cached) pend) ->
  _add_token self fuel token (mkState stack_ px) = (Ret tt, st') ->
  stack_leaves (stack st') = stack_leaves stack_ ++ [leaf_of token] /\
  (stuck (tokens_proxy st') cached \/ good grammar st' (cached ++ _tokens px)).
Proof.
  intros Hsync Hcase Ha. unfold good.
  apply add_token_effect in Ha. destruct st' as [stack' px'].
  cbn [stack tokens_proxy] in *.
  destruct Ha as (plan & popped & tos & below & Hdf & Hnm & Hg & Hdf' & Hlv).
  split; [exact Hlv|].
  destruct Hcase as [Hraw|[->|(p & pend & below0 & Hds & Hch)]].
  - destruct (get_possible_plan_effect _ _ _ _ _ _ _ Hg)
      as [[-> _]|[Hp|(w & toks & _ & Hc & Hr & Ht & _)]];
      [right|left; eapply left_open_stuck; eauto|right].
    + exists cached. split; [reflexivity|]. split; [exact Hsync|]. now left.
    + rewrite Hraw in Ht. symmetry in Ht. apply app_eq_nil in Ht.
      destruct Ht as [-> Ht]. exists cached. rewrite Ht, Hraw.
      split; [reflexivity|]. split; [|now left].
      eapply synced_empty_range; eauto.
  - destruct (get_possible_plan_effect _ _ _ _ _ _ _ Hg)
      as [[-> _]|[Hp|(w & toks & Hw & Hc & Hr & Ht & Hend)]];
      [right|left; eapply left_open_stuck; eauto|right].
    + exists []. split; [reflexivity|]. split; [exact Hsync|]. right. now left.
    + exists toks. injection Hw as <-. split; [exact Ht|].
      split; [eapply synced_new_range; eauto|].
      destruct Hend as [He|[->|(pend & Hch)]]; [now left|right; now left|].
        right. right. exists plan, pend, (next_dfa plan :: map dfa below). auto.
  - inversion Hch as [|? ? p1 ? ? Hstep Hch']; subst.
    destruct Hstep as (pre & d & post & Hrev & Hpre & Hd).
    rewrite Hds, Hrev, <- app_assoc in Hdf. simpl in Hdf.
    assert (Hne : ~ no_match grammar token (dfa tos)).
    { unfold no_match. intros Hn.
      rewrite (get_possible_plan_no_match _ _ _ _ _ Hn) in Hg. discriminate. }
    assert (Hnd : ~ no_match grammar token d).
    { unfold no_match. rewrite Hd. discriminate. }
    destruct (first_match_unique _ _ _ _ _ _ _ Hdf Hpre Hnd Hnm Hne)
      as (-> & -> & Hpost).
    rewrite (get_possible_plan_one_match _ _ _ _ _ _ Hd) in Hg.
    injection Hg as <- <-.
    right. exists cached. split; [reflexivity|]. split; [exact Hsync|].
    right. right. exists p1, pend, (next_dfa p1 :: post ++ below0).
    split; [|exact Hch']. rewrite Hdf', <- Hpost. reflexivity.
Qed.

(** The loop of [parse] turns the tokens still to come into leaves, in
    order. *)
Lemma feed_tokens_leaves fuel : forall last_token st rest r st',
  good grammar st rest ->
  feed_tokens self fuel last_token st = (Ret r, st') ->
  stack_leaves (stack st') = stack_leaves (stack st) ++ map leaf_of rest.
Proof.
  induction fuel as [|fuel IH]; intros last_token st rest r st' Hgood H;
    simpl in H; [discriminate|].
  destruct Hgood as (cached & Hrest & Hsync & Hprom).
  destruct st as [stack_ [raw c rs]]. cbn [stack tokens_proxy _tokens] in *.
  rewrite (next_synced _ _ Hsync) in H. cbn [_tokens _counter _release_ranges] in H.
  destruct cached as [|t cached].
  - destruct raw as [|t raw'].
    + injection H as _ <-. subst rest. simpl. now rewrite app_nil_r.
    + destruct (_add_token self (S fuel) t _) as [[[]| |] st1] eqn:Ea;
        try discriminate.
      apply add_token_good with (cached := []) in Ea;
        [|eapply synced_advance_nil; eauto|auto].
      destruct Ea as [Hlv [Hp|Hg]].
      * exfalso. eapply feed_tokens_poisoned; eauto using stuck_poisoned.
      * cbn [_tokens app] in Hg. rewrite (IH _ _ _ _ _ Hg H), Hlv.
        subst rest. simpl. now rewrite <- app_assoc.
  - destruct (_add_token self (S fuel) t _) as [[[]| |] st1] eqn:Ea;
      try discriminate.
    apply add_token_good with (cached := cached) in Ea;
      [|eapply synced_advance; eauto|].
    + destruct Ea as [Hlv [Hp|Hg]].
      * exfalso. eapply feed_tokens_poisoned; eauto using stuck_poisoned.
      * cbn [_tokens] in Hg. rewrite (IH _ _ _ _ _ Hg H), Hlv.
        subst rest. simpl. now rewrite <- app_assoc.
    + cbn [_tokens]. destruct Hprom as [Hraw|[Hnil|Hch]]; auto; discriminate.
Qed.

(** The leaves of the tree that [parse] returns are the leaves of the
    tokens. *)
Theorem parse_leaves fuel tokens result :
  parse self fuel tokens = Ret result ->
  leaves result = map leaf_of tokens.
Proof.
  unfold parse.
  destruct (dict_get _ _ _) as [[|first_dfa others]|]; try discriminate.
  destruct (feed_tokens _ _ _ _) as [[token| |] st'] eqn:Ef; try discriminate.
  destruct (reduce_all _ _ _ _) as [res s1] eqn:Er. simpl. intros ->.
  apply reduce_all_leaves in Er. rewrite Er.
  apply feed_tokens_leaves with (rest := tokens) in Ef; [exact Ef|].
  exists []. split; [reflexivity|]. split.
  - intros k. simpl. now destruct k.
  - right. now left.
Qed.
End RoundTrip.

(** ** Further facts about the proxy and the engine *)


Lemma eat_pull_split point : forall src eaten r eaten' src',
  eat_pull point eaten src = (r, eaten', src') ->
  exists pulled, eaten' = eaten ++ pulled /\ src = pulled ++ src'.
Proof.
  induction src as [|t src IH]; intros eaten r eaten' src' H; simpl in H.
  - injection H as _ <- <-. exists []. now rewrite app_nil_r.
  - destruct (_ <=? point).
    + apply IH in H. destruct H as (pulled & -> & ->).
      exists (t :: pulled). now rewrite <- app_assoc.
    + injection H as _ <- <-. now exists [t].
Qed.

(** A scope opened when no cached token is pending keeps the stream of
    tokens as it is: what it pulls is replayed by [__next__]. *)
Lemma speculate_keeps_stream n px :
  synced px [] ->
  exists toks,
    synced (speculate n px) toks /\
    _tokens px = toks ++ _tokens (speculate n px) /\
    _counter (speculate n px) = _counter px.
Proof.
  intros Hs. destruct px as [raw c rs].
  unfold speculate, can_advance, eat, release_enter.
  cbn [_tokens _counter _release_ranges].
  rewrite last_opt_app. cbn [rr_tokens rr_start rr_end length].
  replace (n <? 0) with false by (symmetry; apply Nat.ltb_ge; lia).
  destruct (eat_pull n [] raw) as [[res eaten'] src'] eqn:Ep.
  rewrite update_last_app. cbn [rr_start rr_end].
  apply eat_pull_split in Ep. destruct Ep as (pulled & -> & ->).
  cbn [app]. exists pulled.
  assert (G : forall px',
    _tokens px' = src' -> _counter px' = c ->
    _release_ranges px' = rs ++ [mkRange c None pulled] ->
    synced (release_exit px') pulled /\
    pulled ++ src' = pulled ++ _tokens (release_exit px') /\
    _counter (release_exit px') = c).
  { intros px' Ht Hc Hr. split; [|split].
    - apply (synced_new_range (mkProxy (pulled ++ src') c rs)); auto.
      simpl. rewrite Hr, update_last_app, Hc. reflexivity.
    - simpl. now rewrite Ht.
    - exact Hc. }
  destruct res as [t|e|]; [|destruct e|]; apply G; reflexivity.
Qed.

(** [_pop] hands over a single child, whatever the rule of the frame. *)
Lemma pop_single_child_any_rule (self : BaseParser) (d : nat)
    (only_child : NodeOrLeaf) (parent : StackNode) (rest : list StackNode) :
  _pop self (mkStackNode d [only_child] :: parent :: rest) =
  (Ret tt, mkStackNode (dfa parent) (nodes parent ++ [only_child]) :: rest).
Proof. reflexivity. Qed.

(** With an empty source and a start state that is not final, the closing
    loop of [parse] reads the loop variable that was never bound. *)
Lemma parse_empty_source (self : BaseParser) (fuel : nat)
    (first_dfa : nat) (others : list nat) :
  dict_get string_dec (_start_nonterminal self)
           (nonterminal_to_dfas (_pgen_grammar self))
    = Some (first_dfa :: others) ->
  is_final (dfa_states (_pgen_grammar self) first_dfa) = false ->
  parse self (S fuel) [] = Raise UnboundLocalError.
Proof.
  intros Hd Hf. unfold parse. rewrite Hd. simpl. now rewrite Hf.
Qed.

(** A token without transition in the only frame, whose state is final:
    [_pop] empties the stack and its [IndexError] leaves [_add_token]. *)
Lemma add_token_single_final_frame (self : BaseParser) (fuel : nat)
    (token : Token) (tos : StackNode) (px : TokenGeneratorProxy) :
  collect_plans
    (_token_to_transition (_pgen_grammar self) (tok_type token)
                          (tok_string token))
    (transitions (dfa_states (_pgen_grammar self) (dfa tos))) = [] ->
  is_final (dfa_states (_pgen_grammar self) (dfa tos)) = true ->
  _add_token self fuel token (mkState [tos] px)
    = (Raise IndexError, mkState [] px).
Proof.
  intros Hnone Hf. destruct token as [type_ value_ start_pos prefix].
  simpl in Hnone. unfold _add_token. cbn [stack length find_plan tokens_proxy].
  rewrite (get_possible_plan_no_match fuel _ _ _ px Hnone), Hf.
  reflexivity.
Qed.

(** ** Tokens are conserved *)


Lemma held_app rs rs' : held (rs ++ rs') = held rs + held rs'.
Proof. unfold held. now rewrite map_app, list_sum_app. Qed.

Lemma conserves_refl px : conserves px px.
Proof. split; auto. Qed.

Lemma conserves_trans p1 p2 p3 :
  conserves p1 p2 -> conserves p2 p3 -> conserves p1 p3.
Proof. intros [A1 B1] [A2 B2]. split; lia. Qed.

Lemma last_opt_Some {A} (l : list A) (x : A) :
  last_opt l = Some x -> exists l', l = l' ++ [x].
Proof.
  unfold last_opt. destruct (rev l) as [|y r] eqn:E; [discriminate|].
  intros H; injection H as ->. exists (rev r).
  rewrite <- (rev_involutive l), E. reflexivity.
Qed.

Lemma eat_conserves point px r px' :
  eat point px = (r, px') -> conserves px px'.
Proof.
  unfold eat. destruct (last_opt (_release_ranges px)) as [rg|] eqn:El.
  - destruct (point <? length (rr_tokens rg)).
    + destruct (nth_error _ _); intros H; inversion H; subst; apply conserves_refl.
    + destruct (eat_pull _ _ _) as [[res eaten'] src'] eqn:Ep.
      intros H; inversion H; subst. clear H.
      apply eat_pull_split in Ep. destruct Ep as (pulled & -> & Hsrc).
      apply last_opt_Some in El. destruct El as (rs0 & Hrs).
      unfold conserves. cbn [_tokens _release_ranges].
      rewrite Hrs, update_last_app, !held_app, Hsrc. unfold held. simpl.
      rewrite !length_app. lia.
  - intros H; inversion H; subst; apply conserves_refl.
Qed.

Lemma can_advance_conserves to px r px' :
  can_advance to px = (r, px') -> conserves px px'.
Proof.
  unfold can_advance. destruct (eat to px) as [[t|e|] p1] eqn:E; intros H.
  - inversion H; subst. eapply eat_conserves; eauto.
  - destruct e; inversion H; subst; eapply eat_conserves; eauto.
  - inversion H; subst. eapply eat_conserves; eauto.
Qed.

Lemma held_update_last f rs :
  (forall r, rr_tokens (f r) = rr_tokens r) -> held (update_last f rs) = held rs.
Proof.
  intros Hf. destruct (last_opt rs) as [x|] eqn:E.
  - apply last_opt_Some in E. destruct E as (rs0 & ->).
    rewrite update_last_app, !held_app. unfold held. simpl. now rewrite Hf.
  - unfold last_opt in E. unfold update_last. destruct (rev rs) eqn:Er; [|discriminate].
    apply (f_equal (@rev _)) in Er. rewrite rev_involutive in Er. now subst.
Qed.

Lemma release_exit_conserves px : conserves px (release_exit px).
Proof.
  split; [|reflexivity]. simpl. now rewrite held_update_last.
Qed.

Lemma release_enter_conserves px : conserves px (release_enter px).
Proof.
  split; [|reflexivity]. simpl. rewrite held_app. unfold held. simpl. lia.
Qed.

Section LoopConserves.
Variable grammar : Grammar.
Variable rec : list Transition -> TransitionTable -> TokenGeneratorProxy ->
               outcome (option DFAPlan) * TokenGeneratorProxy.
Hypothesis rec_conserves :
  forall nt tb px r px', rec nt tb px = (r, px') -> conserves px px'.

Lemma try_pushes_conserves nt ds : forall px r px',
  try_pushes grammar rec nt ds px = (r, px') -> conserves px px'.
Proof.
  induction ds as [|d ds IH]; simpl; intros px r px' H.
  - inversion H; subst; apply conserves_refl.
  - destruct (rec nt _ px) as [[[p|]|e|] p1] eqn:E; apply rec_conserves in E.
    + now inversion H; subst.
    + eapply conserves_trans; eauto.
    + now inversion H; subst.
    + now inversion H; subst.
Qed.

Lemma advance_plans_conserves nt items : forall dead px r px',
  advance_plans grammar rec nt items dead px = (r, px') -> conserves px px'.
Proof.
  induction items as [|[origin branch] items IH]; simpl; intros dead px r px' H.
  - inversion H; subst; apply conserves_refl.
  - destruct (last_opt branch) as [current_plan|]; [|inversion H; subst; apply conserves_refl].
    destruct (in_dec DFAPlan_eq_dec origin dead).
    + destruct (advance_plans grammar rec nt items dead px) as [[[d1 dd1]| |] p1] eqn:E;
        apply IH in E; now inversion H; subst.
    + destruct (try_pushes grammar rec nt _ px) as [[[q|]| |] p0] eqn:Et;
        apply try_pushes_conserves in Et.
      * destruct (advance_plans grammar rec nt items dead p0) as [[[d1 dd1]| |] p1] eqn:E;
          apply IH in E; inversion H; subst; eapply conserves_trans; eauto.
      * destruct (advance_plans grammar rec nt items _ p0) as [[[d1 dd1]| |] p1] eqn:E;
          apply IH in E; inversion H; subst; eapply conserves_trans; eauto.
      * now inversion H; subst.
      * now inversion H; subst.
Qed.

Lemma lookahead_loop_conserves fuel : forall counter table dead px r px',
  lookahead_loop grammar rec fuel counter table dead px = (r, px') ->
  conserves px px'.
Proof.
  induction fuel as [|fuel IH]; intros counter table dead px r px' H; simpl in H.
  - destruct (superior_plan table false) as [[o|]| |]; inversion H; subst; apply conserves_refl.
  - destruct (superior_plan table false) as [[o|]| |];
      try (inversion H; subst; apply conserves_refl).
    destruct (can_advance counter px) as [[[|]| |] px1] eqn:Ec;
      apply can_advance_conserves in Ec; try (now inversion H; subst).
    destruct (eat counter px1) as [[token| |] px2] eqn:Ee;
      apply eat_conserves in Ee;
      try (inversion H; subst; eapply conserves_trans; eauto).
    destruct (advance_plans grammar rec _ table dead px2) as [[[t1 d1]| |] px3] eqn:Ea;
      apply advance_plans_conserves in Ea.
    + apply IH in H. eauto using conserves_trans.
    + inversion H; subst. eauto using conserves_trans.
    + inversion H; subst. eauto using conserves_trans.
Qed.
End LoopConserves.

Lemma get_possible_plan_conserves grammar fuel : forall pts table px r px',
  get_possible_plan fuel grammar pts table px = (r, px') -> conserves px px'.
Proof.
  induction fuel as [|fuel IH]; intros pts table px r px' H; simpl in H;
    destruct (collect_plans pts table) as [|p1 [|p2 plans]];
    try (inversion H; subst; apply conserves_refl).
  destruct (lookahead_loop _ _ _ _ _ _ _) as [res px1] eqn:El.
  apply lookahead_loop_conserves in El; [|exact IH].
  assert (px' = release_exit px1) by (destruct res; now inversion H).
  subst px'.
  eapply conserves_trans; [apply release_enter_conserves|].
  eapply conserves_trans; [exact El | apply release_exit_conserves].
Qed.

(** ** The resolver returns *)

Lemma eat_pull_ret point : forall src eaten t eaten' src',
  eat_pull point eaten src = (Ret t, eaten', src') ->
  point < length eaten' /\ length src' < length src.
Proof.
  induction src as [|x src IH]; intros eaten t eaten' src' H; simpl in H;
    [discriminate|].
  destruct (_ <=? point) eqn:E.
  - apply IH in H. simpl. lia.
  - injection H as _ <- <-. apply Nat.leb_gt in E. simpl. lia.
Qed.

Lemma can_advance_ret c px :
  _release_ranges px <> [] -> exists b px1, can_advance c px = (Ret b, px1).
Proof.
  intros Hne. unfold can_advance, eat.
  destruct (last_opt (_release_ranges px)) as [rg|] eqn:El.
  - destruct (c <? length (rr_tokens rg)) eqn:Ec.
    + apply Nat.ltb_lt in Ec.
      destruct (nth_error (rr_tokens rg) c) eqn:En; [eauto|].
      apply nth_error_None in En. lia.
    + destruct (eat_pull _ _ _) as [[res eaten'] src'] eqn:Ep.
      destruct res as [t|e|]; [eauto| |].
      * assert (e = StopIteration).
        { clear -Ep. revert Ep. generalize (rr_tokens rg).
          generalize (_tokens px) as src.
          induction src as [|x src IH]; intros eaten; simpl.
          - intros H; now injection H as <-.
          - destruct (_ <=? c); [apply IH | discriminate]. }
        subst e. eauto.
      * exfalso. clear -Ep. revert Ep. generalize (rr_tokens rg).
        generalize (_tokens px) as src.
        induction src as [|x src IH]; intros eaten; simpl; [discriminate|].
        destruct (_ <=? c); [apply IH | discriminate].
  - exfalso. unfold last_opt in El. destruct (rev (_release_ranges px)) eqn:Er;
      [|discriminate].
    apply (f_equal (@rev _)) in Er. rewrite rev_involutive in Er. auto.
Qed.

Lemma can_advance_true c px px1 :
  can_advance c px = (Ret true, px1) ->
  exists rs0 rg rg1,
    _release_ranges px = rs0 ++ [rg] /\
    _release_ranges px1 = rs0 ++ [rg1] /\
    c < length (rr_tokens rg1) /\
    (length (rr_tokens rg) <= c -> length (_tokens px1) < length (_tokens px)) /\
    exists t, eat c px1 = (Ret t, px1).
Proof.
  unfold can_advance, eat.
  destruct (last_opt (_release_ranges px)) as [rg|] eqn:El; [|discriminate].
  apply last_opt_Some in El. destruct El as (rs0 & Hrs).
  destruct (c <? length (rr_tokens rg)) eqn:Ec.
  - apply Nat.ltb_lt in Ec.
    destruct (nth_error (rr_tokens rg) c) as [t|] eqn:En; [|discriminate].
    intros H; injection H as <-. exists rs0, rg, rg.
    rewrite Hrs, last_opt_app, (proj2 (Nat.ltb_lt _ _) Ec), En.
    repeat split; auto; [lia | eauto].
  - destruct (eat_pull _ _ _) as [[res eaten'] src'] eqn:Ep.
    destruct res as [t|e|]; [|destruct e; discriminate|discriminate].
    intros H; injection H as <-. cbn [_release_ranges _tokens _counter].
    apply eat_pull_ret in Ep. destruct Ep as [Hlt Hsrc].
    exists rs0, rg, (mkRange (rr_start rg) (rr_end rg) eaten').
    rewrite Hrs, update_last_app, last_opt_app. cbn [rr_tokens].
    rewrite (proj2 (Nat.ltb_lt _ _) Hlt).
    repeat split; auto.
    destruct (nth_error eaten' c) as [t'|] eqn:En; [eauto|].
    apply nth_error_None in En. lia.
Qed.

Lemma last_opt_nonempty {A} (l : list A) :
  l <> [] -> exists x, last_opt l = Some x.
Proof.
  intros Hne. destruct (exists_last Hne) as (l' & x & ->).
  exists x. apply last_opt_app.
Qed.

Lemma held_last rs0 rg : length (rr_tokens rg) <= held (rs0 ++ [rg]).
Proof. rewrite held_app. unfold held at 2. simpl. lia. Qed.

Section LoopReturns.
Variable grammar : Grammar.
Variable rec : list Transition -> TransitionTable -> TokenGeneratorProxy ->
               outcome (option DFAPlan) * TokenGeneratorProxy.
Variables total limit : nat.
Hypothesis rec_appends :
  forall nt tb px r px', rec nt tb px = (r, px') -> appends px px'.
Hypothesis rec_conserves :
  forall nt tb px r px', rec nt tb px = (r, px') -> conserves px px'.
Hypothesis rec_returns :
  forall nt tb px,
    length (_tokens px) + held (_release_ranges px) = total ->
    length (_tokens px) < limit ->
    exists r px', rec nt tb px = (Ret r, px').

Lemma try_pushes_returns nt ds : forall px,
  length (_tokens px) + held (_release_ranges px) = total ->
  length (_tokens px) < limit ->
  exists r px', try_pushes grammar rec nt ds px = (Ret r, px').
Proof.
  induction ds as [|d ds IH]; simpl; intros px Ht Hl; [eauto|].
  destruct (rec_returns nt (transitions (dfa_states grammar d)) px Ht Hl)
    as ([p|] & p1 & E); rewrite E; [eauto|].
  apply rec_conserves in E. destruct E as [E1 E2].
  apply IH; lia.
Qed.

Lemma advance_plans_returns nt items : forall dead px,
  Forall (fun ob => snd ob <> []) items ->
  length (_tokens px) + held (_release_ranges px) = total ->
  length (_tokens px) < limit ->
  exists done dead' px',
    advance_plans grammar rec nt items dead px = (Ret (done, dead'), px') /\
    Forall (fun ob : DFAPlan * list DFAPlan => snd ob <> []) done.
Proof.
  induction items as [|[origin branch] items IH]; simpl; intros dead px Hb Ht Hl.
  - do 3 eexists. split; [reflexivity | constructor].
  - apply Forall_cons_iff in Hb. destruct Hb as [Hne Hb']. simpl in Hne.
    destruct (last_opt_nonempty _ Hne) as (pc & ->).
    destruct (in_dec DFAPlan_eq_dec origin dead).
    + destruct (IH dead px Hb' Ht Hl) as (done & dead' & px' & -> & Hd).
      do 3 eexists. split; [reflexivity|]. constructor; auto.
    + destruct (try_pushes_returns nt (rev (dfa_pushes pc)) px Ht Hl)
        as (r & p0 & Et). rewrite Et.
      apply try_pushes_conserves in Et; [|exact rec_conserves].
      destruct Et as [E1 E2].
      destruct r as [q|].
      * destruct (IH dead p0 Hb') as (done & dead' & px' & -> & Hd); try lia.
        do 3 eexists. split; [reflexivity|]. constructor; auto.
        simpl. destruct branch; discriminate.
      * destruct (IH (set_add origin dead) p0 Hb')
          as (done & dead' & px' & -> & Hd); try lia.
        do 3 eexists. split; [reflexivity|]. constructor; auto.
Qed.

Lemma superior_plan_returns table winner :
  table <> [] -> exists r, superior_plan table winner = Ret r.
Proof.
  intros Hne. unfold superior_plan.
  destruct table as [|ob table]; [congruence|]. simpl.
  destruct (py_max_by_length _ _). destruct (_ || _); eauto.
Qed.

Lemma lookahead_loop_returns fuel : forall counter table dead px,
  _release_ranges px <> [] ->
  length (_tokens px) + held (_release_ranges px) = total ->
  (length (_tokens px) < limit \/
   (length (_tokens px) <= limit /\ counter = 0 /\
    exists rs0 rg, _release_ranges px = rs0 ++ [rg] /\ rr_tokens rg = [])) ->
  table <> [] ->
  Forall (fun ob => snd ob <> []) table ->
  counter <= total ->
  total + 2 <= counter + fuel ->
  exists tableF pxF,
    lookahead_loop grammar rec fuel counter table dead px = (Ret tableF, pxF) /\
    tableF <> [].
Proof.
  induction fuel as [|fuel IH];
    intros counter table dead px Hne Ht Hl Htab Hb Hc Hf; [lia|].
  simpl.
  destruct (superior_plan_returns table false Htab) as ([w|] & ->); [eauto|].
  destruct (can_advance_ret counter px Hne) as ([|] & px1 & Ec); rewrite Ec;
    [|eauto].
  pose proof (can_advance_conserves _ _ _ _ Ec) as [Hc1 Hc2].
  destruct (can_advance_true _ _ _ Ec)
    as (rs0 & rg & rg1 & Hrs & Hrs1 & Hlt & Hpull & t & Ee).
  rewrite Ee.
  assert (Hl1 : length (_tokens px1) < limit).
  { destruct Hl as [Hl|(Hl & -> & rs0' & rg' & Hrs' & Hemp)]; [lia|].
    rewrite Hrs in Hrs'. apply app_inj_tail in Hrs'. destruct Hrs' as [_ <-].
    rewrite Hemp in Hpull. simpl in Hpull. lia. }
  assert (Hcnt : counter < total).
  { pose proof (held_last rs0 rg1) as Hh. rewrite <- Hrs1 in Hh. lia. }
  destruct (advance_plans_returns (_token_to_transition grammar (tok_type t) (tok_string t))
              table dead px1 Hb) as (t1 & d1 & px3 & Ea & Hb1); try lia.
  rewrite Ea.
  pose proof (advance_plans_keys _ _ _ _ _ _ _ _ _ Ea) as Hk.
  pose proof (advance_plans_conserves _ _ rec_conserves _ _ _ _ _ _ Ea) as [Hc3 Hc4].
  pose proof (advance_plans_appends _ _ rec_appends _ _ _ _ _ _ Ea) as [_ (extra & Hex)].
  apply IH; auto; try lia.
  - rewrite Hex, Hrs1. destruct rs0; discriminate.
  - destruct t1; [|discriminate]. destruct table; [congruence | discriminate].
Qed.
End LoopReturns.

(** With fuel above twice the number of tokens at hand, the resolver
    returns a value: it neither runs out of fuel nor raises. *)
Theorem get_possible_plan_returns grammar fuel : forall pts table px,
  2 * length (_tokens px) + held (_release_ranges px) + 3 <= fuel ->
  exists r px', get_possible_plan fuel grammar pts table px = (Ret r, px').
Proof.
  induction fuel as [|fuel IH]; intros pts table px Hf; [lia|].
  simpl.
  destruct (collect_plans pts table) as [|p1 [|p2 plans]] eqn:E; [eauto|eauto|].
  destruct (new_plan_table_spec (p1 :: p2 :: plans)) as (_ & Hent & Hne).
  destruct (lookahead_loop_returns grammar (get_possible_plan fuel grammar)
              (length (_tokens px) + held (_release_ranges px))
              (length (_tokens px))
              (fun nt tb p r p' H => get_possible_plan_appends _ _ _ _ _ _ _ H)
              (fun nt tb p r p' H => get_possible_plan_conserves _ _ _ _ _ _ _ H))
    with (fuel := fuel) (counter := 0)
         (table := new_plan_table (p1 :: p2 :: plans)) (dead := @nil DFAPlan)
         (px := release_enter px)
    as (tableF & pxF & El & HneF).
  - intros nt tb p Hp Hl. apply IH. lia.
  - simpl. destruct (_release_ranges px); discriminate.
  - destruct (release_enter_conserves px) as [Hc _]. exact Hc.
  - right. simpl. split; [lia|]. split; [reflexivity|]. eauto.
  - apply Hne. discriminate.
  - apply Forall_forall. intros [o b] Hin. rewrite (Hent _ _ Hin). discriminate.
  - lia.
  - lia.
  - rewrite El.
    destruct (superior_plan_returns tableF true HneF) as (r & ->). eauto.
Qed.

(** ** [parse] returns or raises *)

Lemma next_stuck px cached :
  stuck px cached ->
  match cached with
  | t :: cached' =>
      next px = (Ret t, mkProxy (_tokens px) (_counter px + 1) (_release_ranges px))
      /\ stuck (mkProxy (_tokens px) (_counter px + 1) (_release_ranges px)) cached'
  | [] => next px = (Raise AssertionError, px)
  end.
Proof.
  intros (old & open & more & Hr & Hn & Hs).
  pose proof (Hs 0) as H0. rewrite Nat.add_0_r in H0.
  unfold next. rewrite Hr, scan_ranges_app, H0.
  destruct cached as [|t cached']; simpl.
  - now rewrite Hn.
  - split; [reflexivity|]. exists old, open, more. repeat split; auto.
    intros k. simpl. specialize (Hs (S k)). simpl in Hs.
    now replace (_counter px + 1 + k) with (_counter px + S k) by lia.
Qed.

Lemma appends_stuck px px' cached :
  appends px px' -> stuck px cached -> stuck px' cached.
Proof.
  intros [Hc (extra & He)] (old & open & more & Hr & Hn & Hs).
  exists old, open, (more ++ extra). repeat split; auto.
  - rewrite He, Hr, <- app_assoc. reflexivity.
  - intros k. rewrite Hc. apply Hs.
Qed.

Section ParseReturns.
Variable self : BaseParser.
Local Abbreviation grammar := (_pgen_grammar self).

Lemma pop_length stack_ stack' :
  _pop self stack_ = (Ret tt, stack') -> S (length stack') = length stack_.
Proof.
  unfold _pop. destruct stack_ as [|tos [|parent rest]]; try discriminate.
  intros H. now injection H as <-.
Qed.

Lemma pop_not_OutOfFuel stack_ stack' : _pop self stack_ <> (OutOfFuel, stack').
Proof.
  unfold _pop. destruct stack_ as [|tos [|parent rest]]; discriminate.
Qed.

Lemma error_recovery_not_OutOfFuel token : error_recovery self token <> OutOfFuel.
Proof.
  unfold error_recovery. destruct (_error_recovery self); [discriminate|].
  destruct token; discriminate.
Qed.

Lemma find_plan_conserves n fuel token : forall st r st',
  find_plan self n fuel token st = (r, st') ->
  conserves (tokens_proxy st) (tokens_proxy st').
Proof.
  induction n as [|n IH]; intros st r st' H;
    destruct token as [type_ value_ start_pos prefix];
    cbn [find_plan] in H; [injection H as _ <-; apply conserves_refl|].
  destruct (stack st) as [|tos below]; [injection H as _ <-; apply conserves_refl|].
  destruct (get_possible_plan _ _ _ _ _) as [res px'] eqn:Eg.
  apply get_possible_plan_conserves in Eg.
  assert (Hk : forall r st',
    (if is_final (dfa_states grammar (dfa tos))
     then match _pop self (tos :: below) with
          | (Ret tt, stack') =>
              find_plan self n fuel (mkToken type_ value_ start_pos prefix)
                        (mkState stack' px')
          | (Raise e, stack') => (Raise e, mkState stack' px')
          | (OutOfFuel, stack') => (OutOfFuel, mkState stack' px')
          end
     else match error_recovery self (mkToken type_ value_ start_pos prefix) with
          | Ret tt => (Ret None, mkState (tos :: below) px')
          | Raise e => (Raise e, mkState (tos :: below) px')
          | OutOfFuel => (OutOfFuel, mkState (tos :: below) px')
          end) = (r, st') ->
    conserves (tokens_proxy st) (tokens_proxy st')).
  { intros r0 st0 H0. destruct (is_final _).
    - destruct (_pop self (tos :: below)) as [[[]| |] stack'].
      + apply IH in H0. eapply conserves_trans; eauto.
      + now injection H0 as _ <-.
      + now injection H0 as _ <-.
    - destruct (error_recovery self _) as [[]| |]; now injection H0 as _ <-. }
  destruct res as [[plan|]|e|].
  - now injection H as _ <-.
  - eauto.
  - destruct e; try (now injection H as _ <-). eauto.
  - now injection H as _ <-.
Qed.

Lemma add_token_conserves fuel token st r st' :
  _add_token self fuel token st = (r, st') ->
  conserves (tokens_proxy st) (tokens_proxy st').
Proof.
  unfold _add_token.
  destruct (find_plan self _ fuel token st) as [[[plan|]| |] st1] eqn:Ef;
    apply find_plan_conserves in Ef; try (intros H; now injection H as _ <-).
  destruct (stack st1) as [|tos below]; [intros H; now injection H as _ <-|].
  destruct (push_all _ _); intros H; now injection H as _ <-.
Qed.

Lemma find_plan_not_OutOfFuel n fuel token : forall st st',
  length (stack st) < n ->
  2 * length (_tokens (tokens_proxy st))
    + held (_release_ranges (tokens_proxy st)) + 3 <= fuel ->
  find_plan self n fuel token st <> (OutOfFuel, st').
Proof.
  induction n as [|n IH]; intros st st' Hn Hf; [lia|].
  destruct token as [type_ value_ start_pos prefix]. cbn [find_plan].
  destruct st as [stack0 px]. cbn [stack tokens_proxy] in *.
  destruct stack0 as [|tos below]; [discriminate|].
  destruct (get_possible_plan_returns grammar fuel
              (_token_to_transition grammar type_ value_)
              (transitions (dfa_states grammar (dfa tos))) px Hf)
    as (r & px' & Eg).
  rewrite Eg. destruct r as [plan|]; [discriminate|].
  apply get_possible_plan_None in Eg. destruct Eg as [-> _].
  destruct (is_final _).
  - destruct (_pop self (tos :: below)) as [[[]|e|] stack'] eqn:Ep.
    + apply IH; cbn [stack tokens_proxy]; [|exact Hf].
      apply pop_length in Ep. simpl in *. lia.
    + discriminate.
    + now apply pop_not_OutOfFuel in Ep.
  - pose proof (error_recovery_not_OutOfFuel (mkToken type_ value_ start_pos prefix)).
    destruct (error_recovery self _) as [[]| |]; try discriminate. congruence.
Qed.

Lemma add_token_not_OutOfFuel fuel token st st' :
  2 * length (_tokens (tokens_proxy st))
    + held (_release_ranges (tokens_proxy st)) + 3 <= fuel ->
  _add_token self fuel token st <> (OutOfFuel, st').
Proof.
  intros Hf. unfold _add_token.
  destruct (find_plan self _ fuel token st) as [[[plan|]|e|] st1] eqn:Ef;
    try discriminate.
  - destruct (stack st1) as [|tos below]; [discriminate|].
    destruct (push_all _ _); discriminate.
  - apply find_plan_not_OutOfFuel in Ef; [contradiction | lia | exact Hf].
Qed.

Lemma reduce_all_not_OutOfFuel n : forall token stack_ stack',
  length stack_ < n -> reduce_all self n token stack_ <> (OutOfFuel, stack').
Proof.
  induction n as [|n IH]; intros token stack_ stack' Hn; [lia|].
  simpl. destruct stack_ as [|tos below]; [discriminate|].
  destruct (negb _); [destruct token; discriminate|].
  destruct (1 <? length (tos :: below)); [|discriminate].
  destruct (_pop self (tos :: below)) as [[[]|e|] s1] eqn:Ep.
  - apply IH. apply pop_length in Ep. simpl in *. lia.
  - discriminate.
  - now apply pop_not_OutOfFuel in Ep.
Qed.

Lemma feed_tokens_not_OutOfFuel fuel : forall last_token st n st',
  (exists rest, good grammar st rest /\ length rest <= n) \/
  (exists cached, stuck (tokens_proxy st) cached /\ length cached <= n) ->
  n + 2 * length (_tokens (tokens_proxy st))
    + held (_release_ranges (tokens_proxy st)) + 3 <= fuel ->
  feed_tokens self fuel last_token st <> (OutOfFuel, st').
Proof.
  induction fuel as [|fuel IH]; intros last_token st n st' Hmode Hf; [lia|].
  simpl. destruct st as [stack_ [raw c rs]].
  cbn [stack tokens_proxy _tokens _release_ranges] in *.
  assert (Hstep : forall t px1 cached1 n1,
    conserves (mkProxy raw c rs) px1 \/
      (exists raw', raw = t :: raw' /\ px1 = mkProxy raw' (c + 1) rs) ->
    S n1 <= n ->
    (stuck px1 cached1 /\ length cached1 <= n1) \/
    (synced px1 cached1 /\ length cached1 + length (_tokens px1) <= n1 /\
     (_tokens px1 = [] \/ cached1 = [] \/
      exists p pend below,
        map dfa stack_ = rev (dfa_pushes p) ++ below /\
        chain grammar p (t :: cached1) pend)) ->
    match _add_token self (S fuel) t (mkState stack_ px1) with
    | (Ret tt, st1) =>
        feed_tokens self fuel (Some t) st1
    | (Raise e, st1) => (Raise e, st1)
    | (OutOfFuel, st1) => (OutOfFuel, st1)
    end <> (OutOfFuel, st')).
  { intros t px1 cached1 n1 Hcons Hn1 Hm.
    assert (Hb1 : length (_tokens px1) + (length (_tokens px1)
                    + held (_release_ranges px1)) <= 2 * length raw + held rs).
    { destruct Hcons as [[A B]|(raw' & -> & ->)]; simpl in *; lia. }
    destruct (_add_token self (S fuel) t _) as [[[]|e|] st1] eqn:Ea.
    - pose proof (add_token_conserves _ _ _ _ _ Ea) as [Hc1 Hc2].
      cbn [tokens_proxy] in Hc1, Hc2.
      apply IH with (n := n1); [|lia].
      destruct Hm as [[Hst Hlen]|(Hsy & Hlen & Hcase)].
      + right. exists cached1. split; [|exact Hlen].
        apply add_token_appends in Ea. eapply appends_stuck; eauto.
      + apply add_token_good with (cached := cached1) in Ea; auto.
        destruct Ea as [_ [Hst|Hg]].
        * right. exists cached1. split; [exact Hst | lia].
        * left. eexists. split; [exact Hg|]. rewrite length_app. lia.
    - discriminate.
    - apply add_token_not_OutOfFuel in Ea; [contradiction|].
      cbn [tokens_proxy]. lia. }
  destruct Hmode as [(rest & (cached & Hrest & Hsync & Hprom) & Hlen)
                    |(cached & Hst & Hlen)];
    cbn [stack tokens_proxy _tokens] in *.
  - rewrite (next_synced _ _ Hsync). cbn [_tokens _counter _release_ranges].
    subst rest. rewrite length_app in Hlen.
    destruct cached as [|t cached].
    + destruct raw as [|t raw']; [discriminate|].
      apply Hstep with (cached1 := []) (n1 := n - 1).
      * right. eauto.
      * simpl in Hlen. lia.
      * right. split; [eapply synced_advance_nil; eauto|].
        simpl in *. split; [lia | auto].
    + apply Hstep with (cached1 := cached) (n1 := n - 1).
      * left. split; simpl; lia.
      * simpl in Hlen. lia.
      * right. split; [eapply synced_advance; eauto|].
        simpl in *. split; [lia|].
        destruct Hprom as [Hraw|[Hnil|Hch]]; auto; discriminate.
  - pose proof (next_stuck _ _ Hst) as Hn.
    destruct cached as [|t cached].
    + rewrite Hn. discriminate.
    + destruct Hn as [-> Hst']. cbn [_tokens _counter _release_ranges] in *.
      apply Hstep with (cached1 := cached) (n1 := n - 1).
      * left. split; simpl; lia.
      * simpl in Hlen. lia.
      * left. split; [exact Hst' | simpl in Hlen; lia].
Qed.

(** With fuel above three times the number of tokens, [parse] returns a
    tree or raises an exception. *)
Theorem parse_not_OutOfFuel fuel tokens :
  3 * length tokens + 3 <= fuel -> parse self fuel tokens <> OutOfFuel.
Proof.
  intros Hf. unfold parse.
  destruct (dict_get _ _ _) as [[|first_dfa others]|]; try discriminate.
  destruct (feed_tokens _ _ _ _) as [[token|e|] st'] eqn:Ef; try discriminate.
  - destruct (reduce_all _ _ _ _) as [res s1] eqn:Er. simpl. intros ->.
    apply reduce_all_not_OutOfFuel in Er; [contradiction | lia].
  - exfalso. revert Ef.
    apply feed_tokens_not_OutOfFuel with (n := length tokens).
    + left. exists tokens. split; [|lia].
      exists []. split; [reflexivity|]. split.
      * intros k. simpl. now destruct k.
      * right. now left.
    + simpl. unfold held. simpl. lia.
Qed.
End ParseReturns.

(* ===================================================================== *)
(** * The statements of the specification *)
(* ===================================================================== *)

(* --------------------------------------------------------------------- *)
(** ** Round trip *)

(** C1.  Whenever [parse] returns a tree, the leaves of the tree, read left
    to right, are exactly the leaves that [convert_leaf] builds for the
    tokens of the source, one per token and in the order of the source; so
    the leaves' prefix followed by their text, concatenated, give back the
    input text. *)
Theorem C1_round_trip :
  forall (self : BaseParser) (fuel : nat) (tokens : list Token)
         (result : NodeOrLeaf),
    parse self fuel tokens = Ret result ->
    leaves result = map leaf_of tokens /\
    get_code result = source_code tokens.
Proof.
  intros self fuel tokens result H.
  apply parse_leaves in H. split; [exact H|].
  unfold get_code, source_code. rewrite H, map_map. reflexivity.
Qed.

(** The theorem at the input [k = x] of [keyword_grammar]. *)
Lemma C1_round_trip_witness :
  parse keyword_parser 20
    [name_token "k" 0; op_token "=" 2; name_token "x" 4]
  = Ret (Node "S" [Node "assign" [Leaf "k" (1, 0) " "; Leaf "=" (1, 2) " ";
                                  Leaf "x" (1, 4) " "]]) /\
  (leaves (Node "S" [Node "assign" [Leaf "k" (1, 0) " "; Leaf "=" (1, 2) " ";
                                    Leaf "x" (1, 4) " "]])
   = map leaf_of [name_token "k" 0; op_token "=" 2; name_token "x" 4] /\
   get_code (Node "S" [Node "assign" [Leaf "k" (1, 0) " "; Leaf "=" (1, 2) " ";
                                      Leaf "x" (1, 4) " "]])
   = source_code [name_token "k" 0; op_token "=" 2; name_token "x" 4]).
Proof.
  split; [reflexivity|].
  apply (C1_round_trip keyword_parser 20); reflexivity.
Defined.

(* --------------------------------------------------------------------- *)
(** ** The tie-break of the resolver *)

(** C2, as stated, fails.  In [two_readings_grammar] the initial state
    registers the key [NAME] before the key of the soft keyword [k].  For
    the input [k x] both candidates match the lookahead token [x], the
    source ends, and both chains have length two; the resolver returns the
    plan of the keyword, not the plan of the key that the table registers
    first. *)
Lemma C2_table_order_counterexample :
  transitions (dfa_states two_readings_grammar 0)
  = [(TType NAME, name_reading); (TReserved soft_k, keyword_reading)] /\
  _token_to_transition two_readings_grammar NAME "k"
  = [TReserved soft_k; TType NAME] /\
  spec_first_registered [TReserved soft_k; TType NAME]
    (transitions (dfa_states two_readings_grammar 0)) = Some name_reading /\
  lookahead_loop two_readings_grammar
    (get_possible_plan 19 two_readings_grammar) 19 0
    (new_plan_table
       (collect_plans [TReserved soft_k; TType NAME]
                      (transitions (dfa_states two_readings_grammar 0))))
    [] (release_enter (mkProxy [name_token "x" 2] 1 []))
  = (Ret [(keyword_reading, [keyword_reading; mkDFAPlan 3 4 []]);
          (name_reading, [name_reading; mkDFAPlan 4 5 []])],
     mkProxy [] 1 [mkRange 1 None [name_token "x" 2]]) /\
  get_possible_plan 20 two_readings_grammar [TReserved soft_k; TType NAME]
    (transitions (dfa_states two_readings_grammar 0))
    (mkProxy [name_token "x" 2] 1 [])
  = (Ret (Some keyword_reading),
     mkProxy [] 1 [mkRange 1 (Some 2) [name_token "x" 2]]) /\
  Some keyword_reading
  <> spec_first_registered [TReserved soft_k; TType NAME]
       (transitions (dfa_states two_readings_grammar 0)).
Proof. repeat split; try reflexivity. discriminate. Qed.

(** C2, amended.  For a soft keyword, whose candidate keys are the
    reserved string and then the token type, with two different plans in
    the table, and with fuel enough for the tokens at hand: the lookahead
    ends with the reserved string's plan first in its table, whatever the
    order of the keys in the state's table, and the resolver returns the
    plan with the longer chain of matched plans; on a tie it returns the
    reserved string's plan. *)
Theorem C2_tie_break_by_candidate_order :
  forall (grammar : Grammar) (fuel : nat) (reserved : ReservedString)
         (type_ : TokenType) (table : TransitionTable)
         (px : TokenGeneratorProxy) (pa pb : DFAPlan),
    dict_get Transition_eq_dec (TReserved reserved) table = Some pa ->
    dict_get Transition_eq_dec (TType type_) table = Some pb ->
    pa <> pb ->
    2 * length (_tokens px) + held (_release_ranges px) + 3 <= fuel ->
    exists branch_a branch_b px1,
      lookahead_loop grammar (get_possible_plan (pred fuel) grammar) (pred fuel) 0
        [(pa, [pa]); (pb, [pb])] [] (release_enter px)
      = (Ret [(pa, branch_a); (pb, branch_b)], px1) /\
      get_possible_plan fuel grammar [TReserved reserved; TType type_] table px
      = (Ret (Some (if length branch_a <? length branch_b then pb else pa)),
         release_exit px1).
Proof.
  intros grammar fuel reserved type_ table px pa pb Ha Hb Hne Hf.
  destruct (get_possible_plan_returns grammar fuel
              [TReserved reserved; TType type_] table px Hf) as (r & px' & H).
  rewrite H.
  destruct fuel as [|fuel]; simpl in H; rewrite Ha, Hb in H; [discriminate|].
  unfold new_plan_table in H. simpl in H.
  destruct (DFAPlan_eq_dec pb pa) as [Heq|_]; [congruence|].
  simpl.
  destruct (lookahead_loop _ _ _ _ _ _ _) as [[tableF| |] px1] eqn:El; try discriminate.
  pose proof (lookahead_loop_keys _ _ _ _ _ _ _ _ _ El) as Hk.
  destruct tableF as [|[o1 b1] [|[o2 b2] [|? ?]]]; try discriminate.
  simpl in Hk. injection Hk as -> ->.
  injection H as H <-.
  exists b1, b2, px1. split; [reflexivity|].
  unfold superior_plan in H. simpl in H.
  destruct (length b1 <? length b2); rewrite orb_true_r in H;
    now injection H as <-.
Qed.

(** The theorem at the initial state of [two_readings_grammar], for the
    input [k x]. *)
Lemma C2_tie_break_by_candidate_order_witness :
  dict_get Transition_eq_dec (TReserved soft_k)
           (transitions (dfa_states two_readings_grammar 0))
    = Some keyword_reading /\
  dict_get Transition_eq_dec (TType NAME)
           (transitions (dfa_states two_readings_grammar 0))
    = Some name_reading /\
  keyword_reading <> name_reading /\
  2 * length (_tokens (mkProxy [name_token "x" 2] 1 []))
    + held (_release_ranges (mkProxy [name_token "x" 2] 1 [])) + 3 <= 20 /\
  exists branch_a branch_b px1,
    lookahead_loop two_readings_grammar
      (get_possible_plan (pred 20) two_readings_grammar) (pred 20) 0
      [(keyword_reading, [keyword_reading]); (name_reading, [name_reading])] []
      (release_enter (mkProxy [name_token "x" 2] 1 []))
    = (Ret [(keyword_reading, branch_a); (name_reading, branch_b)], px1) /\
    get_possible_plan 20 two_readings_grammar [TReserved soft_k; TType NAME]
      (transitions (dfa_states two_readings_grammar 0))
      (mkProxy [name_token "x" 2] 1 [])
    = (Ret (Some (if length branch_a <? length branch_b
                  then name_reading else keyword_reading)),
       release_exit px1).
Proof.
  split; [reflexivity|]. split; [reflexivity|]. split; [discriminate|].
  split; [vm_compute; lia|].
  apply (C2_tie_break_by_candidate_order two_readings_grammar 20 soft_k NAME
           (transitions (dfa_states two_readings_grammar 0))
           (mkProxy [name_token "x" 2] 1 []) keyword_reading name_reading);
    [reflexivity | reflexivity | discriminate | vm_compute; lia].
Defined.

(* --------------------------------------------------------------------- *)
(** ** What the resolver pulls and leaves behind *)

(** C3, the code at two inputs.  (a) In [nested_grammar] the lookahead for a
    leading [k] meets a second [k] whose lookup is ambiguous in turn: the
    resolver returns a plan, but the range of the outer scope is left open,
    the next call of [__next__] raises [AssertionError], and so does
    [parse]: the peeked tokens are not available afterwards.  (b) In
    [tie_grammar] both candidates are dead after the first peeked token
    [a]; the resolver still pulls every token of the source. *)
Theorem C3_resolver_failing_inputs :
  (parse nested_parser 20
     [name_token "k" 0; name_token "k" 2; name_token "x" 4; name_token "y" 6]
   = Raise AssertionError /\
   exists px',
     get_possible_plan 20 nested_grammar
       (_token_to_transition nested_grammar NAME "k")
       (transitions (dfa_states nested_grammar 0))
       (mkProxy [name_token "k" 2; name_token "x" 4; name_token "y" 6] 1 [])
     = (Ret (Some (mkDFAPlan 1 1 [2])), px') /\
     _release_ranges px' =
       [mkRange 1 None [name_token "k" 2];
        mkRange 1 (Some 3) [name_token "x" 4; name_token "y" 6]] /\
     next px' = (Raise AssertionError, px')) /\
  (advance_plans tie_grammar (get_possible_plan 19 tie_grammar)
     (_token_to_transition tie_grammar NAME "a")
     [(plan_keyword, [plan_keyword]); (plan_name, [plan_name])] []
     (mkProxy [name_token "b" 4; name_token "c" 6] 1
              [mkRange 1 None [name_token "a" 2]])
   = (Ret ([(plan_keyword, [plan_keyword]); (plan_name, [plan_name])],
           [plan_name; plan_keyword]),
      mkProxy [name_token "b" 4; name_token "c" 6] 1
              [mkRange 1 None [name_token "a" 2]]) /\
   get_possible_plan 20 tie_grammar
     (_token_to_transition tie_grammar NAME "k")
     (transitions (dfa_states tie_grammar 0))
     (mkProxy [name_token "a" 2; name_token "b" 4; name_token "c" 6] 1 [])
   = (Ret (Some plan_keyword),
      mkProxy [] 1
        [mkRange 1 (Some 4)
                 [name_token "a" 2; name_token "b" 4; name_token "c" 6]])).
Proof.
  split.
  - split; [reflexivity|]. eexists. split; [reflexivity|]. split; reflexivity.
  - split; reflexivity.
Qed.


(* --------------------------------------------------------------------- *)
(** ** Abandoned speculation *)

(** C4, the code at a failing input.  In [pending_state] the token [t1] is
    cached and not yet consumed, and [t2], [t3] are still to come from the
    generator.  Opening a scope, peeking at offset 0 and closing the scope
    pulls [t2] into the new range; the calls of [__next__] that follow
    return [t1] and then [t3]: [t2] is dropped. *)
Theorem C4_speculation_drops_a_pending_token :
  pending_state =
    mkProxy [name_token "t2" 6; name_token "t3" 9] 1
            [mkRange 0 (Some 2) [name_token "t0" 0; name_token "t1" 3]] /\
  next_tokens 4 pending_state =
    [Ret (name_token "t1" 3); Ret (name_token "t2" 6); Ret (name_token "t3" 9);
     Raise StopIteration] /\
  can_advance 0 (release_enter pending_state) =
    (Ret true,
     mkProxy [name_token "t3" 9] 1
             [mkRange 0 (Some 2) [name_token "t0" 0; name_token "t1" 3];
              mkRange 1 None [name_token "t2" 6]]) /\
  next_tokens 4 (speculate 0 pending_state) =
    [Ret (name_token "t1" 3); Ret (name_token "t3" 9); Raise StopIteration;
     Raise StopIteration].
Proof. repeat split; reflexivity. Qed.

(* --------------------------------------------------------------------- *)
(** ** Nested scopes *)

(** C5, the code at a failing input.  The outer scope, opened at counter 1,
    caches [t1].  A peek at offset 0 in a scope opened inside it does not
    consult the outer cache: it pulls [t2] from the generator.  Leaving
    both scopes closes the inner range twice and the outer range never, so
    the next call of [__next__] raises [AssertionError]; without the inner
    scope it would have returned [t1], [t2], [t3].  The engine meets this
    with [nested_grammar], where the resolver calls itself: [parse] raises
    [AssertionError]. *)
Theorem C5_nested_scope_failing_input :
  _release_ranges outer_scope = [mkRange 1 None [name_token "t1" 3]] /\
  _counter inner_scope = 1 /\
  eat 0 inner_scope =
    (Ret (name_token "t2" 6),
     mkProxy [name_token "t3" 9] 1
             [mkRange 1 None [name_token "t1" 3];
              mkRange 1 None [name_token "t2" 6]]) /\
  _release_ranges both_closed =
    [mkRange 1 None [name_token "t1" 3];
     mkRange 1 (Some 2) [name_token "t2" 6]] /\
  next both_closed = (Raise AssertionError, both_closed) /\
  next_tokens 3 (release_exit outer_scope) =
    [Ret (name_token "t1" 3); Ret (name_token "t2" 6); Ret (name_token "t3" 9)] /\
  parse nested_parser 20
    [name_token "k" 0; name_token "k" 2; name_token "x" 4; name_token "y" 6]
  = Raise AssertionError.
Proof. repeat split; reflexivity. Qed.


(* --------------------------------------------------------------------- *)
(** ** Single children *)

(** C6, the code at a failing input.  The frame of [expr_stmt] that holds
    the single child [x] is reduced to that child: the result of parsing
    [x] holds no [expr_stmt] node, although the comment in [_pop] names
    [expr_stmt] as a rule that is still created.  With three children the
    node is built. *)
Theorem C6_expr_stmt_with_one_child_is_elided :
  from_rule (dfa_states statement_grammar 4) = "expr_stmt" /\
  _pop statement_parser
    [mkStackNode 4 [Leaf "x" (1, 0) " "]; mkStackNode 1 []]
  = (Ret tt, [mkStackNode 1 [Leaf "x" (1, 0) " "]]) /\
  parse statement_parser 20 [name_token "x" 0; endmarker_token 1]
  = Ret (Node "file_input" [Leaf "x" (1, 0) " "; Leaf EmptyString (1, 1) EmptyString]) /\
  parse statement_parser 20
    [name_token "x" 0; op_token "=" 2; name_token "y" 4; endmarker_token 5]
  = Ret (Node "file_input"
           [Node "expr_stmt" [Leaf "x" (1, 0) " "; Leaf "=" (1, 2) " ";
                              Leaf "y" (1, 4) " "];
            Leaf EmptyString (1, 5) EmptyString]).
Proof. repeat split; reflexivity. Qed.

(* --------------------------------------------------------------------- *)
(** ** The result of a successful parse *)

(** C7, as stated, fails.  An input of one token parses to a node that
    wraps the token's leaf, not to the leaf. *)
Lemma C7_single_symbol_counterexample :
  parse single_name_parser 20 [name_token "x" 0]
    = Ret (Node "S" [Leaf "x" (1, 0) " "]) /\
  parse single_name_parser 20 [name_token "x" 0]
    <> Ret (leaf_of (name_token "x" 0)).
Proof. split; [reflexivity | discriminate]. Qed.

(** C7, amended.  On success [parse] returns a [Node]: its name is the
    rule of the start rule's initial state, provided every transition of
    the grammar keeps a cursor within its rule, and the leaves of its
    children are the leaves of the tokens, in order.  It is a node also
    when the input collapsed to one symbol. *)
Theorem C7_parse_returns_root_node :
  forall (self : BaseParser) (fuel : nat) (tokens : list Token)
         (result : NodeOrLeaf),
    (forall d tr plan,
        In (tr, plan) (transitions (dfa_states (_pgen_grammar self) d)) ->
        from_rule (dfa_states (_pgen_grammar self) (next_dfa plan)) =
        from_rule (dfa_states (_pgen_grammar self) d)) ->
    parse self fuel tokens = Ret result ->
    exists first_dfa others children,
      dict_get string_dec (_start_nonterminal self)
               (nonterminal_to_dfas (_pgen_grammar self))
        = Some (first_dfa :: others) /\
      result = Node (from_rule (dfa_states (_pgen_grammar self) first_dfa))
                    children /\
      flat_map leaves children = map leaf_of tokens.
Proof.
  intros self fuel tokens result Hrule H.
  destruct (parse_success_is_root_node self Hrule fuel tokens result H)
    as (first_dfa & others & children & Hd & ->).
  exists first_dfa, others, children. repeat split; auto.
  now apply parse_leaves in H.
Qed.

(** The theorem at the input [x] of [single_name_grammar]. *)
Lemma C7_parse_returns_root_node_witness :
  (forall d tr plan,
      In (tr, plan) (transitions (dfa_states (_pgen_grammar single_name_parser) d)) ->
      from_rule (dfa_states (_pgen_grammar single_name_parser) (next_dfa plan)) =
      from_rule (dfa_states (_pgen_grammar single_name_parser) d)) /\
  parse single_name_parser 20 [name_token "x" 0]
    = Ret (Node "S" [Leaf "x" (1, 0) " "]) /\
  exists first_dfa others children,
    dict_get string_dec (_start_nonterminal single_name_parser)
             (nonterminal_to_dfas (_pgen_grammar single_name_parser))
      = Some (first_dfa :: others) /\
    Node "S" [Leaf "x" (1, 0) " "]
      = Node (from_rule (dfa_states (_pgen_grammar single_name_parser) first_dfa))
             children /\
    flat_map leaves children = map leaf_of [name_token "x" 0].
Proof.
  assert (Hrule : forall d tr plan,
      In (tr, plan) (transitions (dfa_states (_pgen_grammar single_name_parser) d)) ->
      from_rule (dfa_states (_pgen_grammar single_name_parser) (next_dfa plan)) =
      from_rule (dfa_states (_pgen_grammar single_name_parser) d)).
  { intros [|[|d]] tr plan; simpl; intros Hin; try contradiction.
    destruct Hin as [Heq|[]]. injection Heq as _ <-. reflexivity. }
  split; [exact Hrule|]. split; [reflexivity|].
  apply (C7_parse_returns_root_node single_name_parser 20 [name_token "x" 0]);
    [exact Hrule | reflexivity].
Defined.


(* --------------------------------------------------------------------- *)
(** ** Incomplete input *)

(** C8, the code at two failing inputs.  With an empty token source and a
    start state that is not final, [parse] raises [UnboundLocalError]: the
    loop variable [token] was never bound.  With the source [x] for the
    grammar [S: NAME NAME], [parse] raises the [InternalParseError]
    "incomplete input" whose message and attributes [value] and
    [start_pos] are those of [x], but whose attribute [type] is the
    builtin [type]; no [InternalParseError] built by [__init__] holds the
    token type in that attribute. *)
Theorem C8_incomplete_input_failing_inputs :
  is_final (dfa_states single_name_grammar 0) = false /\
  parse single_name_parser 20 [] = Raise UnboundLocalError /\
  parse two_names_parser 20 [name_token "x" 0]
  = Raise (InternalParseError
             {| message_args := ("incomplete input", "NAME", "x", (1, 0));
                ipe_msg := "incomplete input";
                ipe_type := BuiltinType;
                ipe_value := "x";
                ipe_start_pos := (1, 0) |}) /\
  forall msg type_ value_ start_pos e,
    new_InternalParseError msg type_ value_ start_pos = InternalParseError e ->
    ipe_type e <> TokenTypeObject type_.
Proof.
  repeat split; try reflexivity.
  intros msg type_ value_ start_pos e H. injection H as <-. discriminate.
Qed.

(* --------------------------------------------------------------------- *)
(** ** Syntax errors *)

(** C9.  With error recovery disabled, if the token finds no plan in the
    table of the top frame and that frame's state is not final, then
    [_add_token] raises [ParserSyntaxError] with the error leaf built from
    the token's type, text, start position and prefix, leaving the stack
    and the proxy as they are; and the loop of [parse] that has just drawn
    that token stops with this exception. *)
Theorem C9_no_transition_nonfinal_raises_SyntaxError :
  forall (self : BaseParser) (fuel : nat) (token : Token)
         (tos : StackNode) (below : list StackNode)
         (px0 px : TokenGeneratorProxy) (last_token : option Token),
    _error_recovery self = false ->
    collect_plans
      (_token_to_transition (_pgen_grammar self) (tok_type token)
                            (tok_string token))
      (transitions (dfa_states (_pgen_grammar self) (dfa tos))) = [] ->
    is_final (dfa_states (_pgen_grammar self) (dfa tos)) = false ->
    next px0 = (Ret token, px) ->
    let error :=
      ParserSyntaxError "SyntaxError: invalid syntax"
        (ErrorLeaf (tok_type token) (tok_string token)
                   (tok_start_pos token) (tok_prefix token)) in
    _add_token self fuel token (mkState (tos :: below) px)
      = (Raise error, mkState (tos :: below) px) /\
    feed_tokens self (S fuel) last_token (mkState (tos :: below) px0)
      = (Raise error, mkState (tos :: below) px).
Proof.
  intros self fuel token tos below px0 px last_token Her Hnone Hnf Hnext error.
  assert (Ha : forall f, _add_token self f token (mkState (tos :: below) px)
                         = (Raise error, mkState (tos :: below) px)).
  { intros f. now apply add_token_no_transition_nonfinal. }
  split; [apply Ha|].
  cbn [feed_tokens tokens_proxy stack]. rewrite Hnext, Ha. reflexivity.
Qed.

(** The theorem at an [ENDMARKER] met in the initial state of
    [single_name_grammar]. *)
Lemma C9_no_transition_nonfinal_raises_SyntaxError_witness :
  _error_recovery single_name_parser = false /\
  collect_plans
    (_token_to_transition (_pgen_grammar single_name_parser)
       (tok_type (endmarker_token 0)) (tok_string (endmarker_token 0)))
    (transitions (dfa_states (_pgen_grammar single_name_parser)
                             (dfa (mkStackNode 0 [])))) = [] /\
  is_final (dfa_states (_pgen_grammar single_name_parser)
                       (dfa (mkStackNode 0 []))) = false /\
  next (new_proxy [endmarker_token 0])
    = (Ret (endmarker_token 0), mkProxy [] 1 []) /\
  (_add_token single_name_parser 20 (endmarker_token 0)
     (mkState [mkStackNode 0 []] (mkProxy [] 1 []))
   = (Raise (ParserSyntaxError "SyntaxError: invalid syntax"
               (ErrorLeaf ENDMARKER EmptyString (1, 0) EmptyString)),
      mkState [mkStackNode 0 []] (mkProxy [] 1 [])) /\
   feed_tokens single_name_parser 21 None
     (mkState [mkStackNode 0 []] (new_proxy [endmarker_token 0]))
   = (Raise (ParserSyntaxError "SyntaxError: invalid syntax"
               (ErrorLeaf ENDMARKER EmptyString (1, 0) EmptyString)),
      mkState [mkStackNode 0 []] (mkProxy [] 1 []))).
Proof.
  split; [reflexivity|]. split; [reflexivity|]. split; [reflexivity|].
  split; [reflexivity|].
  apply (C9_no_transition_nonfinal_raises_SyntaxError single_name_parser 20
           (endmarker_token 0) (mkStackNode 0 []) []
           (new_proxy [endmarker_token 0]) (mkProxy [] 1 []) None);
    reflexivity.
Defined.


(* --------------------------------------------------------------------- *)
(** ** Too much input *)

(** C10, the code at a failing input.  After [x], the only frame of
    [single_name_grammar] is in a final state, and the token [y] finds no
    plan in it.  [_pop] removes the frame and raises [IndexError] on the
    empty stack, inside the [except KeyError] block; the exception leaves
    [_add_token] and [parse] as it is, not as an [InternalParseError]. *)
Theorem C10_too_much_input_escapes_as_IndexError :
  is_final (dfa_states single_name_grammar 1) = true /\
  collect_plans (_token_to_transition single_name_grammar NAME "y")
                (transitions (dfa_states single_name_grammar 1)) = [] /\
  _add_token single_name_parser 20 (name_token "y" 2)
    (mkState [mkStackNode 1 [Leaf "x" (1, 0) " "]] (mkProxy [] 2 []))
  = (Raise IndexError, mkState [] (mkProxy [] 2 [])) /\
  parse single_name_parser 20 [name_token "x" 0; name_token "y" 2]
  = Raise IndexError.
Proof. repeat split; reflexivity. Qed.

(* ===================================================================== *)
(** * Further properties of the code *)
(* ===================================================================== *)

(* --------------------------------------------------------------------- *)
(** ** The proxy on its own *)

Lemma plain_stream_nil n : plain_stream n [] = repeat (Raise StopIteration) n.
Proof. unfold plain_stream. now rewrite firstn_nil, Nat.sub_0_r. Qed.

Lemma plain_stream_cons n t l :
  plain_stream (S n) (t :: l) = Ret t :: plain_stream n l.
Proof. reflexivity. Qed.

(** [next] replays the pending cached tokens, then turns to the
    generator. *)
Lemma next_tokens_synced n : forall px cached,
  synced px cached ->
  next_tokens n px = plain_stream n (cached ++ _tokens px).
Proof.
  induction n as [|n IH]; intros px cached Hs; [reflexivity|].
  cbn [next_tokens]. rewrite (next_synced _ _ Hs).
  destruct px as [raw c rs]. cbn [_tokens _counter _release_ranges] in *.
  destruct cached as [|t cached].
  - destruct raw as [|t raw'].
    + rewrite (IH _ [] Hs). cbn [app _tokens].
      now rewrite !plain_stream_nil.
    + cbn [app]. rewrite plain_stream_cons. f_equal.
      rewrite (IH _ []); [reflexivity|]. eapply synced_advance_nil; eauto.
  - cbn [app]. rewrite plain_stream_cons. f_equal.
    rewrite (IH _ cached); [reflexivity|]. eapply synced_advance; eauto.
Qed.

Lemma drained_synced px : drained px = true -> synced px [].
Proof.
  unfold drained, synced. destruct px as [raw c rs]. cbn [_counter _release_ranges].
  intros H k. replace (nth_error [] k) with (@None Token) by now destruct k.
  induction rs as [|r rs IH]; [reflexivity|].
  cbn [forallb] in H. apply andb_prop in H. destruct H as [Hr H].
  cbn [scan_ranges]. destruct (rr_end r) as [e|]; [|discriminate].
  apply Nat.leb_le in Hr.
  replace (c + k <? e) with false by (symmetry; apply Nat.ltb_ge; lia).
  rewrite andb_false_r. auto.
Qed.

Lemma eat_pull_spec point : forall src eaten,
  length eaten <= point ->
  eat_pull point eaten src =
  match nth_error (eaten ++ src) point with
  | Some token =>
      (Ret token, eaten ++ firstn (S point - length eaten) src,
       skipn (S point - length eaten) src)
  | None => (Raise StopIteration, eaten ++ src, [])
  end.
Proof.
  induction src as [|t src IH]; intros eaten Hl; cbn [eat_pull].
  - rewrite app_nil_r.
    replace (nth_error eaten point) with (@None Token)
      by (symmetry; apply nth_error_None; lia).
    reflexivity.
  - destruct (length (eaten ++ [t]) <=? point) eqn:E.
    + apply Nat.leb_le in E. rewrite (IH _ E), <- app_assoc. cbn [app].
      rewrite length_app in *. cbn [length] in *.
      replace (S point - length eaten)
        with (S (S point - (length eaten + 1))) by lia.
      cbn [firstn skipn].
      destruct (nth_error _ _); [|reflexivity].
      now rewrite <- app_assoc.
    + apply Nat.leb_gt in E. rewrite length_app in E. cbn [length] in E.
      assert (Hp : point = length eaten) by lia. subst point.
      rewrite nth_error_app2, Nat.sub_diag by lia. cbn [nth_error].
      replace (S (length eaten) - length eaten) with 1 by lia.
      reflexivity.
Qed.

Lemma eat_spec raw c rs r point :
  eat point (mkProxy raw c (rs ++ [r])) =
  match nth_error (rr_tokens r ++ raw) point with
  | Some token =>
      (Ret token,
       mkProxy (skipn (S point - length (rr_tokens r)) raw) c
         (rs ++ [mkRange (rr_start r) (rr_end r)
                   (rr_tokens r ++
                      firstn (S point - length (rr_tokens r)) raw)]))
  | None =>
      (Raise StopIteration,
       mkProxy [] c
         (rs ++ [mkRange (rr_start r) (rr_end r) (rr_tokens r ++ raw)]))
  end.
Proof.
  unfold eat. cbn [_release_ranges _tokens _counter].
  rewrite last_opt_app.
  destruct (point <? length (rr_tokens r)) eqn:E.
  - apply Nat.ltb_lt in E. rewrite nth_error_app1 by exact E.
    destruct (nth_error (rr_tokens r) point) as [token|] eqn:En.
    + replace (S point - length (rr_tokens r)) with 0 by lia.
      cbn [firstn skipn]. rewrite app_nil_r. now destruct r.
    + apply nth_error_None in En. lia.
  - apply Nat.ltb_ge in E. rewrite (eat_pull_spec _ _ _ E).
    destruct (nth_error _ _); now rewrite update_last_app.
Qed.

(* --------------------------------------------------------------------- *)
(** *** Iterating a proxy that has not been peeked into *)

(** X1.  A proxy without release ranges hands out the tokens of its
    generator one by one, in order, and then raises [StopIteration]. *)
Theorem proxy_iterates_the_source (tokens : list Token) (counter : nat) :
  next_tokens (S (length tokens)) (mkProxy tokens counter [])
  = map (fun token => Ret token) tokens ++ [Raise StopIteration].
Proof.
  rewrite (next_tokens_synced _ _ []).
  - cbn [app _tokens]. unfold plain_stream.
    rewrite firstn_all2 by lia.
    now replace (S (length tokens) - length tokens) with 1 by lia.
  - intros k. cbn. now destruct k.
Qed.

(* --------------------------------------------------------------------- *)
(** *** [eat] *)

(** X2.  In a scope, which is the last range, [eat(point)] returns the
    token at offset [point] of the scope's cached tokens followed by the
    tokens still in the generator.  It moves the tokens up to that offset
    from the generator to the end of the cache, none when the offset is
    cached already.  When there is no such token it raises [StopIteration]
    and all the remaining tokens are in the cache.  The counter, the other
    ranges and the scope's start and end stay as they are. *)
Theorem eat_returns_the_token_at_its_offset
    (generator : list Token) (counter : nat)
    (ranges : list ReleaseRange) (scope : ReleaseRange) (point : nat) :
  eat point (mkProxy generator counter (ranges ++ [scope])) =
  match nth_error (rr_tokens scope ++ generator) point with
  | Some token =>
      (Ret token,
       mkProxy (skipn (S point - length (rr_tokens scope)) generator) counter
         (ranges ++
            [mkRange (rr_start scope) (rr_end scope)
               (rr_tokens scope ++
                  firstn (S point - length (rr_tokens scope)) generator)]))
  | None =>
      (Raise StopIteration,
       mkProxy [] counter
         (ranges ++
            [mkRange (rr_start scope) (rr_end scope)
               (rr_tokens scope ++ generator)]))
  end.
Proof. apply eat_spec. Qed.

(** X3.  [eat(point)] called again right after [eat(point)] has the same
    outcome and leaves the proxy as the first call left it. *)
Theorem eat_is_cached (point : nat) (px : TokenGeneratorProxy) :
  eat point (snd (eat point px)) = eat point px.
Proof.
  destruct px as [raw c rs].
  destruct (last_opt rs) as [r|] eqn:El.
  - apply last_opt_Some in El. destruct El as (rs0 & ->).
    rewrite eat_spec.
    destruct (nth_error (rr_tokens r ++ raw) point) as [token|] eqn:En;
      cbn [snd]; rewrite eat_spec; cbn [rr_tokens rr_start rr_end].
    + rewrite <- app_assoc, firstn_skipn, En.
      assert (Hp : point < length (rr_tokens r ++ raw))
        by (apply nth_error_Some; congruence).
      rewrite length_app in Hp.
      replace (S point - length (rr_tokens r ++ firstn _ raw)) with 0
        by (rewrite length_app, length_firstn; lia).
      cbn [firstn skipn]. now rewrite app_nil_r.
    + rewrite !app_nil_r, En. reflexivity.
  - unfold eat. cbn [_release_ranges]. rewrite El. cbn [snd _release_ranges].
    now rewrite El.
Qed.

(* --------------------------------------------------------------------- *)
(** *** [can_advance] *)

(** X4.  In a scope [can_advance(to)] raises nothing: it returns [True]
    exactly when the scope's cache and the generator together hold more
    than [to] tokens, and leaves the proxy as [eat(to)] leaves it.  No token
    is lost, also when the answer is [False]: the tokens of the ranges
    followed by the tokens of the generator are the same before and
    after. *)
Theorem can_advance_tells_whether_the_offset_exists
    (generator : list Token) (counter : nat)
    (ranges : list ReleaseRange) (scope : ReleaseRange) (to : nat) :
  can_advance to (mkProxy generator counter (ranges ++ [scope]))
  = (Ret (to <? length (rr_tokens scope) + length generator),
     snd (eat to (mkProxy generator counter (ranges ++ [scope])))) /\
  stored (snd (can_advance to (mkProxy generator counter (ranges ++ [scope]))))
  = stored (mkProxy generator counter (ranges ++ [scope])).
Proof.
  unfold can_advance. rewrite eat_spec.
  destruct (nth_error (rr_tokens scope ++ generator) to) as [token|] eqn:En;
    cbn [snd]; (split; [f_equal; f_equal|]).
  - symmetry. apply Nat.ltb_lt. rewrite <- length_app.
    apply nth_error_Some. congruence.
  - unfold stored. cbn [_release_ranges _tokens].
    rewrite !flat_map_app. cbn [flat_map rr_tokens].
    rewrite !app_nil_r, <- !app_assoc. now rewrite firstn_skipn.
  - symmetry. apply Nat.ltb_ge. rewrite <- length_app.
    now apply nth_error_None.
  - unfold stored. cbn [_release_ranges _tokens].
    rewrite !flat_map_app. cbn [flat_map rr_tokens].
    now rewrite !app_nil_r, <- !app_assoc.
Qed.

(* --------------------------------------------------------------------- *)
(** *** A scope opened between two tokens *)

(** X5.  When every range is closed and lies behind the counter, a scope
    that is opened, used to peek up to offset [n] and left again does not
    change what the next [k] calls of [__next__] return. *)
Theorem speculation_between_tokens_keeps_the_stream
    (n k : nat) (px : TokenGeneratorProxy) :
  drained px = true ->
  next_tokens k (speculate n px) = next_tokens k px.
Proof.
  intros Hd. apply drained_synced in Hd.
  destruct (speculate_keeps_stream n px Hd) as (toks & Hs & Ht & _).
  rewrite (next_tokens_synced _ _ _ Hs), (next_tokens_synced _ _ _ Hd).
  cbn [app]. now rewrite Ht.
Qed.

(** The theorem at a proxy that has peeked, consumed what it had peeked and
    one more token. *)
Lemma speculation_between_tokens_keeps_the_stream_witness :
  drained (snd (next (snd (next (speculate 1 (new_proxy four_tokens))))))
  = true /\
  next_tokens 3
    (speculate 1
       (snd (next (snd (next (speculate 1 (new_proxy four_tokens)))))))
  = next_tokens 3
      (snd (next (snd (next (speculate 1 (new_proxy four_tokens)))))).
Proof.
  split; [reflexivity|].
  apply (speculation_between_tokens_keeps_the_stream 1 3); reflexivity.
Defined.

(* --------------------------------------------------------------------- *)
(** *** A range that was never closed *)

(** X6.  While some range has no end, [__next__] does not raise
    [StopIteration] and does not pull from the generator, and the range
    stays open: the iteration over the proxy cannot end normally any
    more. *)
Theorem next_with_an_open_range_never_ends_the_iteration
    (px : TokenGeneratorProxy) :
  poisoned px ->
  fst (next px) <> Raise StopIteration /\
  _tokens (snd (next px)) = _tokens px /\
  poisoned (snd (next px)).
Proof.
  intros Hp. destruct (next px) as [r px'] eqn:En.
  destruct (next_poisoned _ _ _ Hp En) as [H1 H2].
  split; [exact H1|]. split; [|exact H2].
  cbn [snd]. revert En. unfold next.
  destruct (scan_ranges _ _) as [[t|]|e|] eqn:Es;
    try (intros H; injection H as _ <-; reflexivity).
  exfalso. destruct Hp as (rg & Hin & Hnone).
  now apply (scan_ranges_closed _ _ Es rg Hin).
Qed.

(** The theorem at [both_closed], where the outer of two nested scopes was
    left open. *)
Lemma next_with_an_open_range_never_ends_the_iteration_witness :
  poisoned both_closed /\
  (fst (next both_closed) <> Raise StopIteration /\
   _tokens (snd (next both_closed)) = _tokens both_closed /\
   poisoned (snd (next both_closed))).
Proof.
  assert (H : poisoned both_closed).
  { exists (mkRange 1 None [name_token "t1" 3]).
    split; [left; reflexivity | reflexivity]. }
  split; [exact H|].
  apply (next_with_an_open_range_never_ends_the_iteration both_closed H).
Defined.

(* --------------------------------------------------------------------- *)
(** ** The resolver *)

(** *** Relations that the proxy's operations respect *)

Section Respects.
Variable R : TokenGeneratorProxy -> TokenGeneratorProxy -> Prop.
Hypothesis R_refl : forall px, R px px.
Hypothesis R_trans : forall p1 p2 p3, R p1 p2 -> R p2 p3 -> R p1 p3.
Hypothesis R_eat : forall point px r px', eat point px = (r, px') -> R px px'.
Hypothesis R_enter : forall px, R px (release_enter px).
Hypothesis R_exit : forall px, R px (release_exit px).

Lemma can_advance_respects to px r px' :
  can_advance to px = (r, px') -> R px px'.
Proof.
  unfold can_advance. destruct (eat to px) as [[t|e|] p1] eqn:E; intros H.
  - inversion H; subst. eapply R_eat; eauto.
  - destruct e; inversion H; subst; eapply R_eat; eauto.
  - inversion H; subst. eapply R_eat; eauto.
Qed.

Section LoopRespects.
Variable grammar : Grammar.
Variable rec : list Transition -> TransitionTable -> TokenGeneratorProxy ->
               outcome (option DFAPlan) * TokenGeneratorProxy.
Hypothesis rec_respects :
  forall nt tb px r px', rec nt tb px = (r, px') -> R px px'.

Lemma try_pushes_respects nt ds : forall px r px',
  try_pushes grammar rec nt ds px = (r, px') -> R px px'.
Proof.
  induction ds as [|d ds IH]; simpl; intros px r px' H.
  - inversion H; subst; apply R_refl.
  - destruct (rec nt _ px) as [[[p|]|e|] p1] eqn:E; apply rec_respects in E.
    + now inversion H; subst.
    + eapply R_trans; eauto.
    + now inversion H; subst.
    + now inversion H; subst.
Qed.

Lemma advance_plans_respects nt items : forall dead px r px',
  advance_plans grammar rec nt items dead px = (r, px') -> R px px'.
Proof.
  induction items as [|[origin branch] items IH]; simpl; intros dead px r px' H.
  - inversion H; subst; apply R_refl.
  - destruct (last_opt branch) as [current_plan|];
      [|inversion H; subst; apply R_refl].
    destruct (in_dec DFAPlan_eq_dec origin dead).
    + destruct (advance_plans grammar rec nt items dead px)
        as [[[d1 dd1]| |] p1] eqn:E;
        apply IH in E; now inversion H; subst.
    + destruct (try_pushes grammar rec nt _ px) as [[[q|]| |] p0] eqn:Et;
        apply try_pushes_respects in Et.
      * destruct (advance_plans grammar rec nt items dead p0)
          as [[[d1 dd1]| |] p1] eqn:E;
          apply IH in E; inversion H; subst; eapply R_trans; eauto.
      * destruct (advance_plans grammar rec nt items _ p0)
          as [[[d1 dd1]| |] p1] eqn:E;
          apply IH in E; inversion H; subst; eapply R_trans; eauto.
      * now inversion H; subst.
      * now inversion H; subst.
Qed.

Lemma lookahead_loop_respects fuel : forall counter table dead px r px',
  lookahead_loop grammar rec fuel counter table dead px = (r, px') ->
  R px px'.
Proof.
  induction fuel as [|fuel IH]; intros counter table dead px r px' H;
    simpl in H.
  - destruct (superior_plan table false) as [[o|]| |];
      inversion H; subst; apply R_refl.
  - destruct (superior_plan table false) as [[o|]| |];
      try (inversion H; subst; apply R_refl).
    destruct (can_advance counter px) as [[[|]| |] px1] eqn:Ec;
      apply can_advance_respects in Ec; try (now inversion H; subst).
    destruct (eat counter px1) as [[token| |] px2] eqn:Ee;
      apply R_eat in Ee;
      try (inversion H; subst; eapply R_trans; eauto).
    destruct (advance_plans grammar rec _ table dead px2)
      as [[[t1 d1]| |] px3] eqn:Ea;
      apply advance_plans_respects in Ea.
    + apply IH in H. eauto using R_trans.
    + inversion H; subst. eauto using R_trans.
    + inversion H; subst. eauto using R_trans.
Qed.
End LoopRespects.

Lemma get_possible_plan_respects grammar fuel : forall pts table px r px',
  get_possible_plan fuel grammar pts table px = (r, px') -> R px px'.
Proof.
  induction fuel as [|fuel IH]; intros pts table px r px' H; simpl in H;
    destruct (collect_plans pts table) as [|p1 [|p2 plans]];
    try (inversion H; subst; apply R_refl).
  destruct (lookahead_loop _ _ _ _ _ _ _) as [res px1] eqn:El.
  apply lookahead_loop_respects in El; [|exact IH].
  assert (px' = release_exit px1) by (destruct res; now inversion H).
  subst px'.
  eapply R_trans; [apply R_enter|].
  eapply R_trans; [exact El | apply R_exit].
Qed.

End Respects.

(** The same for the engine's step, from what the resolver does at the
    keys of the token at hand. *)
Section EngineRespects.
Variable R : TokenGeneratorProxy -> TokenGeneratorProxy -> Prop.
Hypothesis R_refl : forall px, R px px.
Hypothesis R_trans : forall p1 p2 p3, R p1 p2 -> R p2 p3 -> R p1 p3.
Variable self : BaseParser.
Variable fuel : nat.
Variable token : Token.
Hypothesis resolver_respects :
  forall table px r px',
    get_possible_plan fuel (_pgen_grammar self)
      (_token_to_transition (_pgen_grammar self) (tok_type token)
                            (tok_string token)) table px = (r, px') ->
    R px px'.

Lemma find_plan_respects n : forall st r st',
  find_plan self n fuel token st = (r, st') ->
  R (tokens_proxy st) (tokens_proxy st').
Proof.
  induction n as [|n IH]; intros st r st' H;
    destruct token as [type_ value_ start_pos prefix];
    cbn [find_plan] in H; [injection H as _ <-; apply R_refl|].
  destruct (stack st) as [|tos below]; [injection H as _ <-; apply R_refl|].
  destruct (get_possible_plan _ _ _ _ _) as [res px'] eqn:Eg.
  apply resolver_respects in Eg.
  assert (Hk : forall r st',
    (if is_final (dfa_states (_pgen_grammar self) (dfa tos))
     then match _pop self (tos :: below) with
          | (Ret tt, stack') =>
              find_plan self n fuel (mkToken type_ value_ start_pos prefix)
                        (mkState stack' px')
          | (Raise e, stack') => (Raise e, mkState stack' px')
          | (OutOfFuel, stack') => (OutOfFuel, mkState stack' px')
          end
     else match error_recovery self (mkToken type_ value_ start_pos prefix) with
          | Ret tt => (Ret None, mkState (tos :: below) px')
          | Raise e => (Raise e, mkState (tos :: below) px')
          | OutOfFuel => (OutOfFuel, mkState (tos :: below) px')
          end) = (r, st') ->
    R (tokens_proxy st) (tokens_proxy st')).
  { intros r0 st0 H0. destruct (is_final _).
    - destruct (_pop self (tos :: below)) as [[[]| |] stack'].
      + apply IH in H0. eapply R_trans; eauto.
      + now injection H0 as _ <-.
      + now injection H0 as _ <-.
    - destruct (error_recovery self _) as [[]| |]; now injection H0 as _ <-. }
  destruct res as [[plan|]|e|].
  - now injection H as _ <-.
  - eauto.
  - destruct e; try (now injection H as _ <-). eauto.
  - now injection H as _ <-.
Qed.

Lemma add_token_respects st r st' :
  _add_token self fuel token st = (r, st') ->
  R (tokens_proxy st) (tokens_proxy st').
Proof.
  unfold _add_token.
  destruct (find_plan self _ fuel token st) as [[[plan|]| |] st1] eqn:Ef;
    apply find_plan_respects in Ef; try (intros H; now injection H as _ <-).
  destruct (stack st1) as [|tos below]; [intros H; now injection H as _ <-|].
  destruct (push_all _ _); intros H; now injection H as _ <-.
Qed.

End EngineRespects.

(** *** The tokens in store *)

Lemma flat_map_update_last (f : ReleaseRange -> ReleaseRange) rs :
  (forall r, rr_tokens (f r) = rr_tokens r) ->
  flat_map rr_tokens (update_last f rs) = flat_map rr_tokens rs.
Proof.
  intros Hf. destruct (last_opt rs) as [x|] eqn:E.
  - apply last_opt_Some in E. destruct E as (rs0 & ->).
    rewrite update_last_app, !flat_map_app. simpl. now rewrite Hf.
  - unfold last_opt in E. unfold update_last.
    destruct (rev rs) eqn:Er; [|discriminate].
    apply (f_equal (@rev _)) in Er. rewrite rev_involutive in Er. now subst.
Qed.

Lemma eat_stored point px r px' :
  eat point px = (r, px') -> stored px' = stored px.
Proof.
  destruct px as [raw c rs].
  destruct (last_opt rs) as [rg|] eqn:El.
  - apply last_opt_Some in El. destruct El as (rs0 & ->).
    rewrite eat_spec.
    destruct (nth_error _ _); intros H; injection H as _ <-;
      unfold stored; cbn [_release_ranges _tokens];
      rewrite !flat_map_app; cbn [flat_map rr_tokens];
      rewrite <- ?app_assoc; cbn [app].
    + now rewrite firstn_skipn.
    + now rewrite !app_nil_r.
  - unfold eat. cbn [_release_ranges]. rewrite El.
    intros H; now injection H as _ <-.
Qed.

Lemma release_enter_stored px : stored (release_enter px) = stored px.
Proof.
  unfold stored. simpl. rewrite flat_map_app. simpl. now rewrite app_nil_r.
Qed.

Lemma release_exit_stored px : stored (release_exit px) = stored px.
Proof.
  unfold stored. simpl. now rewrite flat_map_update_last.
Qed.

Lemma get_possible_plan_stored grammar fuel pts table px r px' :
  get_possible_plan fuel grammar pts table px = (r, px') ->
  stored px' = stored px.
Proof.
  apply (get_possible_plan_respects (fun p p' => stored p' = stored p));
    try congruence;
    eauto using eat_stored, release_enter_stored, release_exit_stored.
Qed.

Lemma add_token_stored self fuel token st r st' :
  _add_token self fuel token st = (r, st') ->
  stored (tokens_proxy st') = stored (tokens_proxy st).
Proof.
  apply (add_token_respects (fun p p' => stored p' = stored p));
    try congruence.
  intros table px r0 px'. apply get_possible_plan_stored.
Qed.

(** *** The resolver raises nothing *)

Lemma eat_nonempty point px r px' :
  eat point px = (r, px') ->
  _release_ranges px <> [] -> _release_ranges px' <> [].
Proof.
  intros H Hne. apply eat_touches_last in H. destruct H as [_ H].
  destruct (exists_last Hne) as (base & x & Hx).
  destruct (H base) as (ch & Hch & ->).
  - exists [x]. split; [discriminate | exact Hx].
  - destruct base; destruct ch; try discriminate; congruence.
Qed.

Section LoopNoRaise.
Variable grammar : Grammar.
Variable rec : list Transition -> TransitionTable -> TokenGeneratorProxy ->
               outcome (option DFAPlan) * TokenGeneratorProxy.
Hypothesis rec_appends :
  forall nt tb px r px', rec nt tb px = (r, px') -> appends px px'.
Hypothesis rec_no_raise :
  forall nt tb px e px', rec nt tb px <> (Raise e, px').

Lemma try_pushes_no_raise nt ds : forall px e px',
  try_pushes grammar rec nt ds px <> (Raise e, px').
Proof.
  induction ds as [|d ds IH]; simpl; intros px e px'; [discriminate|].
  destruct (rec nt _ px) as [[[p|]|e0|] p1] eqn:E; try discriminate.
  - apply IH.
  - now apply rec_no_raise in E.
Qed.

Lemma advance_plans_no_raise nt items : forall dead px,
  Forall (fun ob : DFAPlan * list DFAPlan => snd ob <> []) items ->
  (forall e px', advance_plans grammar rec nt items dead px <> (Raise e, px')) /\
  (forall done dead' px',
     advance_plans grammar rec nt items dead px = (Ret (done, dead'), px') ->
     Forall (fun ob : DFAPlan * list DFAPlan => snd ob <> []) done).
Proof.
  induction items as [|[origin branch] items IH]; simpl; intros dead px Hb.
  - split; [discriminate|]. intros done dead' px' H. injection H as <- _ _.
    constructor.
  - apply Forall_cons_iff in Hb. destruct Hb as [Hne Hb']. simpl in Hne.
    destruct (last_opt_nonempty _ Hne) as (pc & ->).
    destruct (in_dec DFAPlan_eq_dec origin dead).
    + destruct (advance_plans grammar rec nt items dead px)
        as [[[d1 dd1]|e0|] p1] eqn:E;
        destruct (IH dead px Hb') as [A B].
      * split; [discriminate|]. intros done dead' px' H.
        injection H as <- _ _. constructor; eauto.
      * now apply A in E.
      * split; discriminate.
    + destruct (try_pushes grammar rec nt _ px) as [[[q|]|e0|] p0] eqn:Et.
      * destruct (advance_plans grammar rec nt items dead p0)
          as [[[d1 dd1]|e1|] p1] eqn:E;
          destruct (IH dead p0 Hb') as [A B].
        -- split; [discriminate|]. intros done dead' px' H.
           injection H as <- _ _. constructor; eauto.
           simpl. destruct branch; discriminate.
        -- now apply A in E.
        -- split; discriminate.
      * destruct (advance_plans grammar rec nt items _ p0)
          as [[[d1 dd1]|e1|] p1] eqn:E;
          destruct (IH (set_add origin dead) p0 Hb') as [A B].
        -- split; [discriminate|]. intros done dead' px' H.
           injection H as <- _ _. constructor; eauto.
        -- now apply A in E.
        -- split; discriminate.
      * now apply try_pushes_no_raise in Et.
      * split; discriminate.
Qed.

Lemma lookahead_loop_no_raise fuel : forall counter table dead px e px',
  _release_ranges px <> [] ->
  table <> [] ->
  Forall (fun ob : DFAPlan * list DFAPlan => snd ob <> []) table ->
  lookahead_loop grammar rec fuel counter table dead px <> (Raise e, px').
Proof.
  induction fuel as [|fuel IH]; intros counter table dead px e px' Hne Htab Hb;
    simpl;
    destruct (superior_plan_returns table false Htab) as ([w|] & ->);
    try discriminate.
  destruct (can_advance_ret counter px Hne) as ([|] & px1 & Ec); rewrite Ec;
    [|discriminate].
  destruct (can_advance_true _ _ _ Ec)
    as (rs0 & rg & rg1 & Hrs & Hrs1 & _ & _ & t & Ee).
  rewrite Ee.
  destruct (advance_plans grammar rec _ table dead px1)
    as [[[t1 d1]|e1|] px3] eqn:Ea;
    destruct (advance_plans_no_raise
              (_token_to_transition grammar (tok_type t) (tok_string t))
              table dead px1 Hb) as [A B].
  - apply IH.
    + apply advance_plans_appends in Ea; [|exact rec_appends].
      destruct Ea as [_ (extra & ->)]. rewrite Hrs1.
      destruct rs0; discriminate.
    + apply advance_plans_keys in Ea.
      destruct t1; [|discriminate]. destruct table; [congruence|discriminate].
    + eauto.
  - now apply A in Ea.
  - discriminate.
Qed.
End LoopNoRaise.

Lemma get_possible_plan_no_raise grammar fuel : forall pts table px e px',
  get_possible_plan fuel grammar pts table px <> (Raise e, px').
Proof.
  induction fuel as [|fuel IH]; intros pts table px e px'; simpl;
    destruct (collect_plans pts table) as [|p1 [|p2 plans]] eqn:E;
    try discriminate.
  destruct (new_plan_table_spec (p1 :: p2 :: plans)) as (_ & Hent & Hne).
  destruct (lookahead_loop _ _ _ _ _ _ _) as [[tableF|e0|] px1] eqn:El.
  - pose proof (lookahead_loop_keys _ _ _ _ _ _ _ _ _ El) as Hk.
    destruct (superior_plan_returns tableF true) as (r & ->); [|discriminate].
    intros ->. destruct (new_plan_table (p1 :: p2 :: plans)) eqn:Et;
      [|discriminate].
    apply Hne; [discriminate | reflexivity].
  - exfalso. revert El. apply lookahead_loop_no_raise.
    + intros; eapply get_possible_plan_appends; eauto.
    + exact IH.
    + simpl. destruct (_release_ranges px); discriminate.
    + apply Hne. discriminate.
    + apply Forall_forall. intros [o b] Hin. rewrite (Hent _ _ Hin).
      discriminate.
  - discriminate.
Qed.

(** *** What the lookup finds *)

Lemma collect_plans_nil pts table :
  collect_plans pts table = [] <->
  forall tr, In tr pts -> dict_get Transition_eq_dec tr table = None.
Proof.
  induction pts as [|tr pts IH]; simpl.
  - split; [intros _ tr []|reflexivity].
  - destruct (dict_get Transition_eq_dec tr table) as [p|] eqn:E.
    + split; [discriminate|]. intros H. specialize (H tr (or_introl eq_refl)).
      congruence.
    + rewrite IH. split.
      * intros H tr' [<-|Hin]; auto.
      * intros H tr' Hin. apply H. now right.
Qed.

Lemma collect_plans_get pts table p :
  In p (collect_plans pts table) ->
  exists tr, In tr pts /\ dict_get Transition_eq_dec tr table = Some p.
Proof.
  induction pts as [|tr pts IH]; simpl; [tauto|].
  destruct (dict_get Transition_eq_dec tr table) as [q|] eqn:E.
  - intros [->|H].
    + exists tr. split; [now left | exact E].
    + destruct (IH H) as (tr' & ? & ?). exists tr'. tauto.
  - intros H. destruct (IH H) as (tr' & ? & ?). exists tr'. tauto.
Qed.

Lemma get_possible_plan_in_candidates fuel grammar pts table px p px' :
  get_possible_plan fuel grammar pts table px = (Ret (Some p), px') ->
  In p (collect_plans pts table).
Proof.
  destruct fuel as [|fuel]; simpl;
  destruct (collect_plans pts table) as [|p1 [|p2 plans]] eqn:E;
    try discriminate;
    try (intros H; injection H as -> _; now left).
  destruct (lookahead_loop _ _ _ _ _ _ _) as [[t| |] px1] eqn:EL;
    try discriminate.
  intros H. injection H as H _.
  apply superior_plan_In in H.
  apply lookahead_loop_keys in EL. rewrite EL in H.
  now apply new_plan_table_keys in H.
Qed.

(** X7.  [get_possible_plan] returns [None] exactly when none of the
    candidate transitions is a key of the transition table; the proxy is
    then as it was. *)
Theorem get_possible_plan_returns_None_iff_no_key_matches
    (fuel : nat) (grammar : Grammar) (possible_transitions : list Transition)
    (transition_table : TransitionTable) (px px' : TokenGeneratorProxy) :
  get_possible_plan fuel grammar possible_transitions transition_table px
    = (Ret None, px')
  <->
  (px' = px /\
   forall transition,
     In transition possible_transitions ->
     dict_get Transition_eq_dec transition transition_table = None).
Proof.
  rewrite <- collect_plans_nil. split.
  - intros H. now apply get_possible_plan_None in H.
  - intros [-> H]. now apply get_possible_plan_no_match.
Qed.

(** X8.  A plan that [get_possible_plan] returns is the plan that the
    transition table holds for one of the candidate transitions. *)
Theorem get_possible_plan_returns_the_plan_of_a_candidate_key
    (fuel : nat) (grammar : Grammar) (possible_transitions : list Transition)
    (transition_table : TransitionTable) (px px' : TokenGeneratorProxy)
    (plan : DFAPlan) :
  get_possible_plan fuel grammar possible_transitions transition_table px
    = (Ret (Some plan), px') ->
  exists transition,
    In transition possible_transitions /\
    dict_get Transition_eq_dec transition transition_table = Some plan.
Proof.
  intros H. apply collect_plans_get.
  eapply get_possible_plan_in_candidates; eauto.
Qed.

(** The theorem at the soft keyword [k] followed by [x] in
    [two_readings_grammar]. *)
Lemma get_possible_plan_returns_the_plan_of_a_candidate_key_witness :
  get_possible_plan 20 two_readings_grammar [TReserved soft_k; TType NAME]
    (transitions (dfa_states two_readings_grammar 0))
    (mkProxy [name_token "x" 2] 1 [])
  = (Ret (Some keyword_reading),
     mkProxy [] 1 [mkRange 1 (Some 2) [name_token "x" 2]]) /\
  exists transition,
    In transition [TReserved soft_k; TType NAME] /\
    dict_get Transition_eq_dec transition
             (transitions (dfa_states two_readings_grammar 0))
    = Some keyword_reading.
Proof.
  split; [reflexivity|].
  apply (get_possible_plan_returns_the_plan_of_a_candidate_key 20
           two_readings_grammar [TReserved soft_k; TType NAME]
           (transitions (dfa_states two_readings_grammar 0))
           (mkProxy [name_token "x" 2] 1 [])
           (mkProxy [] 1 [mkRange 1 (Some 2) [name_token "x" 2]])
           keyword_reading).
  reflexivity.
Defined.

Lemma get_possible_plan_hard_key fuel grammar token table px :
  (forall reserved_string,
     dict_get string_dec (tok_string token) (reserved_syntax_strings grammar)
       = Some reserved_string ->
     soft reserved_string = false) ->
  exists transition,
    _token_to_transition grammar (tok_type token) (tok_string token)
      = [transition] /\
    get_possible_plan fuel grammar
      (_token_to_transition grammar (tok_type token) (tok_string token))
      table px
    = (Ret (dict_get Transition_eq_dec transition table), px).
Proof.
  intros Hs.
  assert (G : forall tr,
    get_possible_plan fuel grammar [tr] table px
    = (Ret (dict_get Transition_eq_dec tr table), px)).
  { intros tr. destruct fuel; simpl;
      destruct (dict_get Transition_eq_dec tr table); reflexivity. }
  unfold _token_to_transition.
  destruct (contains_syntax (tok_type token)); [|eauto].
  destruct (dict_get string_dec _ _) as [rs|] eqn:E; [|eauto].
  rewrite (Hs _ eq_refl). eauto.
Qed.

(** X9.  For a token whose text is no soft keyword,
    [_token_to_transition] gives one key and [get_possible_plan] answers
    with the table's entry for it, without touching the proxy. *)
Theorem only_a_soft_keyword_makes_the_resolver_look_ahead
    (fuel : nat) (grammar : Grammar) (token : Token)
    (transition_table : TransitionTable) (px : TokenGeneratorProxy) :
  (forall reserved_string,
     dict_get string_dec (tok_string token) (reserved_syntax_strings grammar)
       = Some reserved_string ->
     soft reserved_string = false) ->
  exists transition,
    _token_to_transition grammar (tok_type token) (tok_string token)
      = [transition] /\
    get_possible_plan fuel grammar
      (_token_to_transition grammar (tok_type token) (tok_string token))
      transition_table px
    = (Ret (dict_get Transition_eq_dec transition transition_table), px).
Proof. apply get_possible_plan_hard_key. Qed.

(** The theorem at the operator [=] of [keyword_grammar], a hard keyword. *)
Lemma only_a_soft_keyword_makes_the_resolver_look_ahead_witness :
  (forall reserved_string,
     dict_get string_dec (tok_string (op_token "=" 2))
              (reserved_syntax_strings keyword_grammar)
       = Some reserved_string ->
     soft reserved_string = false) /\
  exists transition,
    _token_to_transition keyword_grammar (tok_type (op_token "=" 2))
                         (tok_string (op_token "=" 2))
      = [transition] /\
    get_possible_plan 20 keyword_grammar
      (_token_to_transition keyword_grammar (tok_type (op_token "=" 2))
                            (tok_string (op_token "=" 2)))
      (transitions (dfa_states keyword_grammar 4))
      (mkProxy [name_token "x" 4] 2 [])
    = (Ret (dict_get Transition_eq_dec transition
                     (transitions (dfa_states keyword_grammar 4))),
       mkProxy [name_token "x" 4] 2 []).
Proof.
  assert (H : forall reserved_string,
     dict_get string_dec (tok_string (op_token "=" 2))
              (reserved_syntax_strings keyword_grammar)
       = Some reserved_string ->
     soft reserved_string = false).
  { intros reserved_string E. vm_compute in E. injection E as <-.
    reflexivity. }
  split; [exact H|].
  apply (only_a_soft_keyword_makes_the_resolver_look_ahead 20 keyword_grammar
           (op_token "=" 2) (transitions (dfa_states keyword_grammar 4))
           (mkProxy [name_token "x" 4] 2 []) H).
Defined.

(** *** What the resolver does to the proxy *)

(** X10.  When [get_possible_plan] returns, the proxy is as it was if and
    only if at most one candidate transition has a plan in the table. *)
Theorem get_possible_plan_speculates_exactly_when_two_keys_match
    (fuel : nat) (grammar : Grammar) (possible_transitions : list Transition)
    (transition_table : TransitionTable) (px px' : TokenGeneratorProxy)
    (result : option DFAPlan) :
  get_possible_plan fuel grammar possible_transitions transition_table px
    = (Ret result, px') ->
  (px' = px <->
   length (collect_plans possible_transitions transition_table) <= 1).
Proof.
  intros H. apply get_possible_plan_dichotomy in H.
  destruct H as [[-> Hs]|[Hl (changed & Hne & Hch)]].
  - split; [intros _|reflexivity].
    destruct Hs as [[-> _]|(p & -> & _)]; simpl; lia.
  - split; [|lia]. intros ->. exfalso. apply Hne.
    rewrite <- (app_nil_r (_release_ranges px)) in Hch at 1.
    apply app_inv_head in Hch. now symmetry.
Qed.

(** The theorem at the soft keyword [k] followed by [x] in
    [two_readings_grammar], where both keys have a plan. *)
Lemma get_possible_plan_speculates_exactly_when_two_keys_match_witness :
  get_possible_plan 20 two_readings_grammar [TReserved soft_k; TType NAME]
    (transitions (dfa_states two_readings_grammar 0))
    (mkProxy [name_token "x" 2] 1 [])
  = (Ret (Some keyword_reading),
     mkProxy [] 1 [mkRange 1 (Some 2) [name_token "x" 2]]) /\
  (mkProxy [] 1 [mkRange 1 (Some 2) [name_token "x" 2]]
   = mkProxy [name_token "x" 2] 1 [] <->
   length (collect_plans [TReserved soft_k; TType NAME]
             (transitions (dfa_states two_readings_grammar 0))) <= 1).
Proof.
  split; [reflexivity|].
  apply (get_possible_plan_speculates_exactly_when_two_keys_match 20
           two_readings_grammar [TReserved soft_k; TType NAME]
           (transitions (dfa_states two_readings_grammar 0))
           (mkProxy [name_token "x" 2] 1 [])
           (mkProxy [] 1 [mkRange 1 (Some 2) [name_token "x" 2]])
           (Some keyword_reading)).
  reflexivity.
Defined.

(** X11.  However [get_possible_plan] ends, the counter is as it was and
    the ranges that existed before the call are still there, unchanged and
    in place, followed by the ranges that the call has appended. *)
Theorem get_possible_plan_only_appends_ranges
    (fuel : nat) (grammar : Grammar) (possible_transitions : list Transition)
    (transition_table : TransitionTable) (px px' : TokenGeneratorProxy)
    (result : outcome (option DFAPlan)) :
  get_possible_plan fuel grammar possible_transitions transition_table px
    = (result, px') ->
  _counter px' = _counter px /\
  exists new_ranges,
    _release_ranges px' = _release_ranges px ++ new_ranges.
Proof. apply get_possible_plan_appends. Qed.

(** The theorem at [k k x y] in [nested_grammar], where a scope is opened
    inside the scope. *)
Lemma get_possible_plan_only_appends_ranges_witness :
  get_possible_plan 20 nested_grammar [TReserved soft_k; TType NAME]
    (transitions (dfa_states nested_grammar 0))
    (mkProxy [name_token "k" 2; name_token "x" 4; name_token "y" 6] 1 [])
  = (Ret (Some (mkDFAPlan 1 1 [2])),
     mkProxy [] 1
       [mkRange 1 None [name_token "k" 2];
        mkRange 1 (Some 3) [name_token "x" 4; name_token "y" 6]]) /\
  (_counter
     (mkProxy [] 1
        [mkRange 1 None [name_token "k" 2];
         mkRange 1 (Some 3) [name_token "x" 4; name_token "y" 6]])
   = _counter
       (mkProxy [name_token "k" 2; name_token "x" 4; name_token "y" 6] 1 []) /\
   exists new_ranges,
     _release_ranges
       (mkProxy [] 1
          [mkRange 1 None [name_token "k" 2];
           mkRange 1 (Some 3) [name_token "x" 4; name_token "y" 6]])
     = _release_ranges
         (mkProxy [name_token "k" 2; name_token "x" 4; name_token "y" 6] 1 [])
       ++ new_ranges).
Proof.
  split; [reflexivity|].
  apply (get_possible_plan_only_appends_ranges 20 nested_grammar
           [TReserved soft_k; TType NAME]
           (transitions (dfa_states nested_grammar 0))
           (mkProxy [name_token "k" 2; name_token "x" 4; name_token "y" 6] 1 [])
           _ (Ret (Some (mkDFAPlan 1 1 [2])))).
  reflexivity.
Defined.

(** X12.  [get_possible_plan] loses, duplicates and reorders no token: the
    tokens of the ranges, range after range, followed by the tokens of the
    generator are the same sequence before and after the call. *)
Theorem get_possible_plan_keeps_every_token
    (fuel : nat) (grammar : Grammar) (possible_transitions : list Transition)
    (transition_table : TransitionTable) (px px' : TokenGeneratorProxy)
    (result : outcome (option DFAPlan)) :
  get_possible_plan fuel grammar possible_transitions transition_table px
    = (result, px') ->
  flat_map rr_tokens (_release_ranges px') ++ _tokens px'
  = flat_map rr_tokens (_release_ranges px) ++ _tokens px.
Proof. apply get_possible_plan_stored. Qed.

(** The theorem at [k k x y] in [nested_grammar]. *)
Lemma get_possible_plan_keeps_every_token_witness :
  get_possible_plan 20 nested_grammar [TReserved soft_k; TType NAME]
    (transitions (dfa_states nested_grammar 0))
    (mkProxy [name_token "k" 2; name_token "x" 4; name_token "y" 6] 1 [])
  = (Ret (Some (mkDFAPlan 1 1 [2])),
     mkProxy [] 1
       [mkRange 1 None [name_token "k" 2];
        mkRange 1 (Some 3) [name_token "x" 4; name_token "y" 6]]) /\
  flat_map rr_tokens
    (_release_ranges
       (mkProxy [] 1
          [mkRange 1 None [name_token "k" 2];
           mkRange 1 (Some 3) [name_token "x" 4; name_token "y" 6]]))
    ++ _tokens
         (mkProxy [] 1
            [mkRange 1 None [name_token "k" 2];
             mkRange 1 (Some 3) [name_token "x" 4; name_token "y" 6]])
  = flat_map rr_tokens
      (_release_ranges
         (mkProxy [name_token "k" 2; name_token "x" 4; name_token "y" 6] 1 []))
    ++ _tokens
         (mkProxy [name_token "k" 2; name_token "x" 4; name_token "y" 6] 1 []).
Proof.
  split; [reflexivity|].
  apply (get_possible_plan_keeps_every_token 20 nested_grammar
           [TReserved soft_k; TType NAME]
           (transitions (dfa_states nested_grammar 0))
           (mkProxy [name_token "k" 2; name_token "x" 4; name_token "y" 6] 1 [])
           _ (Ret (Some (mkDFAPlan 1 1 [2])))).
  reflexivity.
Defined.

(** X13.  Called when every range is closed and lies behind the counter,
    [get_possible_plan] either leaves a range without an end, or leaves the
    proxy such that the next [k] calls of [__next__] return what they would
    have returned without the call. *)
Theorem get_possible_plan_keeps_the_stream_unless_it_leaves_a_range_open
    (fuel : nat) (grammar : Grammar) (possible_transitions : list Transition)
    (transition_table : TransitionTable) (px px' : TokenGeneratorProxy)
    (result : option DFAPlan) (k : nat) :
  drained px = true ->
  get_possible_plan fuel grammar possible_transitions transition_table px
    = (Ret result, px') ->
  poisoned px' \/ next_tokens k px' = next_tokens k px.
Proof.
  intros Hd H. apply drained_synced in Hd.
  apply get_possible_plan_effect in H.
  destruct H as [[-> _]|[Hopen|(w & toks & _ & Hc & Hr & Ht & _)]].
  - now right.
  - left. eapply left_open_poisoned; eauto.
  - right.
    assert (Hs : synced px' toks)
      by (eapply synced_new_range; eauto).
    rewrite (next_tokens_synced _ _ _ Hs), (next_tokens_synced _ _ _ Hd).
    cbn [app]. now rewrite Ht.
Qed.

(** The theorem at the soft keyword [k] followed by [x] in
    [two_readings_grammar]. *)
Lemma get_possible_plan_keeps_the_stream_unless_it_leaves_a_range_open_witness :
  drained (mkProxy [name_token "x" 2] 1 []) = true /\
  get_possible_plan 20 two_readings_grammar [TReserved soft_k; TType NAME]
    (transitions (dfa_states two_readings_grammar 0))
    (mkProxy [name_token "x" 2] 1 [])
  = (Ret (Some keyword_reading),
     mkProxy [] 1 [mkRange 1 (Some 2) [name_token "x" 2]]) /\
  (poisoned (mkProxy [] 1 [mkRange 1 (Some 2) [name_token "x" 2]]) \/
   next_tokens 2 (mkProxy [] 1 [mkRange 1 (Some 2) [name_token "x" 2]])
   = next_tokens 2 (mkProxy [name_token "x" 2] 1 [])).
Proof.
  split; [reflexivity|]. split; [reflexivity|].
  apply (get_possible_plan_keeps_the_stream_unless_it_leaves_a_range_open 20
           two_readings_grammar [TReserved soft_k; TType NAME]
           (transitions (dfa_states two_readings_grammar 0))
           (mkProxy [name_token "x" 2] 1 [])
           (mkProxy [] 1 [mkRange 1 (Some 2) [name_token "x" 2]])
           (Some keyword_reading) 2);
    reflexivity.
Defined.

(** X14.  [get_possible_plan] raises no exception, whatever the grammar,
    the candidates, the table and the proxy. *)
Theorem get_possible_plan_raises_nothing
    (fuel : nat) (grammar : Grammar) (possible_transitions : list Transition)
    (transition_table : TransitionTable) (px px' : TokenGeneratorProxy)
    (e : exn) :
  get_possible_plan fuel grammar possible_transitions transition_table px
    <> (Raise e, px').
Proof. apply get_possible_plan_no_raise. Qed.

(** X15.  On a finite source [get_possible_plan] returns a plan or [None]:
    with fuel above twice the tokens of the generator plus the tokens of
    the ranges, the loops end before the fuel does. *)
Theorem get_possible_plan_ends
    (fuel : nat) (grammar : Grammar) (possible_transitions : list Transition)
    (transition_table : TransitionTable) (px : TokenGeneratorProxy) :
  2 * length (_tokens px) + held (_release_ranges px) + 3 <= fuel ->
  exists result px',
    get_possible_plan fuel grammar possible_transitions transition_table px
    = (Ret result, px').
Proof. apply get_possible_plan_returns. Qed.

(** The theorem at the soft keyword [k] followed by [a b] in
    [tie_grammar], where the loop runs to the end of the source. *)
Lemma get_possible_plan_ends_witness :
  2 * length (_tokens (mkProxy [name_token "a" 2; name_token "b" 4] 1 []))
    + held (_release_ranges
              (mkProxy [name_token "a" 2; name_token "b" 4] 1 [])) + 3 <= 7 /\
  exists result px',
    get_possible_plan 7 tie_grammar [TReserved soft_k; TType NAME]
      (transitions (dfa_states tie_grammar 0))
      (mkProxy [name_token "a" 2; name_token "b" 4] 1 [])
    = (Ret result, px').
Proof.
  split; [vm_compute; lia|].
  apply (get_possible_plan_ends 7 tie_grammar [TReserved soft_k; TType NAME]
           (transitions (dfa_states tie_grammar 0))
           (mkProxy [name_token "a" 2; name_token "b" 4] 1 [])).
  vm_compute; lia.
Defined.

(** *** [superior_plan] *)

Lemma py_max_by_length_first items : forall best,
  exists before after,
    best :: items = before ++ py_max_by_length best items :: after /\
    (forall kv, In kv before -> snd kv < snd (py_max_by_length best items)) /\
    (forall kv, In kv after -> snd kv <= snd (py_max_by_length best items)).
Proof.
  induction items as [|kv items IH]; intros best; cbn [py_max_by_length].
  - exists [], []. repeat split; simpl; tauto.
  - destruct (snd best <? snd kv) eqn:E.
    + apply Nat.ltb_lt in E.
      destruct (IH kv) as (before & after & Heq & Hb & Ha).
      exists (best :: before), after. split; [simpl; f_equal; exact Heq|].
      split; [|exact Ha].
      intros kv' [<-|Hin]; [|auto].
      pose proof (py_max_by_length_ge items kv) as [Hge _]. lia.
    + apply Nat.ltb_ge in E.
      destruct (IH best) as (before & after & Heq & Hb & Ha).
      destruct before as [|b0 before1].
      * simpl in Heq. injection Heq as Hm Hi.
        exists [], (kv :: after).
        split; [simpl; rewrite <- Hm; do 2 f_equal; exact Hi|].
        split; [simpl; tauto|].
        intros kv' [<-|Hin]; [rewrite <- Hm; exact E | auto].
      * simpl in Heq. injection Heq as <- Hi.
        exists (best :: kv :: before1), after.
        split; [simpl; do 2 f_equal; exact Hi|]. split; [|exact Ha].
        intros kv' [<-|[<-|Hin]].
        -- apply Hb. now left.
        -- specialize (Hb best (or_introl eq_refl)). lia.
        -- apply Hb. now right.
Qed.

(** X16.  When [superior_plan] returns a plan, the plan is the origin of
    the first entry of the table whose branch is longest: the branches
    before it are shorter, the branches after it are not longer, and
    without [winner] they are shorter. *)
Theorem superior_plan_picks_the_first_longest_branch
    (table : PlanTable) (winner : bool) (origin : DFAPlan) :
  superior_plan table winner = Ret (Some origin) ->
  exists before branch after,
    table = before ++ (origin, branch) :: after /\
    (forall o b, In (o, b) before -> length b < length branch) /\
    (forall o b, In (o, b) after -> length b <= length branch) /\
    (winner = false ->
     forall o b, In (o, b) after -> length b < length branch).
Proof.
  unfold superior_plan.
  destruct (map (fun ob => (fst ob, length (snd ob))) table)
    as [|first rest] eqn:Em; [discriminate|].
  destruct (py_max_by_length_first rest first)
    as (before & after & Heq & Hb & Ha).
  destruct (py_max_by_length first rest) as [so sl]. cbn [snd] in *.
  rewrite Heq.
  intros H.
  rewrite <- Em in Heq. apply map_eq_app in Heq.
  destruct Heq as (tb & tr & -> & Hmb & Hmr).
  apply map_eq_cons in Hmr. destruct Hmr as ([o1 b1] & ta & -> & Hx & Hma).
  cbn [fst snd] in Hx. injection Hx as -> <-.
  assert (Ho : origin = so) by (destruct (_ || _); congruence).
  subst so.
  exists tb, b1, ta. split; [reflexivity|].
  assert (Hbefore : forall o b, In (o, b) tb -> length b < length b1).
  { intros o b Hin. apply (Hb (o, length b)). rewrite <- Hmb.
    apply in_map_iff. exists (o, b). auto. }
  assert (Hafter : forall o b, In (o, b) ta -> length b <= length b1).
  { intros o b Hin. apply (Ha (o, length b)). rewrite <- Hma.
    apply in_map_iff. exists (o, b). auto. }
  split; [exact Hbefore|]. split; [exact Hafter|].
  intros -> o b Hin. rewrite orb_false_r in H.
  destruct (_ =? 1) eqn:Ec; [|discriminate].
  apply Nat.eqb_eq in Ec.
  rewrite map_app, count_occ_app in Ec. cbn [map snd] in Ec.
  rewrite count_occ_cons_eq in Ec by reflexivity.
  assert (Hz : count_occ Nat.eq_dec (map snd after) (length b1) = 0) by lia.
  apply count_occ_not_In in Hz.
  specialize (Hafter o b Hin).
  assert (length b <> length b1); [|lia].
  intros Hl. apply Hz. rewrite <- Hma, map_map. cbn [snd].
  apply in_map_iff. exists (o, b). auto.
Qed.

(** The theorem at a table of three entries, the last two of the same
    length. *)
Lemma superior_plan_picks_the_first_longest_branch_witness :
  superior_plan
    [(plan_name, [plan_name]);
     (keyword_reading, [keyword_reading; plan_name]);
     (plan_keyword, [plan_keyword; plan_name])] true
  = Ret (Some keyword_reading) /\
  exists before branch after,
    [(plan_name, [plan_name]);
     (keyword_reading, [keyword_reading; plan_name]);
     (plan_keyword, [plan_keyword; plan_name])]
    = before ++ (keyword_reading, branch) :: after /\
    (forall o b, In (o, b) before -> length b < length branch) /\
    (forall o b, In (o, b) after -> length b <= length branch) /\
    (true = false ->
     forall o b, In (o, b) after -> length b < length branch).
Proof.
  split; [reflexivity|].
  apply (superior_plan_picks_the_first_longest_branch
           [(plan_name, [plan_name]);
            (keyword_reading, [keyword_reading; plan_name]);
            (plan_keyword, [plan_keyword; plan_name])] true keyword_reading).
  reflexivity.
Defined.

(* --------------------------------------------------------------------- *)
(** ** The engine at one token *)

Section EngineAtOneToken.
Variable self : BaseParser.
Local Abbreviation grammar := (_pgen_grammar self).

Lemma error_recovery_eq token :
  error_recovery self token = Raise (recovery_error self token).
Proof.
  unfold error_recovery, recovery_error. destruct (_error_recovery self);
    [reflexivity|]. now destruct token.
Qed.

Lemma pop_raises stack_ e stack' :
  _pop self stack_ = (Raise e, stack') ->
  e = IndexError /\ stack' = [] /\ length stack_ <= 1.
Proof.
  unfold _pop. destruct stack_ as [|tos [|parent rest]];
    intros H; try discriminate; injection H as <- <-; simpl; auto.
Qed.

Lemma pop_ret stack_ stack' :
  _pop self stack_ = (Ret tt, stack') ->
  exists tos parent rest new_node,
    stack_ = tos :: parent :: rest /\
    stack' = mkStackNode (dfa parent) (nodes parent ++ [new_node]) :: rest.
Proof.
  unfold _pop. destruct stack_ as [|tos [|parent rest]];
    intros H; try discriminate. injection H as <-. eauto 6.
Qed.

(** The frames that the loop of [_add_token] pops are complete and have no
    plan for the token; the frame it stops at has one. *)
Lemma find_plan_pops n fuel token : forall st plan st',
  find_plan self n fuel token st = (Ret (Some plan), st') ->
  exists popped tos below,
    map dfa (stack st) = popped ++ map dfa (stack st') /\
    stack st' = tos :: below /\
    stack_leaves (stack st') = stack_leaves (stack st) /\
    Forall (complete_without grammar token) popped /\
    get_possible_plan fuel grammar (keys_of grammar token)
      (table_of grammar (dfa tos)) (tokens_proxy st)
    = (Ret (Some plan), tokens_proxy st').
Proof.
  induction n as [|n IH]; intros st plan st' H;
    destruct token as [type_ value_ start_pos prefix];
    cbn [find_plan] in H; [discriminate|].
  destruct st as [stack0 px]. cbn [stack tokens_proxy] in *.
  destruct stack0 as [|tos below]; [discriminate|].
  destruct (get_possible_plan _ _ _ _ _) as [[[plan'|]|e|] px'] eqn:Eg.
  - injection H as <- <-. exists [], tos, below. cbn [stack tokens_proxy].
    repeat split; auto.
  - apply get_possible_plan_None in Eg. destruct Eg as [-> Hnone].
    destruct (is_final _) eqn:Efin.
    + destruct (_pop self (tos :: below)) as [[[]| |] stack'] eqn:Ep;
        try discriminate.
      apply pop_effect in Ep. destruct Ep as [Hl Hd].
      apply IH in H. cbn [stack tokens_proxy] in H.
      destruct H as (popped & tos' & below' & Hdf & Hs & Hlv & Hnm & Hg).
      exists (dfa tos :: popped), tos', below'.
      split; [simpl; rewrite <- Hdf, Hd; reflexivity|].
      split; [exact Hs|]. split; [congruence|]. split; [|exact Hg].
      constructor; [|exact Hnm]. split; [exact Efin | exact Hnone].
    + destruct (error_recovery self _) as [[]| |]; discriminate.
  - now apply get_possible_plan_no_raise in Eg.
  - discriminate.
Qed.

(** How the loop of [_add_token] can be left by an exception. *)
Lemma find_plan_raises n fuel token : forall st e st',
  find_plan self n fuel token st = (Raise e, st') ->
  (stack st = [] /\ st' = st /\
   e = new_InternalParseError "too much input" (tok_type token)
         (tok_string token) (tok_start_pos token)) \/
  (stack st <> [] /\ e = IndexError) \/
  (stack st <> [] /\ e = recovery_error self token).
Proof.
  induction n as [|n IH]; intros st e st' H;
    destruct token as [type_ value_ start_pos prefix];
    cbn [find_plan] in H; [discriminate|].
  destruct st as [stack0 px]. cbn [stack tokens_proxy] in *.
  destruct stack0 as [|tos below].
  { injection H as <- <-. left. auto. }
  right.
  assert (Hne : tos :: below <> []) by discriminate.
  destruct (get_possible_plan _ _ _ _ _) as [[[plan'|]|e0|] px'] eqn:Eg;
    try discriminate.
  - destruct (is_final _).
    + destruct (_pop self (tos :: below)) as [[[]|e1|] stack'] eqn:Ep;
        try discriminate.
      * apply pop_ret in Ep.
        destruct Ep as (t0 & parent & rest & nn & _ & ->).
        apply IH in H. cbn [stack] in H.
        destruct H as [(Hc & _)|[(_ & ->)|(_ & ->)]]; [discriminate| |]; auto.
      * apply pop_raises in Ep. destruct Ep as (-> & _ & _).
        injection H as <- _. auto.
    + rewrite error_recovery_eq in H. injection H as <- _. auto.
  - now apply get_possible_plan_no_raise in Eg.
Qed.

Lemma add_token_raises fuel token st e st' :
  _add_token self fuel token st = (Raise e, st') ->
  (stack st = [] /\ st' = st /\
   e = new_InternalParseError "too much input" (tok_type token)
         (tok_string token) (tok_start_pos token)) \/
  (stack st <> [] /\ e = IndexError) \/
  (stack st <> [] /\ e = recovery_error self token).
Proof.
  unfold _add_token.
  destruct (find_plan self _ fuel token st) as [[[plan|]|e0|] st1] eqn:Ef;
    try discriminate.
  - apply find_plan_pops in Ef.
    destruct Ef as (popped & tos & below & Hdf & Hs & _).
    rewrite Hs, push_all_spec.
    destruct (map _ (rev (dfa_pushes plan)) ++ _) as [|top below2] eqn:Ep;
      [|discriminate].
    apply app_eq_nil in Ep. destruct Ep; discriminate.
  - intros H; injection H as <- <-. eapply find_plan_raises; eauto.
Qed.

Lemma find_plan_all_complete n fuel token : forall stack_ px,
  stack_ <> [] ->
  length stack_ < n ->
  Forall (fun sn => complete_without grammar token (dfa sn)) stack_ ->
  find_plan self n fuel token (mkState stack_ px)
  = (Raise IndexError, mkState [] px).
Proof.
  induction n as [|n IH]; intros stack_ px Hne Hn Hall; [lia|].
  destruct token as [type_ value_ start_pos prefix]. cbn [find_plan stack].
  destruct stack_ as [|tos below]; [congruence|].
  apply Forall_cons_iff in Hall. destruct Hall as [[Hfin Hnm] Hall].
  unfold no_match, keys_of, table_of in Hnm. cbn [tok_type tok_string] in Hnm.
  cbn [tokens_proxy].
  rewrite (get_possible_plan_no_match fuel _ _ _ px Hnm), Hfin.
  destruct below as [|parent rest]; [reflexivity|].
  cbn [_pop]. apply IH; [discriminate | simpl in *; lia|].
  apply Forall_cons_iff in Hall. destruct Hall as [Hp Hall].
  constructor; assumption.
Qed.

Lemma find_plan_error n fuel token : forall above frame below px,
  length above < n ->
  Forall (fun sn => complete_without grammar token (dfa sn)) above ->
  is_final (dfa_states grammar (dfa frame)) = false ->
  no_match grammar token (dfa frame) ->
  exists stack',
    find_plan self n fuel token (mkState (above ++ frame :: below) px)
    = (Raise (recovery_error self token), mkState stack' px) /\
    map dfa stack' = dfa frame :: map dfa below /\
    stack_leaves stack' = stack_leaves (above ++ frame :: below).
Proof.
  induction n as [|n IH]; intros above frame below px Hn Hall Hnf Hnm; [lia|].
  pose proof (error_recovery_eq token) as Her.
  destruct token as [type_ value_ start_pos prefix].
  cbn [find_plan stack tokens_proxy].
  destruct above as [|a above'].
  - cbn [app].
    pose proof Hnm as Hnm'.
    unfold no_match, keys_of, table_of in Hnm'.
    cbn [tok_type tok_string] in Hnm'.
    rewrite (get_possible_plan_no_match fuel _ _ _ px Hnm'), Hnf, Her.
    exists (frame :: below). auto.
  - apply Forall_cons_iff in Hall. destruct Hall as [[Hfin Ha] Hall].
    unfold no_match, keys_of, table_of in Ha. cbn [tok_type tok_string] in Ha.
    cbn [app].
    rewrite (get_possible_plan_no_match fuel _ _ _ px Ha), Hfin.
    destruct (_pop self (a :: above' ++ frame :: below))
      as [[[]|e|] stack1] eqn:Ep.
    + pose proof (pop_effect _ _ _ Ep) as [Hlv Hd].
      apply pop_ret in Ep.
      destruct Ep as (t0 & parent & rest & nn & Heq & ->).
      injection Heq as _ Heq.
      destruct above' as [|a' above''].
      * cbn [app] in Heq. injection Heq as <- <-.
        destruct (IH [] (mkStackNode (dfa frame) (nodes frame ++ [nn]))
                    below px) as (stack' & Hf & Hdf & Hl);
          [simpl in *; lia | constructor | exact Hnf | exact Hnm |].
        cbn [app] in Hf, Hl. exists stack'. split; [exact Hf|].
        split; [exact Hdf|]. rewrite Hl. exact Hlv.
      * cbn [app] in Heq. injection Heq as <- <-.
        apply Forall_cons_iff in Hall. destruct Hall as [Ha' Hall].
        destruct (IH (mkStackNode (dfa a') (nodes a' ++ [nn]) :: above'')
                    frame below px) as (stack' & Hf & Hdf & Hl);
          [simpl in *; lia | constructor; assumption | exact Hnf | exact Hnm |].
        exists stack'. split; [exact Hf|].
        split; [exact Hdf|]. rewrite Hl. exact Hlv.
    + apply pop_raises in Ep. destruct Ep as (_ & _ & Hlen).
      simpl in Hlen. rewrite length_app in Hlen. simpl in Hlen. lia.
    + now apply pop_not_OutOfFuel in Ep.
Qed.

(** An accepted token: the frames popped, the plan found and applied, the
    leaf added. *)
Lemma add_token_pops fuel token st st' :
  _add_token self fuel token st = (Ret tt, st') ->
  exists plan popped tos below,
    map dfa (stack st) = popped ++ dfa tos :: map dfa below /\
    Forall (complete_without grammar token) popped /\
    get_possible_plan fuel grammar (keys_of grammar token)
      (table_of grammar (dfa tos)) (tokens_proxy st)
    = (Ret (Some plan), tokens_proxy st') /\
    map dfa (stack st') =
      rev (dfa_pushes plan) ++ next_dfa plan :: map dfa below /\
    stack_leaves (stack st') = stack_leaves (stack st) ++ [leaf_of token].
Proof.
  unfold _add_token.
  destruct (find_plan self _ fuel token st) as [[[plan|]| |] st1] eqn:Ef;
    try discriminate; [|now apply find_plan_not_None in Ef].
  apply find_plan_pops in Ef.
  destruct Ef as (popped & tos & below & Hdf & Hs & Hlv & Hnm & Hg).
  rewrite Hs. rewrite Hs in Hdf, Hlv.
  rewrite push_all_spec.
  destruct (map _ (rev (dfa_pushes plan)) ++ _) as [|top below2] eqn:Ep;
    [discriminate|].
  intros H. injection H as <-. cbn [stack tokens_proxy].
  exists plan, popped, tos, below. repeat split; auto.
  - transitivity (map dfa (top :: below2)); [reflexivity|].
    rewrite <- Ep, map_app, map_map. simpl. now rewrite map_id.
  - assert (Hx : stack_leaves (top :: below2) = stack_leaves (stack st)).
    { rewrite <- Ep, stack_leaves_pushed, <- Hlv, !stack_leaves_cons.
      reflexivity. }
    rewrite <- Hx, !stack_leaves_cons. unfold frame_leaves. cbn [nodes].
    rewrite flat_map_app, app_assoc. reflexivity.
Qed.


End EngineAtOneToken.

(* --------------------------------------------------------------------- *)
(** *** A token that is accepted *)

(** X17.  When [_add_token] accepts a token, the frames it has popped are
    in a final state without a plan for the token; the plan is what
    [get_possible_plan] returns for the table of the next frame; that frame
    moves to [plan.next_dfa] and the states of [plan.dfa_pushes] are pushed
    on top of it; and the leaf of the token is added after the leaves
    collected so far. *)
Theorem add_token_applies_the_plan
    (self : BaseParser) (fuel : nat) (token : Token) (st st' : ParserState) :
  _add_token self fuel token st = (Ret tt, st') ->
  exists plan popped tos below,
    map dfa (stack st) = popped ++ dfa tos :: map dfa below /\
    Forall (complete_without (_pgen_grammar self) token) popped /\
    get_possible_plan fuel (_pgen_grammar self)
      (_token_to_transition (_pgen_grammar self) (tok_type token)
                            (tok_string token))
      (transitions (dfa_states (_pgen_grammar self) (dfa tos)))
      (tokens_proxy st)
    = (Ret (Some plan), tokens_proxy st') /\
    map dfa (stack st') =
      rev (dfa_pushes plan) ++ next_dfa plan :: map dfa below /\
    stack_leaves (stack st') = stack_leaves (stack st) ++ [leaf_of token].
Proof. apply add_token_pops. Qed.

(** The theorem at the [ENDMARKER] that follows [x] in
    [statement_grammar]: the frame of [expr_stmt] is popped. *)
Lemma add_token_applies_the_plan_witness :
  _add_token statement_parser 20 (endmarker_token 2)
    (mkState [mkStackNode 4 [Leaf "x" (1, 0) " "]; mkStackNode 1 []]
             (mkProxy [] 2 []))
  = (Ret tt,
     mkState [mkStackNode 2 [Leaf "x" (1, 0) " ";
                             Leaf EmptyString (1, 2) EmptyString]]
             (mkProxy [] 2 [])) /\
  exists plan popped tos below,
    map dfa (stack (mkState [mkStackNode 4 [Leaf "x" (1, 0) " "];
                             mkStackNode 1 []] (mkProxy [] 2 [])))
      = popped ++ dfa tos :: map dfa below /\
    Forall (complete_without (_pgen_grammar statement_parser)
                             (endmarker_token 2)) popped /\
    get_possible_plan 20 (_pgen_grammar statement_parser)
      (_token_to_transition (_pgen_grammar statement_parser)
         (tok_type (endmarker_token 2)) (tok_string (endmarker_token 2)))
      (transitions (dfa_states (_pgen_grammar statement_parser) (dfa tos)))
      (tokens_proxy (mkState [mkStackNode 4 [Leaf "x" (1, 0) " "];
                              mkStackNode 1 []] (mkProxy [] 2 [])))
    = (Ret (Some plan),
       tokens_proxy
         (mkState [mkStackNode 2 [Leaf "x" (1, 0) " ";
                                  Leaf EmptyString (1, 2) EmptyString]]
                  (mkProxy [] 2 []))) /\
    map dfa (stack (mkState [mkStackNode 2 [Leaf "x" (1, 0) " ";
                                           Leaf EmptyString (1, 2) EmptyString]]
                            (mkProxy [] 2 [])))
      = rev (dfa_pushes plan) ++ next_dfa plan :: map dfa below /\
    stack_leaves
      (stack (mkState [mkStackNode 2 [Leaf "x" (1, 0) " ";
                                      Leaf EmptyString (1, 2) EmptyString]]
                      (mkProxy [] 2 [])))
    = stack_leaves
        (stack (mkState [mkStackNode 4 [Leaf "x" (1, 0) " "];
                         mkStackNode 1 []] (mkProxy [] 2 [])))
      ++ [leaf_of (endmarker_token 2)].
Proof.
  split; [reflexivity|].
  apply (add_token_applies_the_plan statement_parser 20 (endmarker_token 2)).
  reflexivity.
Defined.

(* --------------------------------------------------------------------- *)
(** *** [_pop] *)


(* --------------------------------------------------------------------- *)
(** *** A token that no open rule takes *)

(** X19.  When the token has no plan in the frames [above], all in a final
    state, nor in the next frame, whose state is not final, [_add_token]
    pops the frames above and raises what [error_recovery] raises:
    [NotImplementedError] when error recovery was asked for,
    [ParserSyntaxError] with the error leaf of the token otherwise.  The
    stack is left reduced down to that frame, with the leaves it had. *)
Theorem add_token_reduces_before_it_reports_the_error
    (self : BaseParser) (fuel : nat) (token : Token)
    (above : list StackNode) (frame : StackNode) (below : list StackNode)
    (px : TokenGeneratorProxy) :
  Forall (fun stack_node =>
            complete_without (_pgen_grammar self) token (dfa stack_node))
         above ->
  is_final (dfa_states (_pgen_grammar self) (dfa frame)) = false ->
  collect_plans
    (_token_to_transition (_pgen_grammar self) (tok_type token)
                          (tok_string token))
    (transitions (dfa_states (_pgen_grammar self) (dfa frame))) = [] ->
  exists stack',
    _add_token self fuel token (mkState (above ++ frame :: below) px)
    = (Raise (if _error_recovery self
              then NotImplementedError "Error Recovery is not implemented"
              else ParserSyntaxError "SyntaxError: invalid syntax"
                     (ErrorLeaf (tok_type token) (tok_string token)
                                (tok_start_pos token) (tok_prefix token))),
       mkState stack' px) /\
    map dfa stack' = dfa frame :: map dfa below /\
    stack_leaves stack' = stack_leaves (above ++ frame :: below).
Proof.
  intros Hall Hnf Hnm.
  destruct (find_plan_error self (S (length (above ++ frame :: below))) fuel
              token above frame below px) as (stack' & Hf & Hd & Hl); auto.
  { rewrite length_app. simpl. lia. }
  exists stack'. split; [|auto].
  unfold _add_token. cbn [stack]. rewrite Hf. reflexivity.
Qed.

(** The theorem at a second name after [x] in [statement_grammar]: the
    frame of [expr_stmt] is popped before the error is raised. *)
Lemma add_token_reduces_before_it_reports_the_error_witness :
  Forall (fun stack_node =>
            complete_without (_pgen_grammar statement_parser)
                             (name_token "y" 2) (dfa stack_node))
         [mkStackNode 4 [Leaf "x" (1, 0) " "]] /\
  is_final (dfa_states (_pgen_grammar statement_parser)
                       (dfa (mkStackNode 1 []))) = false /\
  collect_plans
    (_token_to_transition (_pgen_grammar statement_parser)
       (tok_type (name_token "y" 2)) (tok_string (name_token "y" 2)))
    (transitions (dfa_states (_pgen_grammar statement_parser)
                             (dfa (mkStackNode 1 [])))) = [] /\
  exists stack',
    _add_token statement_parser 20 (name_token "y" 2)
      (mkState ([mkStackNode 4 [Leaf "x" (1, 0) " "]] ++ mkStackNode 1 [] :: [])
               (mkProxy [] 2 []))
    = (Raise (if _error_recovery statement_parser
              then NotImplementedError "Error Recovery is not implemented"
              else ParserSyntaxError "SyntaxError: invalid syntax"
                     (ErrorLeaf (tok_type (name_token "y" 2))
                                (tok_string (name_token "y" 2))
                                (tok_start_pos (name_token "y" 2))
                                (tok_prefix (name_token "y" 2)))),
       mkState stack' (mkProxy [] 2 [])) /\
    map dfa stack' = dfa (mkStackNode 1 []) :: map dfa [] /\
    stack_leaves stack'
    = stack_leaves ([mkStackNode 4 [Leaf "x" (1, 0) " "]]
                    ++ mkStackNode 1 [] :: []).
Proof.
  assert (H : Forall (fun stack_node =>
            complete_without (_pgen_grammar statement_parser)
                             (name_token "y" 2) (dfa stack_node))
         [mkStackNode 4 [Leaf "x" (1, 0) " "]]).
  { constructor; [split; reflexivity | constructor]. }
  split; [exact H|]. split; [reflexivity|]. split; [reflexivity|].
  apply (add_token_reduces_before_it_reports_the_error statement_parser 20
           (name_token "y" 2) [mkStackNode 4 [Leaf "x" (1, 0) " "]]
           (mkStackNode 1 []) [] (mkProxy [] 2 []) H);
    reflexivity.
Defined.

(** X20.  When every frame of the stack is in a final state without a plan
    for the token, [_add_token] pops them all, and the [IndexError] of the
    last [_pop] leaves [_add_token] with an empty stack. *)
Theorem add_token_past_the_last_rule_raises_IndexError
    (self : BaseParser) (fuel : nat) (token : Token)
    (stack_ : list StackNode) (px : TokenGeneratorProxy) :
  stack_ <> [] ->
  Forall (fun stack_node =>
            complete_without (_pgen_grammar self) token (dfa stack_node))
         stack_ ->
  _add_token self fuel token (mkState stack_ px)
  = (Raise IndexError, mkState [] px).
Proof.
  intros Hne Hall. unfold _add_token. cbn [stack].
  rewrite find_plan_all_complete; auto.
Qed.

(** The theorem at a third name after [k x] in [two_readings_grammar]. *)
Lemma add_token_past_the_last_rule_raises_IndexError_witness :
  [mkStackNode 4 [Leaf "k" (1, 0) " "; Leaf "x" (1, 2) " "]; mkStackNode 1 []]
    <> [] /\
  Forall (fun stack_node =>
            complete_without (_pgen_grammar two_readings_parser)
                             (name_token "y" 4) (dfa stack_node))
         [mkStackNode 4 [Leaf "k" (1, 0) " "; Leaf "x" (1, 2) " "];
          mkStackNode 1 []] /\
  _add_token two_readings_parser 20 (name_token "y" 4)
    (mkState [mkStackNode 4 [Leaf "k" (1, 0) " "; Leaf "x" (1, 2) " "];
              mkStackNode 1 []] (mkProxy [] 3 []))
  = (Raise IndexError, mkState [] (mkProxy [] 3 [])).
Proof.
  assert (H : Forall (fun stack_node =>
            complete_without (_pgen_grammar two_readings_parser)
                             (name_token "y" 4) (dfa stack_node))
         [mkStackNode 4 [Leaf "k" (1, 0) " "; Leaf "x" (1, 2) " "];
          mkStackNode 1 []]).
  { constructor; [split; reflexivity|].
    constructor; [split; reflexivity | constructor]. }
  split; [discriminate|]. split; [exact H|].
  apply (add_token_past_the_last_rule_raises_IndexError two_readings_parser 20
           (name_token "y" 4)
           [mkStackNode 4 [Leaf "k" (1, 0) " "; Leaf "x" (1, 2) " "];
            mkStackNode 1 []] (mkProxy [] 3 []));
    [discriminate | exact H].
Defined.

(** X21.  [_add_token] raises [InternalParseError] exactly when the stack
    is empty at the call; the error is then the one of [too much input],
    built from the token, and the state is as it was. *)
Theorem add_token_reports_too_much_input_only_on_an_empty_stack
    (self : BaseParser) (fuel : nat) (token : Token) (st st' : ParserState)
    (error : InternalParseErrorObject) :
  _add_token self fuel token st = (Raise (InternalParseError error), st')
  <->
  (stack st = [] /\ st' = st /\
   InternalParseError error
   = new_InternalParseError "too much input" (tok_type token)
       (tok_string token) (tok_start_pos token)).
Proof.
  split.
  - intros H. apply add_token_raises in H.
    destruct H as [H|[(_ & H)|(_ & H)]]; [exact H | discriminate |].
    unfold recovery_error in H. destruct (_error_recovery self); discriminate.
  - intros (Hs & -> & ->). destruct st as [stack0 px]. cbn [stack] in Hs.
    subst stack0. destruct token. reflexivity.
Qed.

(* --------------------------------------------------------------------- *)
(** ** [parse] as a whole *)

Lemma scan_ranges_In rs c t :
  scan_ranges rs c = Ret (Some t) -> In t (flat_map rr_tokens rs).
Proof.
  induction rs as [|r rs IH]; simpl; [discriminate|].
  destruct (rr_end r) as [e|]; [|discriminate].
  destruct (_ && _).
  - destruct (nth_error _ _) as [t'|] eqn:En; [|discriminate].
    intros H; injection H as ->. apply in_or_app. left.
    eapply nth_error_In; eauto.
  - intros H. apply in_or_app. right. auto.
Qed.

Lemma scan_ranges_raises_what rs c e :
  scan_ranges rs c = Raise e -> e = AssertionError \/ e = IndexError.
Proof.
  induction rs as [|r rs IH]; simpl; [discriminate|].
  destruct (rr_end r) as [e'|]; [|intros H; injection H as <-; auto].
  destruct (_ && _); [|exact IH].
  destruct (nth_error _ _); intros H; [discriminate|].
  injection H as <-; auto.
Qed.

Lemma next_raises px e px' :
  next px = (Raise e, px') ->
  e = AssertionError \/ e = IndexError \/ e = StopIteration.
Proof.
  unfold next. destruct (scan_ranges _ _) as [[t|]|e0|] eqn:Es;
    try discriminate.
  - destruct (_tokens px); [|discriminate].
    intros H; injection H as <- _. auto.
  - intros H; injection H as <- _.
    apply scan_ranges_raises_what in Es. tauto.
Qed.

Lemma next_stored px t px' :
  next px = (Ret t, px') ->
  In t (stored px) /\ incl (stored px') (stored px).
Proof.
  unfold next, stored. destruct (scan_ranges _ _) as [[t0|]|e0|] eqn:Es;
    try discriminate.
  - intros H; injection H as <- <-. cbn [_release_ranges _tokens].
    split; [|apply incl_refl].
    apply in_or_app. left. eapply scan_ranges_In; eauto.
  - destruct (_tokens px) as [|t0 src']; [discriminate|].
    intros H; injection H as <- <-. cbn [_release_ranges _tokens]. split.
    + apply in_or_app. right. now left.
    + apply incl_app; [apply incl_appl, incl_refl|].
      apply incl_appr, incl_tl, incl_refl.
Qed.

Lemma last_opt_cons_match {A} (x : A) (l : list A) :
  last_opt (x :: l) =
  match last_opt l with
  | Some y => Some y
  | None => Some x
  end.
Proof.
  unfold last_opt. simpl. destruct (rev l); reflexivity.
Qed.

Section ParseAsAWhole.
Variable self : BaseParser.
Local Abbreviation grammar := (_pgen_grammar self).

Lemma add_token_stack fuel token st st' :
  _add_token self fuel token st = (Ret tt, st') -> stack st' <> [].
Proof.
  intros H. apply add_token_effect in H.
  destruct H as (plan & popped & tos & below & _ & _ & _ & Hd & _).
  intros Hs. rewrite Hs in Hd. simpl in Hd.
  symmetry in Hd. apply app_eq_nil in Hd. destruct Hd; discriminate.
Qed.

Lemma reduce_all_raises n : forall token stack_ e stack',
  reduce_all self n token stack_ = (Raise e, stack') ->
  e = IndexError \/
  (token = None /\ e = UnboundLocalError) \/
  (exists t, token = Some t /\
     e = new_InternalParseError "incomplete input" (tok_type t)
           (tok_string t) (tok_start_pos t)).
Proof.
  induction n as [|n IH]; intros token stack_ e stack' H; simpl in H;
    [discriminate|].
  destruct stack_ as [|tos below]; [injection H as <- _; auto|].
  destruct (negb _).
  - destruct token as [t|]; injection H as <- _; eauto.
  - destruct (1 <? length (tos :: below)); [|discriminate].
    destruct (_pop self (tos :: below)) as [[[]|e1|] s1] eqn:Ep.
    + eauto.
    + apply pop_raises in Ep. destruct Ep as (-> & _).
      injection H as <- _. auto.
    + discriminate.
Qed.

Lemma feed_tokens_Some fuel : forall t st r st',
  feed_tokens self fuel (Some t) st = (Ret r, st') -> r <> None.
Proof.
  induction fuel as [|fuel IH]; intros t st r st' H; simpl in H;
    [discriminate|].
  destruct (next (tokens_proxy st)) as [[t1|e|] px'].
  - destruct (_add_token self (S fuel) t1 _) as [[[]| |] st1];
      try discriminate. eauto.
  - destruct e; try discriminate. injection H as <- _. discriminate.
  - discriminate.
Qed.

Lemma feed_tokens_None fuel tokens stack_ st' :
  feed_tokens self fuel None (mkState stack_ (new_proxy tokens))
  = (Ret None, st') ->
  tokens = [].
Proof.
  destruct fuel as [|fuel]; simpl; [discriminate|].
  destruct tokens as [|t tokens]; [reflexivity|].
  unfold next. cbn.
  destruct (_add_token self (S fuel) t _) as [[[]| |] st1];
    try discriminate.
  intros H. now apply feed_tokens_Some in H.
Qed.

Section Raises.
Variable tokens : list Token.

Lemma feed_tokens_raises fuel : forall last_token st e st',
  stack st <> [] ->
  incl (stored (tokens_proxy st)) tokens ->
  feed_tokens self fuel last_token st = (Raise e, st') ->
  e = AssertionError \/ e = IndexError \/
  exists token, In token tokens /\ e = recovery_error self token.
Proof.
  induction fuel as [|fuel IH]; intros last_token st e st' Hne Hin H;
    simpl in H; [discriminate|].
  destruct (next (tokens_proxy st)) as [[t|e0|] px'] eqn:En.
  - apply next_stored in En. destruct En as [Ht Hsub].
    destruct (_add_token self (S fuel) t _) as [[[]|e1|] st1] eqn:Ea;
      try discriminate.
    + apply IH in H; auto.
      * eapply add_token_stack; eauto.
      * rewrite (add_token_stored _ _ _ _ _ _ Ea). cbn [tokens_proxy].
        eapply incl_tran; eauto.
    + injection H as <- _. apply add_token_raises in Ea.
      cbn [stack] in Ea.
      destruct Ea as [(Hc & _)|[(_ & ->)|(_ & ->)]]; [contradiction|auto|].
      right. right. exists t. split; [auto|reflexivity].
  - apply next_raises in En.
    destruct En as [-> | [-> | ->]]; [| |discriminate];
      injection H as <- _; auto.
  - discriminate.
Qed.

End Raises.

(** The loop variable [token] after the loop is the last token of the
    source. *)
Lemma feed_tokens_last fuel : forall last_token st rest r st',
  good grammar st rest ->
  feed_tokens self fuel last_token st = (Ret r, st') ->
  r = match last_opt rest with
      | Some t => Some t
      | None => last_token
      end.
Proof.
  induction fuel as [|fuel IH]; intros last_token st rest r st' Hgood H;
    simpl in H; [discriminate|].
  destruct Hgood as (cached & Hrest & Hsync & Hprom).
  destruct st as [stack_ [raw c rs]]. cbn [stack tokens_proxy _tokens] in *.
  rewrite (next_synced _ _ Hsync) in H.
  cbn [_tokens _counter _release_ranges] in H.
  destruct cached as [|t cached].
  - destruct raw as [|t raw'].
    + injection H as <- _. subst rest. reflexivity.
    + destruct (_add_token self (S fuel) t _) as [[[]| |] st1] eqn:Ea;
        try discriminate.
      apply add_token_good with (cached := []) in Ea;
        [|eapply synced_advance_nil; eauto|auto].
      destruct Ea as [Hlv [Hp|Hg]].
      * exfalso. eapply feed_tokens_poisoned; eauto using stuck_poisoned.
      * cbn [_tokens app] in Hg. rewrite (IH _ _ _ _ _ Hg H).
        subst rest. cbn [app]. rewrite last_opt_cons_match.
        destruct (last_opt _); reflexivity.
  - destruct (_add_token self (S fuel) t _) as [[[]| |] st1] eqn:Ea;
      try discriminate.
    apply add_token_good with (cached := cached) in Ea;
      [|eapply synced_advance; eauto|].
    + destruct Ea as [Hlv [Hp|Hg]].
      * exfalso. eapply feed_tokens_poisoned; eauto using stuck_poisoned.
      * cbn [_tokens] in Hg. rewrite (IH _ _ _ _ _ Hg H).
        subst rest. cbn [app]. rewrite last_opt_cons_match.
        destruct (last_opt _); reflexivity.
    + cbn [_tokens]. destruct Hprom as [Hraw|[Hnil|Hch]]; auto; discriminate.
Qed.

Lemma parse_raises_cases fuel tokens e :
  parse self fuel tokens = Raise e ->
  (e = KeyError /\
   dict_get string_dec (_start_nonterminal self)
            (nonterminal_to_dfas grammar) = None) \/
  e = IndexError \/ e = AssertionError \/
  (exists token, In token tokens /\ e = recovery_error self token) \/
  (e = UnboundLocalError /\ tokens = []) \/
  (exists token,
     last_opt tokens = Some token /\
     e = new_InternalParseError "incomplete input" (tok_type token)
           (tok_string token) (tok_start_pos token)).
Proof.
  unfold parse.
  destruct (dict_get _ _ _) as [[|first_dfa others]|].
  - intros H; injection H as <-. auto.
  - destruct (feed_tokens _ _ _ _) as [[token|e0|] st'] eqn:Ef;
      [| |discriminate].
    + destruct (reduce_all _ _ _ _) as [res s1] eqn:Er. simpl. intros ->.
      apply reduce_all_raises in Er.
      destruct Er as [-> | [(-> & ->) | (t & -> & ->)]]; [auto| |].
      * right. right. right. right. left. split; [reflexivity|].
        eapply feed_tokens_None; eauto.
      * right. right. right. right. right. exists t. split; [|reflexivity].
        apply feed_tokens_last with (rest := tokens) in Ef.
        -- destruct (last_opt tokens); [now injection Ef as ->|discriminate].
        -- exists []. split; [reflexivity|]. split.
           ++ intros k. simpl. now destruct k.
           ++ right. now left.
    + intros H; injection H as <-.
      apply feed_tokens_raises with (tokens := tokens) in Ef.
      * destruct Ef as [-> | [-> | Hx]]; auto.
      * discriminate.
      * apply incl_refl.
  - intros H; injection H as <-. auto.
Qed.

(** Without soft keywords no token opens a scope. *)
Lemma add_token_no_soft fuel token st r st' :
  no_soft_keywords grammar ->
  _add_token self fuel token st = (r, st') ->
  tokens_proxy st' = tokens_proxy st.
Proof.
  intros Hs.
  apply (add_token_respects (fun p p' => p' = p)); try congruence.
  intros table px r0 px' H.
  destruct (get_possible_plan_hard_key fuel grammar token table px)
    as (tr & _ & Hg); [intros rs; apply Hs|].
  rewrite Hg in H. now injection H as _ <-.
Qed.

Lemma feed_tokens_no_soft fuel : forall last_token st st',
  no_soft_keywords grammar ->
  _release_ranges (tokens_proxy st) = [] ->
  feed_tokens self fuel last_token st <> (Raise AssertionError, st').
Proof.
  induction fuel as [|fuel IH]; intros last_token st st' Hs Hr; simpl;
    [discriminate|].
  destruct st as [stack_ [raw c rs]].
  cbn [stack tokens_proxy _release_ranges] in *. subst rs.
  unfold next. cbn [_release_ranges scan_ranges _tokens _counter].
  destruct raw as [|t raw']; [discriminate|].
  destruct (_add_token self (S fuel) t _) as [[[]|e1|] st1] eqn:Ea.
  - apply IH; [exact Hs|].
    apply add_token_no_soft in Ea; [|exact Hs].
    cbn [tokens_proxy] in Ea. now rewrite Ea.
  - apply add_token_raises in Ea.
    destruct Ea as [(_ & _ & ->) | [(_ & ->) | (_ & ->)]]; try discriminate.
    unfold recovery_error. destruct (_error_recovery self); discriminate.
  - discriminate.
Qed.

(** A frame within reach has a plan for the token: the token is taken. *)
Lemma find_plan_accepts n fuel token : forall above frame below px,
  length above < n ->
  2 * length (_tokens px) + held (_release_ranges px) + 3 <= fuel ->
  Forall (fun sn => is_final (dfa_states grammar (dfa sn)) = true) above ->
  collect_plans (keys_of grammar token) (table_of grammar (dfa frame)) <> [] ->
  exists plan st',
    find_plan self n fuel token (mkState (above ++ frame :: below) px)
    = (Ret (Some plan), st').
Proof.
  induction n as [|n IH]; intros above frame below px Hn Hf Hall Hk; [lia|].
  destruct token as [type_ value_ start_pos prefix].
  cbn [find_plan stack tokens_proxy].
  unfold keys_of, table_of in *. cbn [tok_type tok_string] in *.
  destruct above as [|a above'].
  - cbn [app].
    destruct (get_possible_plan_returns grammar fuel
                (_token_to_transition grammar type_ value_)
                (transitions (dfa_states grammar (dfa frame))) px Hf)
      as ([plan|] & px' & Eg); rewrite Eg; [eauto|].
    apply get_possible_plan_None in Eg. destruct Eg as [_ Eg]. contradiction.
  - cbn [app].
    destruct (get_possible_plan_returns grammar fuel
                (_token_to_transition grammar type_ value_)
                (transitions (dfa_states grammar (dfa a))) px Hf)
      as ([plan|] & px' & Eg); rewrite Eg; [eauto|].
    apply get_possible_plan_None in Eg. destruct Eg as [-> _].
    apply Forall_cons_iff in Hall. destruct Hall as [Hfin Hall].
    rewrite Hfin.
    destruct above' as [|a' above'']; cbn [app _pop].
    + apply (IH [] (mkStackNode (dfa frame) _) below px);
        [simpl in *; lia | exact Hf | constructor | exact Hk].
    + apply Forall_cons_iff in Hall. destruct Hall as [Ha' Hall].
      apply (IH (mkStackNode (dfa a') _ :: above'') frame below px);
        [simpl in *; lia | exact Hf | constructor; assumption | exact Hk].
Qed.

End ParseAsAWhole.

(* --------------------------------------------------------------------- *)
(** *** The empty source *)

(** X22.  On an empty source [parse] returns the node of the start rule
    without children when the first state of the start rule is final, and
    raises [UnboundLocalError] otherwise. *)
Theorem parse_of_an_empty_source
    (self : BaseParser) (fuel : nat) (first_dfa : nat) (others : list nat) :
  dict_get string_dec (_start_nonterminal self)
           (nonterminal_to_dfas (_pgen_grammar self))
    = Some (first_dfa :: others) ->
  parse self (S fuel) [] =
  if is_final (dfa_states (_pgen_grammar self) first_dfa)
  then Ret (Node (from_rule (dfa_states (_pgen_grammar self) first_dfa)) [])
  else Raise UnboundLocalError.
Proof.
  intros Hd. unfold parse. rewrite Hd. simpl.
  destruct (is_final _); reflexivity.
Qed.

(** The theorem at [tie_grammar], whose initial state is not final. *)
Lemma parse_of_an_empty_source_witness :
  dict_get string_dec (_start_nonterminal tie_parser)
           (nonterminal_to_dfas (_pgen_grammar tie_parser))
    = Some (0 :: []) /\
  parse tie_parser (S 0) [] =
  if is_final (dfa_states (_pgen_grammar tie_parser) 0)
  then Ret (Node (from_rule (dfa_states (_pgen_grammar tie_parser) 0)) [])
  else Raise UnboundLocalError.
Proof.
  split; [reflexivity|].
  apply (parse_of_an_empty_source tie_parser 0 0 []). reflexivity.
Defined.

(* --------------------------------------------------------------------- *)
(** *** The exceptions that leave [parse] *)

(** X23.  Whenever [parse] raises [InternalParseError], the error is the
    one of [incomplete input], built from the last token of the source. *)
Theorem parse_reports_incomplete_input_at_the_last_token
    (self : BaseParser) (fuel : nat) (tokens : list Token)
    (error : InternalParseErrorObject) :
  parse self fuel tokens = Raise (InternalParseError error) ->
  exists token,
    last_opt tokens = Some token /\
    InternalParseError error
    = new_InternalParseError "incomplete input" (tok_type token)
        (tok_string token) (tok_start_pos token).
Proof.
  intros H. apply parse_raises_cases in H.
  destruct H as [(H & _)|[H|[H|[(t & _ & H)|[(H & _)|H]]]]];
    try discriminate; [|exact H].
  unfold recovery_error in H. destruct (_error_recovery self); discriminate.
Qed.

(** The theorem at [k =] in [keyword_grammar]. *)
Lemma parse_reports_incomplete_input_at_the_last_token_witness :
  parse keyword_parser 20 [name_token "k" 0; op_token "=" 2]
  = Raise (InternalParseError
             {| message_args := ("incomplete input", "OP", "=", (1, 2));
                ipe_msg := "incomplete input";
                ipe_type := BuiltinType;
                ipe_value := "=";
                ipe_start_pos := (1, 2) |}) /\
  exists token,
    last_opt [name_token "k" 0; op_token "=" 2] = Some token /\
    InternalParseError
      {| message_args := ("incomplete input", "OP", "=", (1, 2));
         ipe_msg := "incomplete input";
         ipe_type := BuiltinType;
         ipe_value := "=";
         ipe_start_pos := (1, 2) |}
    = new_InternalParseError "incomplete input" (tok_type token)
        (tok_string token) (tok_start_pos token).
Proof.
  split; [reflexivity|].
  apply (parse_reports_incomplete_input_at_the_last_token keyword_parser 20
           [name_token "k" 0; op_token "=" 2]).
  reflexivity.
Defined.

(** X24.  What an exception that leaves [parse] tells: [KeyError], that
    the start nonterminal is not in the grammar; [UnboundLocalError], that
    the source is empty; [ParserSyntaxError], that error recovery is off,
    with the usual message and the error leaf of a token of the source;
    [NotImplementedError], that error recovery is on; [InternalParseError],
    incomplete input.  [StopIteration] and [ValueError] never leave
    [parse]. *)
Theorem parse_raises_only_these
    (self : BaseParser) (fuel : nat) (tokens : list Token) (e : exn) :
  parse self fuel tokens = Raise e ->
  match e with
  | KeyError =>
      dict_get string_dec (_start_nonterminal self)
               (nonterminal_to_dfas (_pgen_grammar self)) = None
  | UnboundLocalError => tokens = []
  | ParserSyntaxError message error_leaf =>
      _error_recovery self = false /\
      message = "SyntaxError: invalid syntax" /\
      exists token,
        In token tokens /\
        error_leaf = ErrorLeaf (tok_type token) (tok_string token)
                               (tok_start_pos token) (tok_prefix token)
  | NotImplementedError message =>
      _error_recovery self = true /\
      message = "Error Recovery is not implemented"
  | InternalParseError error => ipe_msg error = "incomplete input"
  | IndexError | AssertionError => True
  | StopIteration | ValueError => False
  end.
Proof.
  intros H. apply parse_raises_cases in H.
  destruct H as [(-> & H) | [-> | [-> | [(t & Hin & ->) | [(-> & H) | (t & _ & ->)]]]]];
    auto.
  - unfold recovery_error. destruct (_error_recovery self) eqn:E; [auto|].
    split; [reflexivity|]. split; [reflexivity|]. eauto.
  - reflexivity.
Qed.

(** The theorem at [x y] in [statement_grammar]. *)
Lemma parse_raises_only_these_witness :
  parse statement_parser 20 [name_token "x" 0; name_token "y" 2]
  = Raise (ParserSyntaxError "SyntaxError: invalid syntax"
             (ErrorLeaf NAME "y" (1, 2) " ")) /\
  (_error_recovery statement_parser = false /\
   "SyntaxError: invalid syntax" = "SyntaxError: invalid syntax" /\
   exists token,
     In token [name_token "x" 0; name_token "y" 2] /\
     ErrorLeaf NAME "y" (1, 2) " "
     = ErrorLeaf (tok_type token) (tok_string token)
                 (tok_start_pos token) (tok_prefix token)).
Proof.
  split; [reflexivity|].
  apply (parse_raises_only_these statement_parser 20
           [name_token "x" 0; name_token "y" 2]
           (ParserSyntaxError "SyntaxError: invalid syntax"
              (ErrorLeaf NAME "y" (1, 2) " "))).
  reflexivity.
Defined.

(** X25.  With a grammar without soft keywords [parse] never raises
    [AssertionError]. *)
Theorem parse_without_soft_keywords_fails_no_assertion
    (self : BaseParser) (fuel : nat) (tokens : list Token) :
  (forall value_ reserved_string,
     dict_get string_dec value_
              (reserved_syntax_strings (_pgen_grammar self))
       = Some reserved_string ->
     soft reserved_string = false) ->
  parse self fuel tokens <> Raise AssertionError.
Proof.
  intros Hs. unfold parse.
  destruct (dict_get _ _ _) as [[|first_dfa others]|]; try discriminate.
  destruct (feed_tokens _ _ _ _) as [[token|e0|] st'] eqn:Ef;
    [| |discriminate].
  - destruct (reduce_all _ _ _ _) as [res s1] eqn:Er. simpl. intros ->.
    apply reduce_all_raises in Er.
    destruct Er as [H|[(_ & H)|(t & _ & H)]]; discriminate.
  - intros H; injection H as ->. revert Ef.
    apply feed_tokens_no_soft; [exact Hs | reflexivity].
Qed.

(** The theorem at [x = y] in [statement_grammar], whose only reserved
    string is the operator [=]. *)
Lemma parse_without_soft_keywords_fails_no_assertion_witness :
  (forall value_ reserved_string,
     dict_get string_dec value_
              (reserved_syntax_strings (_pgen_grammar statement_parser))
       = Some reserved_string ->
     soft reserved_string = false) /\
  parse statement_parser 20
    [name_token "x" 0; op_token "=" 2; name_token "y" 4; endmarker_token 5]
  <> Raise AssertionError.
Proof.
  assert (H : forall value_ reserved_string,
     dict_get string_dec value_
              (reserved_syntax_strings (_pgen_grammar statement_parser))
       = Some reserved_string ->
     soft reserved_string = false).
  { intros value_ reserved_string. simpl.
    destruct (string_dec value_ "="); [|discriminate].
    intros E. injection E as <-. reflexivity. }
  split; [exact H|].
  apply (parse_without_soft_keywords_fails_no_assertion statement_parser 20
           [name_token "x" 0; op_token "=" 2; name_token "y" 4;
            endmarker_token 5] H).
Defined.

(** X26.  On a finite source [parse] ends, with a tree or with an
    exception: fuel above three times the number of tokens does not run
    out. *)
Theorem parse_ends (self : BaseParser) (fuel : nat) (tokens : list Token) :
  3 * length tokens + 3 <= fuel ->
  (exists result, parse self fuel tokens = Ret result) \/
  (exists e, parse self fuel tokens = Raise e).
Proof.
  intros Hf. pose proof (parse_not_OutOfFuel self fuel tokens Hf) as H.
  destruct (parse self fuel tokens) as [result|e|]; eauto. contradiction.
Qed.

(** The theorem at [k k x y] in [nested_grammar]. *)
Lemma parse_ends_witness :
  3 * length [name_token "k" 0; name_token "k" 2; name_token "x" 4;
              name_token "y" 6] + 3 <= 15 /\
  ((exists result,
      parse nested_parser 15
        [name_token "k" 0; name_token "k" 2; name_token "x" 4;
         name_token "y" 6] = Ret result) \/
   (exists e,
      parse nested_parser 15
        [name_token "k" 0; name_token "k" 2; name_token "x" 4;
         name_token "y" 6] = Raise e)).
Proof.
  split; [vm_compute; lia|].
  apply (parse_ends nested_parser 15
           [name_token "k" 0; name_token "k" 2; name_token "x" 4;
            name_token "y" 6]).
  vm_compute; lia.
Defined.

(* --------------------------------------------------------------------- *)
(** ** The stack as Jedi reads it *)

Section Allowed.
Variable grammar : Grammar.

Local Abbreviation allowed :=
  (_allowed_transition_names_and_token_types grammar).
Local Abbreviation listed_as transition :=
  (match transition with
   | TReserved r => ReservedValue (value r)
   | TType t => TokenTypeItem t
   end).

Lemma allowed_head frame below transition plan :
  In (transition, plan) (transitions (dfa_states grammar (dfa frame))) ->
  In (listed_as transition) (allowed (frame :: below)).
Proof.
  intros H. simpl. apply in_or_app. left. apply in_map_iff.
  exists (transition, plan). auto.
Qed.

Lemma allowed_app above rest :
  Forall (fun sn => is_final (dfa_states grammar (dfa sn)) = true) above ->
  incl (allowed rest) (allowed (above ++ rest)).
Proof.
  induction above as [|a above IH]; intros H; [apply incl_refl|].
  apply Forall_cons_iff in H. destruct H as [Ha H].
  simpl. rewrite Ha. apply incl_appr. auto.
Qed.

Lemma allowed_inv stack_ x :
  In x (allowed stack_) ->
  exists above frame below transition plan,
    stack_ = above ++ frame :: below /\
    Forall (fun sn => is_final (dfa_states grammar (dfa sn)) = true) above /\
    In (transition, plan) (transitions (dfa_states grammar (dfa frame))) /\
    x = listed_as transition.
Proof.
  induction stack_ as [|a stack_ IH]; simpl; [tauto|].
  intros H. apply in_app_or in H. destruct H as [H|H].
  - apply in_map_iff in H. destruct H as ([k p] & <- & Hin).
    exists [], a, stack_, k, p. repeat split; auto.
  - destruct (is_final (dfa_states grammar (dfa a))) eqn:Ea; [|destruct H].
    destruct (IH H) as (above & frame & below & k & p & -> & Hall & Hin & ->).
    exists (a :: above), frame, below, k, p. repeat split; auto.
Qed.

Lemma In_dict_get (k : Transition) (v : DFAPlan) (d : TransitionTable) :
  In (k, v) d -> exists v', dict_get Transition_eq_dec k d = Some v'.
Proof.
  induction d as [|[k' v'] d IH]; simpl; [tauto|].
  destruct (Transition_eq_dec k k'); [eauto|].
  intros [H|H]; [congruence | auto].
Qed.

Lemma collect_plans_found keys table k p :
  In k keys -> dict_get Transition_eq_dec k table = Some p ->
  collect_plans keys table <> [].
Proof.
  intros Hin Hg Hnil. rewrite collect_plans_nil in Hnil.
  rewrite (Hnil k Hin) in Hg. discriminate.
Qed.

End Allowed.

(** X27.  A token that [_add_token] accepts is announced by
    [_allowed_transition_names_and_token_types] on the stack before the
    call: the list holds the type of the token, or the text of the reserved
    string registered for the token's text. *)
Theorem an_accepted_token_is_among_the_allowed
    (self : BaseParser) (fuel : nat) (token : Token) (st st' : ParserState) :
  _add_token self fuel token st = (Ret tt, st') ->
  In (TokenTypeItem (tok_type token))
     (_allowed_transition_names_and_token_types (_pgen_grammar self)
        (stack st)) \/
  exists reserved_string,
    dict_get string_dec (tok_string token)
             (reserved_syntax_strings (_pgen_grammar self))
      = Some reserved_string /\
    In (ReservedValue (value reserved_string))
       (_allowed_transition_names_and_token_types (_pgen_grammar self)
          (stack st)).
Proof.
  intros H. apply add_token_pops in H.
  destruct H as (plan & popped & tos & below & Hdf & Hall & Hg & _).
  apply get_possible_plan_in_candidates, collect_plans_get in Hg.
  destruct Hg as (tr & Htr & Hget). apply dict_get_In in Hget.
  apply map_eq_app in Hdf. destruct Hdf as (l1 & l2 & Hst & Hl1 & Hl2).
  apply map_eq_cons in Hl2. destruct Hl2 as (frame & tl0 & -> & Hfr & _).
  unfold table_of in Hget. rewrite <- Hfr in Hget.
  assert (Hin : In (match tr with
                    | TReserved r => ReservedValue (value r)
                    | TType t => TokenTypeItem t
                    end)
                   (_allowed_transition_names_and_token_types
                      (_pgen_grammar self) (stack st))).
  { rewrite Hst. apply allowed_app.
    - subst popped. rewrite Forall_map in Hall.
      eapply Forall_impl; [|exact Hall]. intros sn [Hf _]. exact Hf.
    - eapply allowed_head; eauto. }
  revert Htr Hin. unfold keys_of, _token_to_transition.
  destruct (contains_syntax (tok_type token)).
  - destruct (dict_get string_dec _ _) as [rs|] eqn:E.
    + intros Htr Hin.
      assert (Hc : tr = TReserved rs \/ tr = TType (tok_type token))
        by (destruct (soft rs); simpl in Htr; intuition congruence).
      destruct Hc as [-> | ->]; [right; exists rs; now split | now left].
    + simpl. intros [<-|[]] Hin. now left.
  - simpl. intros [<-|[]] Hin. now left.
Qed.

(** The theorem at the operator [=] after [k] in [keyword_grammar]. *)
Lemma an_accepted_token_is_among_the_allowed_witness :
  _add_token keyword_parser 20 (op_token "=" 2)
    (mkState [mkStackNode 4 [Leaf "k" (1, 0) " "]; mkStackNode 1 []]
             (mkProxy [name_token "x" 4] 2 []))
  = (Ret tt,
     mkState [mkStackNode 5 [Leaf "k" (1, 0) " "; Leaf "=" (1, 2) " "];
              mkStackNode 1 []]
             (mkProxy [name_token "x" 4] 2 [])) /\
  (In (TokenTypeItem (tok_type (op_token "=" 2)))
      (_allowed_transition_names_and_token_types
         (_pgen_grammar keyword_parser)
         (stack (mkState [mkStackNode 4 [Leaf "k" (1, 0) " "];
                          mkStackNode 1 []]
                         (mkProxy [name_token "x" 4] 2 [])))) \/
   exists reserved_string,
     dict_get string_dec (tok_string (op_token "=" 2))
              (reserved_syntax_strings (_pgen_grammar keyword_parser))
       = Some reserved_string /\
     In (ReservedValue (value reserved_string))
        (_allowed_transition_names_and_token_types
           (_pgen_grammar keyword_parser)
           (stack (mkState [mkStackNode 4 [Leaf "k" (1, 0) " "];
                            mkStackNode 1 []]
                           (mkProxy [name_token "x" 4] 2 []))))).
Proof.
  split; [reflexivity|].
  apply (an_accepted_token_is_among_the_allowed keyword_parser 20
           (op_token "=" 2)
           (mkState [mkStackNode 4 [Leaf "k" (1, 0) " "]; mkStackNode 1 []]
                    (mkProxy [name_token "x" 4] 2 []))
           (mkState [mkStackNode 5 [Leaf "k" (1, 0) " "; Leaf "=" (1, 2) " "];
                     mkStackNode 1 []]
                    (mkProxy [name_token "x" 4] 2 []))).
  reflexivity.
Defined.

(** X28.  When [_allowed_transition_names_and_token_types] lists the type
    of a token and the type is one of the token's candidate keys,
    [_add_token] accepts the token. *)
Theorem an_allowed_token_type_is_accepted
    (self : BaseParser) (fuel : nat) (token : Token) (st : ParserState) :
  In (TokenTypeItem (tok_type token))
     (_allowed_transition_names_and_token_types (_pgen_grammar self)
        (stack st)) ->
  In (TType (tok_type token))
     (_token_to_transition (_pgen_grammar self) (tok_type token)
                           (tok_string token)) ->
  2 * length (_tokens (tokens_proxy st))
    + held (_release_ranges (tokens_proxy st)) + 3 <= fuel ->
  exists st', _add_token self fuel token st = (Ret tt, st').
Proof.
  intros Hin Hkey Hf. apply allowed_inv in Hin.
  destruct Hin as (above & frame & below & k & p & Hst & Hall & Hin & Hk).
  assert (k = TType (tok_type token)) by (destruct k; congruence).
  subst k. apply In_dict_get in Hin. destruct Hin as (p' & Hget).
  destruct st as [stack0 px]. cbn [stack tokens_proxy] in *. subst stack0.
  destruct (find_plan_accepts self
              (S (length (above ++ frame :: below))) fuel token
              above frame below px) as (plan & st1 & Ef); auto.
  { rewrite length_app. simpl. lia. }
  { eapply collect_plans_found; eauto. }
  unfold _add_token. cbn [stack]. rewrite Ef.
  apply find_plan_pops in Ef.
  destruct Ef as (popped & tos & below1 & _ & -> & _).
  rewrite push_all_spec.
  destruct (map _ (rev (dfa_pushes plan)) ++ _) as [|top below2] eqn:Ep;
    [|eauto].
  apply app_eq_nil in Ep. destruct Ep; discriminate.
Qed.

(** The theorem at the [ENDMARKER] that follows [x] in
    [statement_grammar], where the type is listed by the second frame. *)
Lemma an_allowed_token_type_is_accepted_witness :
  In (TokenTypeItem (tok_type (endmarker_token 2)))
     (_allowed_transition_names_and_token_types
        (_pgen_grammar statement_parser)
        (stack (mkState [mkStackNode 4 [Leaf "x" (1, 0) " "];
                         mkStackNode 1 []] (mkProxy [] 2 [])))) /\
  In (TType (tok_type (endmarker_token 2)))
     (_token_to_transition (_pgen_grammar statement_parser)
        (tok_type (endmarker_token 2)) (tok_string (endmarker_token 2))) /\
  2 * length (_tokens (tokens_proxy
                         (mkState [mkStackNode 4 [Leaf "x" (1, 0) " "];
                                   mkStackNode 1 []] (mkProxy [] 2 []))))
    + held (_release_ranges
              (tokens_proxy
                 (mkState [mkStackNode 4 [Leaf "x" (1, 0) " "];
                           mkStackNode 1 []] (mkProxy [] 2 [])))) + 3 <= 3 /\
  exists st',
    _add_token statement_parser 3 (endmarker_token 2)
      (mkState [mkStackNode 4 [Leaf "x" (1, 0) " "]; mkStackNode 1 []]
               (mkProxy [] 2 []))
    = (Ret tt, st').
Proof.
  split; [simpl; tauto|]. split; [simpl; tauto|].
  split; [vm_compute; lia|].
  apply (an_allowed_token_type_is_accepted statement_parser 3
           (endmarker_token 2)
           (mkState [mkStackNode 4 [Leaf "x" (1, 0) " "]; mkStackNode 1 []]
                    (mkProxy [] 2 [])));
    [simpl; tauto | simpl; tauto | vm_compute; lia].
Defined.

(** X29.  The frames below a frame whose state is not final add nothing
    to [_allowed_transition_names_and_token_types]. *)
Theorem frames_below_an_incomplete_rule_are_not_listed
    (grammar : Grammar) (above : list StackNode) (frame : StackNode)
    (below : list StackNode) :
  is_final (dfa_states grammar (dfa frame)) = false ->
  _allowed_transition_names_and_token_types grammar
    (above ++ frame :: below)
  = _allowed_transition_names_and_token_types grammar (above ++ [frame]).
Proof.
  intros Hnf. induction above as [|a above IH]; simpl.
  - now rewrite Hnf.
  - destruct (is_final (dfa_states grammar (dfa a)));
      [now rewrite IH | reflexivity].
Qed.

(** The theorem at a stack of [keyword_grammar] whose second frame is in
    the state 5, which is not final. *)
Lemma frames_below_an_incomplete_rule_are_not_listed_witness :
  is_final (dfa_states keyword_grammar (dfa (mkStackNode 5 []))) = false /\
  _allowed_transition_names_and_token_types keyword_grammar
    ([mkStackNode 6 []] ++ mkStackNode 5 [] :: [mkStackNode 1 []])
  = _allowed_transition_names_and_token_types keyword_grammar
      ([mkStackNode 6 []] ++ [mkStackNode 5 []]).
Proof.
  split; [reflexivity|].
  apply (frames_below_an_incomplete_rule_are_not_listed keyword_grammar
           [mkStackNode 6 []] (mkStackNode 5 []) [mkStackNode 1 []]).
  reflexivity.
Defined.

(* --------------------------------------------------------------------- *)
(** ** The shape of the tree *)

Section Shape.
Variable self : BaseParser.
Local Abbreviation grammar := (_pgen_grammar self).

Lemma pop_shape stack_ stack' :
  _pop self stack_ = (Ret tt, stack') ->
  frames_without_single_child stack_ ->
  frames_without_single_child stack'.
Proof.
  unfold _pop, frames_without_single_child.
  destruct stack_ as [|tos [|parent rest]]; try discriminate.
  intros H Hok. injection H as <-.
  apply Forall_cons_iff in Hok. destruct Hok as [Htos Hok].
  apply Forall_cons_iff in Hok. destruct Hok as [Hparent Hrest].
  constructor; [|exact Hrest]. cbn [nodes].
  rewrite forallb_app, Hparent. cbn [forallb andb].
  rewrite andb_true_r.
  destruct (nodes tos) as [|c [|c2 cs]]; cbn [forallb] in *.
  - reflexivity.
  - now rewrite andb_true_r in Htos.
  - unfold convert_node. cbn [no_single_child length Nat.eqb negb andb forallb].
    exact Htos.
Qed.

Lemma find_plan_shape n fuel token : forall st plan st',
  find_plan self n fuel token st = (Ret (Some plan), st') ->
  frames_without_single_child (stack st) ->
  frames_without_single_child (stack st').
Proof.
  induction n as [|n IH]; intros st plan st' H Hok;
    destruct token as [type_ value_ start_pos prefix];
    cbn [find_plan] in H; [discriminate|].
  destruct st as [stack0 px]. cbn [stack tokens_proxy] in *.
  destruct stack0 as [|tos below]; [discriminate|].
  assert (Hk : forall px',
    (if is_final (dfa_states grammar (dfa tos))
     then match _pop self (tos :: below) with
          | (Ret tt, stack') =>
              find_plan self n fuel (mkToken type_ value_ start_pos prefix)
                        (mkState stack' px')
          | (Raise e, stack') => (Raise e, mkState stack' px')
          | (OutOfFuel, stack') => (OutOfFuel, mkState stack' px')
          end
     else match error_recovery self (mkToken type_ value_ start_pos prefix) with
          | Ret tt => (Ret None, mkState (tos :: below) px')
          | Raise e => (Raise e, mkState (tos :: below) px')
          | OutOfFuel => (OutOfFuel, mkState (tos :: below) px')
          end) = (Ret (Some plan), st') ->
    frames_without_single_child (stack st')).
  { intros px' H0. destruct (is_final _).
    - destruct (_pop self (tos :: below)) as [[[]| |] stack'] eqn:Ep;
        try discriminate.
      apply IH in H0; [exact H0|]. cbn [stack].
      eapply pop_shape; eauto.
    - destruct (error_recovery self _) as [[]| |]; discriminate. }
  destruct (get_possible_plan _ _ _ _ _) as [[[plan'|]|e|] px'] eqn:Eg.
  - injection H as _ <-. exact Hok.
  - eauto.
  - destruct e; try discriminate. eauto.
  - discriminate.
Qed.

Lemma add_token_shape fuel token st st' :
  _add_token self fuel token st = (Ret tt, st') ->
  frames_without_single_child (stack st) ->
  frames_without_single_child (stack st').
Proof.
  unfold _add_token.
  destruct (find_plan self _ fuel token st) as [[[plan|]| |] st1] eqn:Ef;
    try discriminate; [|now apply find_plan_not_None in Ef].
  intros H Hok. apply find_plan_shape in Ef; [|exact Hok].
  destruct (stack st1) as [|tos below]; [discriminate|].
  rewrite push_all_spec in H.
  assert (Hall : frames_without_single_child
            (map (fun p => mkStackNode p []) (rev (dfa_pushes plan)) ++
             mkStackNode (next_dfa plan) (nodes tos) :: below)).
  { apply Forall_app. split.
    - apply Forall_forall. intros sn Hin. apply in_map_iff in Hin.
      destruct Hin as (p & <- & _). reflexivity.
    - apply Forall_cons_iff in Ef. destruct Ef as [Ht Hb].
      constructor; assumption. }
  destruct (map _ (rev (dfa_pushes plan)) ++ _) as [|top below2];
    [discriminate|].
  injection H as <-. cbn [stack].
  apply Forall_cons_iff in Hall. destruct Hall as [Ht Hb].
  constructor; [|exact Hb]. cbn [nodes].
  rewrite forallb_app, Ht. reflexivity.
Qed.

Lemma feed_tokens_shape fuel : forall last_token st r st',
  feed_tokens self fuel last_token st = (Ret r, st') ->
  frames_without_single_child (stack st) ->
  frames_without_single_child (stack st').
Proof.
  induction fuel as [|fuel IH]; intros last_token st r st' H Hok;
    simpl in H; [discriminate|].
  destruct (next (tokens_proxy st)) as [[t|e|] px'].
  - destruct (_add_token self (S fuel) t _) as [[[]| |] st1] eqn:Ea;
      try discriminate.
    apply IH in H; [exact H|]. eapply add_token_shape; eauto.
  - destruct e; try discriminate. injection H as _ <-. exact Hok.
  - discriminate.
Qed.

Lemma reduce_all_shape n : forall token stack_ result stack',
  reduce_all self n token stack_ = (Ret result, stack') ->
  frames_without_single_child stack_ ->
  exists rule children,
    result = Node rule children /\
    forallb no_single_child children = true.
Proof.
  induction n as [|n IH]; intros token stack_ result stack' H Hok;
    simpl in H; [discriminate|].
  destruct stack_ as [|tos below]; [discriminate|].
  destruct (negb _); [destruct token; discriminate|].
  destruct (1 <? length (tos :: below)).
  - destruct (_pop self (tos :: below)) as [[[]|e|] s1] eqn:Ep;
      try discriminate.
    eapply IH; eauto. eapply pop_shape; eauto.
  - injection H as <- _. unfold convert_node.
    apply Forall_cons_iff in Hok. destruct Hok as [Ht _]. eauto.
Qed.

Lemma parse_shape fuel tokens result :
  parse self fuel tokens = Ret result ->
  exists rule children,
    result = Node rule children /\
    forallb no_single_child children = true.
Proof.
  unfold parse.
  destruct (dict_get _ _ _) as [[|first_dfa others]|]; try discriminate.
  destruct (feed_tokens _ _ _ _) as [[token| |] st'] eqn:Ef;
    try discriminate.
  destruct (reduce_all _ _ _ _) as [res s1] eqn:Er. simpl. intros ->.
  apply feed_tokens_shape in Ef.
  - eapply reduce_all_shape; eauto.
  - constructor; [reflexivity | constructor].
Qed.

End Shape.

(** X30.  The tree that [parse] returns is a node, and below the root no
    node has exactly one child. *)
Theorem parse_builds_no_node_with_a_single_child_below_the_root
    (self : BaseParser) (fuel : nat) (tokens : list Token)
    (result : NodeOrLeaf) :
  parse self fuel tokens = Ret result ->
  exists rule children,
    result = Node rule children /\
    forallb no_single_child children = true.
Proof. apply parse_shape. Qed.

(** The theorem at [x = y] in [statement_grammar]. *)
Lemma parse_builds_no_node_with_a_single_child_below_the_root_witness :
  parse statement_parser 20
    [name_token "x" 0; op_token "=" 2; name_token "y" 4; endmarker_token 5]
  = Ret (Node "file_input"
           [Node "expr_stmt" [Leaf "x" (1, 0) " "; Leaf "=" (1, 2) " ";
                              Leaf "y" (1, 4) " "];
            Leaf EmptyString (1, 5) EmptyString]) /\
  exists rule children,
    Node "file_input"
      [Node "expr_stmt" [Leaf "x" (1, 0) " "; Leaf "=" (1, 2) " ";
                         Leaf "y" (1, 4) " "];
       Leaf EmptyString (1, 5) EmptyString]
    = Node rule children /\
    forallb no_single_child children = true.
Proof.
  split; [reflexivity|].
  apply (parse_builds_no_node_with_a_single_child_below_the_root
           statement_parser 20
           [name_token "x" 0; op_token "=" 2; name_token "y" 4;
            endmarker_token 5]).
  reflexivity.
Defined.
